(** * Pedestrian simulation on a grid: a shallow embedding of
      [crosswalk_free_flow.py] (classes Grid, Cell, TypeA, TypeB, TypeC, TypeD)
      and the properties of its turn engine.

    Objects are kept in two stores: the cells, addressed by their coordinate
    pair (the grid holds exactly one [Cell] per coordinate), and the agents,
    addressed by a reference (Python object identity).  Every assignment of the
    source is one store update, performed in the order of the source, so that
    aliasing between [self], [partner] and cell occupants is kept.

    Distances: the source orders candidates by [math.sqrt] of an integer sum of
    squares, a double; the embedding orders by the sum of squares itself
    ([norm2]).  [math.sqrt] never inverts two sums, and below 2^52 it keeps
    two different sums apart, so that there the two orders are the same
    ([candidates_order], [nearer_exact]); from 2^52 on two different sums can
    get the same double.  The properties that depend on which of two
    candidates comes first are therefore stated for grids of at most 2^25
    columns and 2^25 rows ([sqrt_exact]), where every sum is below 2^51; the
    others hold whichever candidate comes first.  Likewise the sign of
    [v / norm] is the sign of the integer [v].

    Rows: [populate] is embedded on rows of integers ([Row]: the fields of a
    line once [int] has read them), which the scenarios are made of, and on
    rows of strings as [csv.reader] yields them ([populate_fields]), where a
    row too short and a field [int] does not read raise as in the source. *)

From Stdlib Require Import String Ascii ZArith List Bool Lia Permutation Arith.
From Stdlib Require QArith DecimalString.
Import ListNotations.
Open Scope Z_scope.

(** ** Data model *)

Definition loc : Type := (Z * Z)%type.
Definition ref : Type := nat.

Definition loc_eqb (a b : loc) : bool :=
  (fst a =? fst b) && (snd a =? snd b).

Arguments loc_eqb : simpl never.

Inductive Class := TypeA | TypeB | TypeC | TypeD.

Record Cell := mkCell {
  c_symbol : string;          (* "X" for every cell *)
  adjacent : list loc;        (* references to the accessible cells *)
  occupant : option ref       (* None, or the agent standing here *)
}.

Record Agent := mkAgent {
  kind : Class;
  id : string;
  cell : loc;
  end_ : loc;
  moves : list (loc * loc);
  moved : bool;
  move_count : nat            (* TypeC only *)
}.

Definition symbol (a : Agent) : string :=
  match kind a with
  | TypeA => "A" | TypeB => "B" | TypeC => "C" | TypeD => "D"
  end%string.

Record Grid := mkGrid {
  grid : list (list loc);     (* rows of cell references *)
  width : nat;
  height : nat;
  cells : loc -> Cell;        (* the cell objects *)
  agents : ref -> Agent;      (* the agent objects *)
  allocated : nat;            (* number of agent objects created so far *)
  playerAs : list ref;
  playerBs : list ref;
  playerCs : list ref;
  playerDs : list ref;
  finishedAs : list ref;
  finishedBs : list ref;
  finishedCs : list ref;
  turn : nat;
  draws : nat                 (* number of calls made to the random module *)
}.

Definition MAX_C_MOVES : nat := 40.

(** ** Store updates *)

Definition upd_agent (f : ref -> Agent) (r : ref) (v : Agent) : ref -> Agent :=
  fun r' => if Nat.eqb r' r then v else f r'.

Definition upd_cell (f : loc -> Cell) (l : loc) (v : Cell) : loc -> Cell :=
  fun l' => if loc_eqb l' l then v else f l'.

Definition with_agents (st : Grid) (ag : ref -> Agent) : Grid :=
  mkGrid (grid st) (width st) (height st) (cells st) ag (allocated st)
         (playerAs st) (playerBs st) (playerCs st) (playerDs st)
         (finishedAs st) (finishedBs st) (finishedCs st) (turn st) (draws st).

Definition with_cells (st : Grid) (cs : loc -> Cell) : Grid :=
  mkGrid (grid st) (width st) (height st) cs (agents st) (allocated st)
         (playerAs st) (playerBs st) (playerCs st) (playerDs st)
         (finishedAs st) (finishedBs st) (finishedCs st) (turn st) (draws st).

Definition with_draws (st : Grid) (n : nat) : Grid :=
  mkGrid (grid st) (width st) (height st) (cells st) (agents st) (allocated st)
         (playerAs st) (playerBs st) (playerCs st) (playerDs st)
         (finishedAs st) (finishedBs st) (finishedCs st) (turn st) n.

Definition with_turn (st : Grid) (n : nat) : Grid :=
  mkGrid (grid st) (width st) (height st) (cells st) (agents st) (allocated st)
         (playerAs st) (playerBs st) (playerCs st) (playerDs st)
         (finishedAs st) (finishedBs st) (finishedCs st) n (draws st).

(** [a.f = v] for the agent behind reference [r]. *)
Definition set_agent (st : Grid) (r : ref) (v : Agent) : Grid :=
  with_agents st (upd_agent (agents st) r v).

Definition set_cell_of (a : Agent) (c : loc) : Agent :=
  mkAgent (kind a) (id a) c (end_ a) (moves a) (moved a) (move_count a).

Definition set_moved (a : Agent) (b : bool) : Agent :=
  mkAgent (kind a) (id a) (cell a) (end_ a) (moves a) b (move_count a).

Definition append_move (a : Agent) (m : loc * loc) : Agent :=
  mkAgent (kind a) (id a) (cell a) (end_ a) (moves a ++ [m]) (moved a)
          (move_count a).

Definition incr_move_count (a : Agent) : Agent :=
  mkAgent (kind a) (id a) (cell a) (end_ a) (moves a) (moved a)
          (S (move_count a)).

(** [c.occupant = o] for the cell at [l]. *)
Definition set_occupant (st : Grid) (l : loc) (o : option ref) : Grid :=
  with_cells st
    (upd_cell (cells st) l
       (mkCell (c_symbol (cells st l)) (adjacent (cells st l)) o)).

Definition is_some {A} (o : option A) : bool :=
  match o with Some _ => true | None => false end.

(** ** Utility functions of the module *)

(** [norm(a, b)], squared. *)
Definition norm2 (a b : loc) : Z :=
  let vec0 := fst b - fst a in
  let vec1 := snd b - snd a in
  vec0 * vec0 + vec1 * vec1.

(** [shortest_path(a, b)]: the coordinates next to [a] on the straight line
    to [b]; [a] itself when the two coincide. *)
Definition shortest_path (a b : loc) : loc :=
  if loc_eqb a b then a
  else
    let vec0 := fst b - fst a in
    let vec1 := snd b - snd a in
    (fst a + Z.sgn vec0, snd a + Z.sgn vec1).

(** [sorted(choice_pair, key=lambda x: x[1])]: a stable sort on the key. *)
Fixpoint insert_by (p : loc * Z) (l : list (loc * Z)) : list (loc * Z) :=
  match l with
  | [] => [p]
  | q :: l' => if snd p <=? snd q then p :: q :: l' else q :: insert_by p l'
  end.

Definition sorted (l : list (loc * Z)) : list (loc * Z) :=
  fold_right insert_by [] l.

(** The pairs [(k, normal)] built by the loop over [choices]. *)
Definition choice_pairs (des : loc) (choices : list loc) : list (loc * Z) :=
  map (fun k => (k, norm2 k des)) choices.

(** ** Grid.initialize *)

(** First loop: row [s] holds the cells [Cell(r, s)] for [r] in
    [range(width)]. *)
Definition make_rows (w h : nat) : list (list loc) :=
  map (fun s => map (fun r => (Z.of_nat r, Z.of_nat s)) (seq 0 w)) (seq 0 h).

(** One pass of the body of the linking loop: [self.grid[x][y]] guarded by the
    explicit test on negative indices, an [IndexError] leaving nothing. *)
Definition lookup_adjacent (g : list (list loc)) (x y : Z) : list loc :=
  if (x <? 0) || (y <? 0) then []
  else match nth_error g (Z.to_nat x) with
       | Some row => match nth_error row (Z.to_nat y) with
                     | Some c => [c]
                     | None => []
                     end
       | None => []
       end.

(** Second loop, for the cell [grid[r][s]]. *)
Definition link (g : list (list loc)) (r s : Z) : list loc :=
  flat_map (fun delta_i =>
    flat_map (fun delta_j => lookup_adjacent g (r + delta_i) (s + delta_j))
             [-1; 0; 1])
    [-1; 0; 1].

Definition on_grid (w h : nat) (l : loc) : bool :=
  (0 <=? fst l) && (fst l <? Z.of_nat w) &&
  (0 <=? snd l) && (snd l <? Z.of_nat h).

Definition no_cell : Cell := mkCell "X" [] None.

Definition no_agent : Agent := mkAgent TypeD EmptyString (0, 0) (0, 0) [] false 0.

(** [Grid(width, height)] followed by [initialize()]. *)
Definition initialize (w h : nat) : Grid :=
  let g := make_rows w h in
  mkGrid g w h
    (fun l => if on_grid w h l
              then mkCell "X" (link g (snd l) (fst l)) None
              else no_cell)
    (fun _ => no_agent) 0 [] [] [] [] [] [] [] 0 0.

(** ** Grid.populate *)

(** One row of the scenario file, its five fields already split and the
    coordinates read as integers. *)
Record Row := mkRow {
  name : string;
  x1 : Z; y1 : Z; x2 : Z; y2 : Z
}.

(** Python list indexing: negative indices count from the end, anything out
    of range raises [IndexError]. *)
Definition py_index {A} (l : list A) (i : Z) : option A :=
  let n := Z.of_nat (List.length l) in
  if i <? 0
  then if 0 <=? n + i then nth_error l (Z.to_nat (n + i)) else None
  else nth_error l (Z.to_nat i).

Definition grid_at (st : Grid) (row col : Z) : option loc :=
  match py_index (grid st) row with
  | Some r => py_index r col
  | None => None
  end.

(** The constructors [TypeA(start, end, id, grid)] and the like: a new object
    whose starting cell records it as occupant. *)
Definition new_agent (st : Grid) (k : Class) (i : string) (s e : loc)
  : ref * Grid :=
  let r := allocated st in
  let st1 :=
    mkGrid (grid st) (width st) (height st) (cells st)
           (upd_agent (agents st) r (mkAgent k i s e [] false 0))
           (S r)
           (playerAs st) (playerBs st) (playerCs st) (playerDs st)
           (finishedAs st) (finishedBs st) (finishedCs st)
           (turn st) (draws st) in
  (r, set_occupant st1 (cell (agents st1 r)) (Some r)).

Definition add_playerA (st : Grid) (p : ref) : Grid :=
  mkGrid (grid st) (width st) (height st) (cells st) (agents st) (allocated st)
         (playerAs st ++ [p]) (playerBs st) (playerCs st) (playerDs st)
         (finishedAs st) (finishedBs st) (finishedCs st) (turn st) (draws st).

Definition add_playerB (st : Grid) (p : ref) : Grid :=
  mkGrid (grid st) (width st) (height st) (cells st) (agents st) (allocated st)
         (playerAs st) (playerBs st ++ [p]) (playerCs st) (playerDs st)
         (finishedAs st) (finishedBs st) (finishedCs st) (turn st) (draws st).

Definition add_playerC (st : Grid) (p : ref) : Grid :=
  mkGrid (grid st) (width st) (height st) (cells st) (agents st) (allocated st)
         (playerAs st) (playerBs st) (playerCs st ++ [p]) (playerDs st)
         (finishedAs st) (finishedBs st) (finishedCs st) (turn st) (draws st).

Definition add_playerD (st : Grid) (p : ref) : Grid :=
  mkGrid (grid st) (width st) (height st) (cells st) (agents st) (allocated st)
         (playerAs st) (playerBs st) (playerCs st) (playerDs st ++ [p])
         (finishedAs st) (finishedBs st) (finishedCs st) (turn st) (draws st).

(** The body of the loop over the rows; [None] stands for the [IndexError] of
    a coordinate outside the grid or of an empty first field. *)
Definition populate_row (st : Grid) (row : Row) : option Grid :=
  match grid_at st (y1 row) (x1 row), grid_at st (y2 row) (x2 row) with
  | Some s, Some e =>
      match name row with
      | EmptyString => None
      | String c rest =>
          let i := substring 0 2 rest in
          if Ascii.eqb c "A" then
            let '(p, st1) := new_agent st TypeA i s e in Some (add_playerA st1 p)
          else if Ascii.eqb c "B" then
            let '(p, st1) := new_agent st TypeB i s e in Some (add_playerB st1 p)
          else if Ascii.eqb c "D" then
            let '(p, st1) := new_agent st TypeD "0" s s in Some (add_playerD st1 p)
          else
            let '(p, st1) := new_agent st TypeC i s e in Some (add_playerC st1 p)
      end
  | _, _ => None
  end.

Fixpoint populate (st : Grid) (rows : list Row) : option Grid :=
  match rows with
  | [] => Some st
  | row :: rest =>
      match populate_row st row with
      | Some st1 => populate st1 rest
      | None => None
      end
  end.

(** ** Occupancy transfer *)

(** The block repeated in every move method:
    [prev = self.cell; self.cell = c; prev.occupant = None;
     self.cell.occupant = self]. *)
Definition relocate (st : Grid) (r : ref) (c : loc) : Grid :=
  let prev := cell (agents st r) in
  let st1 := set_agent st r (set_cell_of (agents st r) c) in
  let st2 := set_occupant st1 prev None in
  set_occupant st2 (cell (agents st2 r)) (Some r).

(** The swap block of [TypeB.move]:
    [prev = self.cell; self.cell = best_choice; best_choice.occupant = self;
     partner.cell = prev; partner.cell.occupant = partner]. *)
Definition swap (st : Grid) (r : ref) (best_choice : loc) (partner : ref)
  : Grid :=
  let prev := cell (agents st r) in
  let st1 := set_agent st r (set_cell_of (agents st r) best_choice) in
  let st2 := set_occupant st1 best_choice (Some r) in
  let st3 := set_agent st2 partner (set_cell_of (agents st2 partner) prev) in
  set_occupant st3 (cell (agents st3 partner)) (Some partner).

(** The common end of a move method:
    [end = self.cell.loc; self.moves.append((start, end)); self.moved = True]. *)
Definition finish (st : Grid) (r : ref) (start : loc) : Grid :=
  let end' := cell (agents st r) in
  let st1 := set_agent st r (append_move (agents st r) (start, end')) in
  set_agent st1 r (set_moved (agents st1 r) true).

(** Take [choice_pair[0][0]] when there is a choice, otherwise stay put. *)
Definition take_best (st : Grid) (r : ref) (choice_pair : list (loc * Z))
  : Grid :=
  match choice_pair with
  | (c, _) :: _ => relocate st r c
  | [] => st
  end.

(** ** TypeA *)

Definition choicesA (st : Grid) (r : ref) : list loc :=
  let self := agents st r in
  filter (fun j => negb (is_some (occupant (cells st j)))
                   && negb (loc_eqb j (cell self))
                   && negb (String.eqb (c_symbol (cells st j)) "D"))
         (adjacent (cells st (cell self))).

Definition moveA (st : Grid) (r : ref) : Grid :=
  let self := agents st r in
  if moved self then st
  else
    let start := cell self in
    let choice_pair := sorted (choice_pairs (end_ self) (choicesA st r)) in
    finish (take_best st r choice_pair) r start.

Definition check_swapA (st : Grid) (p : ref) (c : loc) : bool * Grid :=
  let self := agents st p in
  if (norm2 c (end_ self) <? norm2 (cell self) (end_ self))
     && negb (moved self)
  then (true, set_agent st p (set_moved self true))
  else (false, st).

(** ** TypeB and TypeD: the response to a swap request *)

Definition check_swapB (st : Grid) (p : ref) (c : loc) : bool * Grid :=
  let self := agents st p in
  let coords := shortest_path (cell self) (end_ self) in
  if loc_eqb coords c && negb (moved self)
  then (true, set_agent st p (set_moved self true))
  else (false, st).

Definition check_swapD (st : Grid) (p : ref) (c : loc) : bool * Grid :=
  let self := agents st p in
  let coords := shortest_path (cell self) (end_ self) in
  if loc_eqb coords c && negb (moved self)
  then (true, set_agent st p (set_moved self true))
  else (false, st).

(** ** Grid.clean_up *)

(** [list.remove(a)]: drops the first occurrence. *)
Fixpoint remove_first (a : ref) (l : list ref) : list ref :=
  match l with
  | [] => []
  | x :: l' => if Nat.eqb x a then l' else x :: remove_first a l'
  end.

(** The three loops of [clean_up] run the same logic on the three active
    lists. *)
Inductive Pool := PoolA | PoolB | PoolC.

Definition players (k : Pool) (st : Grid) : list ref :=
  match k with
  | PoolA => playerAs st
  | PoolB => playerBs st
  | PoolC => playerCs st
  end.

Definition finished (k : Pool) (st : Grid) : list ref :=
  match k with
  | PoolA => finishedAs st
  | PoolB => finishedBs st
  | PoolC => finishedCs st
  end.

(** The test of each loop: [a.end == a.cell], and for the third list
    [c.end == c.cell or c.move_count > MAX_C_MOVES]. *)
Definition arrived (k : Pool) (a : Agent) : bool :=
  match k with
  | PoolA | PoolB => loc_eqb (end_ a) (cell a)
  | PoolC => loc_eqb (end_ a) (cell a) || (MAX_C_MOVES <? move_count a)%nat
  end.

(** [self.finishedXs.append(a); self.playerXs.remove(a)]. *)
Definition retire_from (k : Pool) (st : Grid) (a : ref) : Grid :=
  match k with
  | PoolA =>
      mkGrid (grid st) (width st) (height st) (cells st) (agents st)
        (allocated st)
        (remove_first a (playerAs st)) (playerBs st) (playerCs st)
        (playerDs st)
        (finishedAs st ++ [a]) (finishedBs st) (finishedCs st)
        (turn st) (draws st)
  | PoolB =>
      mkGrid (grid st) (width st) (height st) (cells st) (agents st)
        (allocated st)
        (playerAs st) (remove_first a (playerBs st)) (playerCs st)
        (playerDs st)
        (finishedAs st) (finishedBs st ++ [a]) (finishedCs st)
        (turn st) (draws st)
  | PoolC =>
      mkGrid (grid st) (width st) (height st) (cells st) (agents st)
        (allocated st)
        (playerAs st) (playerBs st) (remove_first a (playerCs st))
        (playerDs st)
        (finishedAs st) (finishedBs st) (finishedCs st ++ [a])
        (turn st) (draws st)
  end.

(** The body of one loop for the element [a] the iterator yields. *)
Definition clean_body (k : Pool) (st : Grid) (a : ref) : Grid :=
  if arrived k (agents st a)
  then retire_from k (set_occupant st (cell (agents st a)) None) a
  else st.

(** [for a in self.playerXs: ...] with the list changing under the loop: the
    list iterator keeps an index [i], yields the element at [i] of the list
    as it is now, and stops when [i] is past its end. *)
Fixpoint clean_loop (k : Pool) (fuel i : nat) (st : Grid) : Grid :=
  match fuel with
  | O => st
  | S fuel' =>
      match nth_error (players k st) i with
      | None => st
      | Some a => clean_loop k fuel' (S i) (clean_body k st a)
      end
  end.

Definition clean_pool (k : Pool) (st : Grid) : Grid :=
  clean_loop k (List.length (players k st)) 0 st.

Definition clean_up (st : Grid) : Grid :=
  clean_pool PoolC (clean_pool PoolB (clean_pool PoolA st)).

(** [reset()], the same in the three classes. *)
Definition reset (st : Grid) (r : ref) : Grid :=
  set_agent st r (set_moved (agents st r) false).

(** ** TypeC: the moves that draw nothing at random *)

Definition choicesC2 (st : Grid) (r : ref) : list loc :=
  let self := agents st r in
  filter (fun j => negb (is_some (occupant (cells st j)))
                   && negb (loc_eqb j (cell self)))
         (adjacent (cells st (cell self))).

Definition move2 (st : Grid) (r : ref) : Grid :=
  let self := agents st r in
  if moved self then st
  else
    let start := cell self in
    let choice_pair := sorted (choice_pairs (end_ self) (choicesC2 st r)) in
    finish (take_best st r choice_pair) r start.

Definition move3 (st : Grid) (r : ref) : Grid :=
  let self := agents st r in
  let start := cell self in
  let end' := cell self in
  let st1 := set_agent st r (append_move self (start, end')) in
  set_agent st1 r (incr_move_count (agents st1 r)).

(** ** TypeB.shortest_path_between *)

Definition choicesB (st : Grid) (r : ref) : list loc :=
  let self := agents st r in
  filter (fun j => negb (loc_eqb j (cell self))
                   && negb (String.eqb (c_symbol (cells st j)) "D"))
         (adjacent (cells st (cell self))).

(** [None] is the [UnboundLocalError] of [return cellul.loc] when the agent
    has already moved. *)
Definition shortest_path_between (st : Grid) (r : ref) : option loc :=
  let self := agents st r in
  if moved self then None
  else
    let cellul := cell self in
    let choice_pair := sorted (choice_pairs (end_ self) (choicesB st r)) in
    Some (match choice_pair with
          | (c, _) :: _ => c
          | [] => cellul
          end).

(** [for cell in self.cell.adjacent: if cell.loc == coords: best_choice = cell]
    starting from [best_choice = None]. *)
Definition find_best_choice (adj : list loc) (coords : loc) : option loc :=
  fold_left (fun best_choice c => if loc_eqb c coords then Some c
                                  else best_choice)
            adj None.

(** [coords = self.shortest_path_between()] followed by the look-up of
    [best_choice]; [None] when either step leaves nothing to go on with. *)
Definition best_choice_of (st : Grid) (r : ref) : option loc :=
  match shortest_path_between st r with
  | None => None
  | Some coords =>
      find_best_choice (adjacent (cells st (cell (agents st r)))) coords
  end.

(** ** The operations that use the random module *)

Section Simulation.

(** [rnd n] is the number the [n]-th call to the random module draws;
    [shuffle n l] is the order the [n]-th call leaves the list [l] in when that
    call is [random.shuffle]. *)
Variable rnd : nat -> nat.
Variable shuffle : nat -> list ref -> list ref.

(** [TypeC.check_swap]: [bool(random.randint(0, 1))]. *)
Definition check_swapC (st : Grid) (p : ref) (c : loc) : bool * Grid :=
  (Nat.eqb (Nat.modulo (rnd (draws st)) 2) 1, with_draws st (S (draws st))).

(** [occupant.check_swap(cell)], dispatched on the class of the occupant. *)
Definition check_swap (st : Grid) (p : ref) (c : loc) : bool * Grid :=
  match kind (agents st p) with
  | TypeA => check_swapA st p c
  | TypeB => check_swapB st p c
  | TypeC => check_swapC st p c
  | TypeD => check_swapD st p c
  end.

(** [TypeB.move]; [None] is an exception: the unbound [cellul], or
    [best_choice.occupant] on a [best_choice] that is still [None]. *)
Definition moveB (st : Grid) (r : ref) : option Grid :=
  let self := agents st r in
  if moved self then Some st
  else
    let start := cell self in
    match best_choice_of st r with
    | None => None
    | Some best_choice =>
        let st1 :=
          match occupant (cells st best_choice) with
          | Some partner =>
              let '(ok, st') := check_swap st partner (cell self) in
              if ok && negb (String.eqb (symbol (agents st' partner)) "D")
              then swap st' r best_choice partner
              else st'
          | None => relocate st r best_choice
          end in
        Some (finish st1 r start)
    end.

(** [TypeC.move1]: [random.choice] among the unoccupied adjacent cells. *)
Definition move1 (st : Grid) (r : ref) : Grid :=
  let self := agents st r in
  let start := cell self in
  let choices := filter (fun i => negb (is_some (occupant (cells st i))))
                        (adjacent (cells st (cell self))) in
  let st1 :=
    match choices with
    | [] => st
    | _ :: _ =>
        let choice :=
          nth (Nat.modulo (rnd (draws st)) (List.length choices)) choices start in
        let st' := relocate (with_draws st (S (draws st))) r choice in
        let end' := cell (agents st' r) in
        set_agent st' r (append_move (agents st' r) (start, end'))
    end in
  set_agent st1 r (incr_move_count (agents st1 r)).

(** ** Grid.play_turn *)

Definition shuffle_players (k : Pool) (st : Grid) : Grid :=
  let n := draws st in
  match k with
  | PoolA =>
      mkGrid (grid st) (width st) (height st) (cells st) (agents st)
        (allocated st)
        (shuffle n (playerAs st)) (playerBs st) (playerCs st) (playerDs st)
        (finishedAs st) (finishedBs st) (finishedCs st) (turn st) (S n)
  | PoolB =>
      mkGrid (grid st) (width st) (height st) (cells st) (agents st)
        (allocated st)
        (playerAs st) (shuffle n (playerBs st)) (playerCs st) (playerDs st)
        (finishedAs st) (finishedBs st) (finishedCs st) (turn st) (S n)
  | PoolC =>
      mkGrid (grid st) (width st) (height st) (cells st) (agents st)
        (allocated st)
        (playerAs st) (playerBs st) (shuffle n (playerCs st)) (playerDs st)
        (finishedAs st) (finishedBs st) (finishedCs st) (turn st) (S n)
  end.

(** [for b in self.playerBs: b.move()], stopping at the first exception. *)
Fixpoint move_all_B (l : list ref) (st : Grid) : option Grid :=
  match l with
  | [] => Some st
  | b :: l' =>
      match moveB st b with
      | Some st1 => move_all_B l' st1
      | None => None
      end
  end.

(** The branch on the thirds of the run.  [Nturn/3] is a true division: for
    integers, [turn <= Nturn/3] is [3*turn <= Nturn] and
    [Nturn*2/3 < turn] is [2*Nturn < 3*turn]. *)
Definition moveC (t Nturn : nat) (st : Grid) (c : ref) : Grid :=
  if (3 * t <=? Nturn)%nat then move2 st c
  else if (Nturn <? 3 * t)%nat && (3 * t <=? 2 * Nturn)%nat then move3 st c
  else if (2 * Nturn <? 3 * t)%nat && (t <=? Nturn)%nat then move1 st c
  else st.

(** The turn up to the point where the TypeB agents start. *)
Definition phaseA (st : Grid) : Grid :=
  let st1 := shuffle_players PoolA st in
  let st2 := fold_left moveA (playerAs st1) st1 in
  let st3 := shuffle_players PoolB st2 in
  clean_up st3.

Definition phaseC (t Nturn : nat) (st : Grid) : Grid :=
  let st1 := shuffle_players PoolC st in
  let st2 := fold_left (moveC t Nturn) (playerCs st1) st1 in
  clean_up st2.

Definition reset_all (st : Grid) : Grid :=
  let st1 := fold_left reset (playerAs st) st in
  let st2 := fold_left reset (playerBs st1) st1 in
  fold_left reset (playerCs st2) st2.

Definition play_turn (st : Grid) (t Nturn : nat) : option Grid :=
  let st1 := phaseA st in
  match move_all_B (playerBs st1) st1 with
  | None => None
  | Some st2 =>
      let st3 := clean_up st2 in
      let st4 := phaseC t Nturn st3 in
      let st5 := reset_all st4 in
      Some (with_turn st5 (S (turn st5)))
  end.

(** The driver: [for i in range(Nturn): grid.play_turn(i, Nturn)]. *)
Fixpoint play_turns (l : list nat) (Nturn : nat) (st : Grid) : option Grid :=
  match l with
  | [] => Some st
  | i :: l' =>
      match play_turn st i Nturn with
      | Some st1 => play_turns l' Nturn st1
      | None => None
      end
  end.

Definition run (st : Grid) (Nturn : nat) : option Grid :=
  play_turns (seq 0 Nturn) Nturn st.

End Simulation.

(** ** Predicates on states *)

(** The agents still on the board: the active ones and the obstacles. *)
Definition active (st : Grid) (r : ref) : Prop :=
  In r (playerAs st) \/ In r (playerBs st) \/ In r (playerCs st).

Definition on_board (st : Grid) (r : ref) : Prop :=
  active st r \/ In r (playerDs st).

(** No cell carries two agents of the board. *)
Definition one_per_cell (st : Grid) : Prop :=
  forall r1 r2, on_board st r1 -> on_board st r2 ->
    cell (agents st r1) = cell (agents st r2) -> r1 = r2.

(** [agent.cell.occupant == agent]. *)
Definition occupancy (st : Grid) : Prop :=
  forall r, on_board st r -> occupant (cells st (cell (agents st r))) = Some r.

Definition Inv (st : Grid) : Prop := one_per_cell st /\ occupancy st.

(** The lists hold objects of their own class, each once, as [populate]
    builds them. *)
Definition typed_pools (st : Grid) : Prop :=
  forall r,
    (In r (playerAs st) -> kind (agents st r) = TypeA) /\
    (In r (playerBs st) -> kind (agents st r) = TypeB) /\
    (In r (playerCs st) -> kind (agents st r) = TypeC) /\
    (In r (playerDs st) -> kind (agents st r) = TypeD).

Definition WF (st : Grid) : Prop :=
  NoDup (playerAs st) /\ NoDup (playerBs st) /\ NoDup (playerCs st) /\
  typed_pools st.

Definition Good (st : Grid) : Prop := WF st /\ Inv st.

(** The cells are the ones [initialize] links, whoever stands on them. *)
Definition Topology (st : Grid) : Prop :=
  forall l, on_grid (width st) (height st) l = true ->
    adjacent (cells st l) = adjacent (cells (initialize (width st) (height st)) l)
    /\ c_symbol (cells st l) = "X"%string.

(** Every agent of the board stands on a cell of the grid. *)
Definition Placed (st : Grid) : Prop :=
  forall r, on_board st r ->
    on_grid (width st) (height st) (cell (agents st r)) = true.

(** The references handed out so far are the ones below [allocated]. *)
Definition Allocated (st : Grid) : Prop :=
  (forall k r, In r (players k st) -> (r < allocated st)%nat) /\
  (forall r, In r (playerDs st) -> (r < allocated st)%nat).

(** Well-formed lists, the cells of [initialize], every agent on the grid. *)
Definition Sound (st : Grid) : Prop := WF st /\ Topology st /\ Placed st.

(** Chebyshev distance between two coordinate pairs. *)
Definition chebyshev (a b : loc) : Z :=
  Z.max (Z.abs (fst b - fst a)) (Z.abs (snd b - snd a)).

(** The nine coordinate pairs around [(x, y)], row by row. *)
Definition around (l : loc) : list loc :=
  flat_map (fun dy => map (fun dx => (fst l + dx, snd l + dy)) [-1; 0; 1])
           [-1; 0; 1].

(** What no operation touches once the grid is built: its dimensions and,
    cell by cell, the adjacency list and the symbol. *)
Definition same_frame (st st' : Grid) : Prop :=
  width st' = width st /\ height st' = height st /\
  forall l, adjacent (cells st' l) = adjacent (cells st l) /\
            c_symbol (cells st' l) = c_symbol (cells st l).

(** How a state may differ from an earlier one of the same run: the active
    lists only lose members or change order, the obstacle list is the same,
    classes and destinations are the same, no TypeD agent has changed cell, and
    the frame of the grid is the same. *)
Definition evolves (st st' : Grid) : Prop :=
  (forall k r, In r (players k st') -> In r (players k st)) /\
  (forall k, NoDup (players k st) -> NoDup (players k st')) /\
  playerDs st' = playerDs st /\
  (forall r, kind (agents st' r) = kind (agents st r) /\
             end_ (agents st' r) = end_ (agents st r)) /\
  (forall d, kind (agents st d) = TypeD ->
             cell (agents st' d) = cell (agents st d)) /\
  same_frame st st'.

(** The lists of the board are untouched. *)
Definition same_pools (st st' : Grid) : Prop :=
  (forall k, players k st' = players k st) /\ playerDs st' = playerDs st.

(** Nobody has changed cell and no cell has changed occupant. *)
Definition same_board (st st' : Grid) : Prop :=
  (forall r, on_board st' r <-> on_board st r) /\
  (forall l, occupant (cells st' l) = occupant (cells st l)) /\
  (forall r, cell (agents st' r) = cell (agents st r)).

(** No agent marked as having moved has lost the mark. *)
Definition moved_mono (st st' : Grid) : Prop :=
  forall r, moved (agents st r) = true -> moved (agents st' r) = true.

(** Every active TypeA agent is marked as having moved. *)
Definition MoversActed (st : Grid) : Prop :=
  forall a, In a (playerAs st) -> moved (agents st a) = true.

(** ** The operations of a turn as a step relation *)

Section Steps.

Variable rnd : nat -> nat.
Variable shuffle : nat -> list ref -> list ref.

(** One operation of [play_turn], applied the way [play_turn] applies it: a
    move method to a member of the list of its class, [reset] to an active
    agent. *)
Inductive operation : Grid -> Grid -> Prop :=
| op_shuffle (k : Pool) (st : Grid) :
    operation st (shuffle_players shuffle k st)
| op_moveA (st : Grid) (a : ref) :
    In a (playerAs st) -> operation st (moveA st a)
| op_moveB (st st' : Grid) (b : ref) :
    In b (playerBs st) -> moveB rnd st b = Some st' -> operation st st'
| op_move1 (st : Grid) (c : ref) :
    In c (playerCs st) -> operation st (move1 rnd st c)
| op_move2 (st : Grid) (c : ref) :
    In c (playerCs st) -> operation st (move2 st c)
| op_move3 (st : Grid) (c : ref) :
    In c (playerCs st) -> operation st (move3 st c)
| op_clean_up (st : Grid) :
    operation st (clean_up st)
| op_reset (st : Grid) (r : ref) :
    active st r -> operation st (reset st r)
| op_turn (st : Grid) :
    operation st (with_turn st (S (turn st))).

(** The states a run goes through, operation after operation. *)
Inductive reaches : Grid -> Grid -> Prop :=
| reaches_here (st : Grid) : reaches st st
| reaches_next (st1 st2 st3 : Grid) :
    reaches st1 st2 -> operation st2 st3 -> reaches st1 st3.

End Steps.

(** ** Scenarios *)

(** The grid [initialize] and [populate] build from the dimensions and the
    rows of a scenario file. *)
Definition scenario (w h : nat) (rows : list Row) : Grid :=
  match populate (initialize w h) rows with
  | Some st => st
  | None => initialize w h
  end.

(** A TypeB agent alone on a 3 x 3 grid, created on its destination. *)
Definition lone_B_on_destination : Grid :=
  scenario 3 3 [mkRow "B1" 1 1 1 1].

(** Two TypeA agents created on their destinations, next to each other in
    the list of active TypeA agents. *)
Definition two_arrived_movers : Grid :=
  scenario 3 1 [mkRow "A1" 0 0 0 0; mkRow "A2" 1 0 1 0].

(** A TypeA agent at (1,0) bound for (3,0) on a row of four cells, the cell
    (2,0) in front of it held by an obstacle. *)
Definition mover_behind_obstacle : Grid :=
  scenario 4 1 [mkRow "A1" 1 0 3 0; mkRow "D" 2 0 2 0].

(** A TypeA agent at (0,0) bound for (2,0) and a TypeC agent at (1,0). *)
Definition mover_and_tourist : Grid :=
  scenario 3 1 [mkRow "A1" 0 0 2 0; mkRow "C1" 1 0 2 0].

(** Two TypeC agents on the 50 x 20 grid of the main program. *)
Definition two_tourists : Grid :=
  scenario 50 20 [mkRow "C1" 0 7 49 9; mkRow "C2" 0 8 49 10].

(** The ordering scenario of three cells in a row: a TypeA agent at (0,0)
    bound for (2,0) and a TypeB agent at (1,0) bound for (0,0). *)
Definition mover_meets_follower : Grid :=
  scenario 3 1 [mkRow "A1" 0 0 2 0; mkRow "B1" 1 0 0 0].

(** A TypeB agent at (0,0) bound for (2,0) with an obstacle at (1,0) on its
    way. *)
Definition follower_meets_obstacle : Grid :=
  scenario 3 1 [mkRow "B1" 0 0 2 0; mkRow "D" 1 0 1 0].

(** A random source that always draws 0, one that always draws 1, and a
    shuffle that leaves the order as it is. *)
Definition draw_zero : nat -> nat := fun _ => 0%nat.
Definition draw_one : nat -> nat := fun _ => 1%nat.
Definition keep_order : nat -> list ref -> list ref := fun _ l => l.

(** [n] phases of the TypeC agents in a row, all at turn [t] of [Nturn]. *)
Fixpoint phasesC (rnd : nat -> nat) (shuffle : nat -> list ref -> list ref)
         (n t Nturn : nat) (st : Grid) : Grid :=
  match n with
  | O => st
  | S n' => phasesC rnd shuffle n' t Nturn (phaseC rnd shuffle t Nturn st)
  end.

(** ** The remaining methods *)

(** [Grid.cell(loc)]: [self.grid[loc[1]][loc[0]]]. *)
Definition Grid_cell (st : Grid) (l : loc) : option loc :=
  grid_at st (snd l) (fst l).

(** [total_distance()], the same in the three classes: the number of logged
    moves whose two ends differ. *)
Definition total_distance (a : Agent) : nat :=
  fold_left (fun dist_count move =>
               if negb (loc_eqb (fst move) (snd move))
               then S dist_count else dist_count)
            (moves a) 0%nat.

(** [Cell.get_symbol()]: the symbol of the occupant, or the cell's own. *)
Definition get_symbol (st : Grid) (l : loc) : string :=
  match occupant (cells st l) with
  | Some r => symbol (agents st r)
  | None => c_symbol (cells st l)
  end.

(** [shortest_path] followed [n] times towards [b]. *)
Fixpoint follow (n : nat) (a b : loc) : loc :=
  match n with
  | O => a
  | S n' => follow n' (shortest_path a b) b
  end.

(** What a loop that removes from the list it iterates leaves and takes: after
    an element is removed the next one slides under the index and is stepped
    over. *)
Fixpoint survivors (gone : ref -> bool) (l : list ref) : list ref :=
  match l with
  | [] => []
  | a :: l' =>
      if gone a
      then match l' with
           | [] => []
           | b :: l'' => b :: survivors gone l''
           end
      else a :: survivors gone l'
  end.

Fixpoint retired (gone : ref -> bool) (l : list ref) : list ref :=
  match l with
  | [] => []
  | a :: l' =>
      if gone a
      then a :: match l' with
                | [] => []
                | b :: l'' => retired gone l''
                end
      else retired gone l'
  end.

(** Every occupant a cell records is an agent of the board standing on that
    cell. *)
Definition Exact (st : Grid) : Prop :=
  forall l p, occupant (cells st l) = Some p ->
    on_board st p /\ cell (agents st p) = l.

(** The rows of cells are the ones [initialize] lays out. *)
Definition Built (st : Grid) : Prop :=
  grid st = make_rows (width st) (height st).

(** What the moves and [reset] leave alone: the lists, the turn counter and
    the rows of cells. *)
Definition same_books (st st' : Grid) : Prop :=
  (forall k, players k st' = players k st) /\
  (forall k, finished k st' = finished k st) /\
  playerDs st' = playerDs st /\
  turn st' = turn st /\
  grid st' = grid st.

(** Every logged move is a stay or a step to an adjacent cell. *)
Definition Logged (st : Grid) : Prop :=
  forall r m, In m (moves (agents st r)) -> chebyshev (fst m) (snd m) <= 1.

(** The cell a row of the scenario file starts on, negative coordinates
    counting from the far edge. *)
Definition start_cell (w h : nat) (row : Row) : loc :=
  (x1 row mod Z.of_nat w, y1 row mod Z.of_nat h).

(** A coordinate pair Python accepts as a pair of indices into the rows. *)
Definition indexable (w h : nat) (x y : Z) : bool :=
  (- Z.of_nat w <=? x) && (x <? Z.of_nat w) &&
  (- Z.of_nat h <=? y) && (y <? Z.of_nat h).

(** Nobody stands more than one cell away from where it stood. *)
Definition one_step_apart (st st' : Grid) : Prop :=
  forall r, chebyshev (cell (agents st r)) (cell (agents st' r)) <= 1.

(** No log of moves has changed. *)
Definition same_log (st st' : Grid) : Prop :=
  forall r, moves (agents st' r) = moves (agents st r).


(** ** Grid.display *)

(** The results of a comprehension none of whose elements raises, or the
    exception. *)
Fixpoint collect {A} (l : list (option A)) : option (list A) :=
  match l with
  | [] => Some []
  | None :: _ => None
  | Some a :: l' =>
      match collect l' with
      | Some r => Some (a :: r)
      | None => None
      end
  end.

(** One line [display()] prints: the symbols of row [c] joined by blanks;
    [None] is the [IndexError] of a row or a cell that is not there. *)
Definition display_line (st : Grid) (c : nat) : option string :=
  option_map (String.concat " ")
    (collect (map (fun j => option_map (get_symbol st)
                              (grid_at st (Z.of_nat c) (Z.of_nat j)))
                  (seq 0 (width st)))).

(** [display()]: the lines printed under the rule of equal signs. *)
Definition display (st : Grid) : option (list string) :=
  collect (map (display_line st) (seq 0 (height st))).

(** ** generate_file *)





Section Generate.

(** [random_random n] is the result of [random.random()] when it is the
    [n]-th draw of the program, [randint n a b] that of [random.randint(a, b)]. *)
Variable random_random : nat -> QArith_base.Q.
Variable randint : nat -> Z -> Z -> Z.




End Generate.






(** ** A TypeB agent alone on the board *)

(** The only active agent is [b], it has not moved in this turn, it and its
    destination are on the grid, and no other cell has an occupant. *)
Definition Lone (st : Grid) (b : ref) : Prop :=
  playerAs st = [] /\ playerBs st = [b] /\ playerCs st = [] /\
  moved (agents st b) = false /\
  Topology st /\
  on_grid (width st) (height st) (cell (agents st b)) = true /\
  on_grid (width st) (height st) (end_ (agents st b)) = true /\
  (forall l, l <> cell (agents st b) -> occupant (cells st l) = None).

(** No agent is active. *)
Definition Quiet (st : Grid) : Prop :=
  playerAs st = [] /\ playerBs st = [] /\ playerCs st = [].

(** The steps of the straight walk from [s] to [e], as the log of moves
    records them. *)
Definition straight_walk (n : nat) (s e : loc) : list (loc * loc) :=
  map (fun i => (follow i s e, follow (S i) s e)) (seq 0 n).

(** ** The keys of the sort *)

(** The source sorts the candidate cells by [math.sqrt] of the integer sum of
    squares, a double, and [check_swap] of a TypeA agent compares two such
    doubles.  [math.sqrt] is correctly rounded: it never inverts two sums, and
    it keeps two different sums below 2^52 apart, their roots being further
    apart than the doubles below 2^26 are spaced.  From 2^52 on it does not:
    the roots of 2^52 and 2^52 + 1 are the same double.  On a grid of at most
    2^25 columns and 2^25 rows every sum the code forms is below 2^51, and
    there the order of the doubles is the order of [norm2]. *)
Definition sqrt_exact (st : Grid) : Prop :=
  Z.of_nat (width st) <= 2 ^ 25 /\ Z.of_nat (height st) <= 2 ^ 25.

Section Doubles.

(** The doubles with their order, and [math.sqrt] on the integers. *)
Variable double : Type.
Variable double_leb : double -> double -> bool.
Variable math_sqrt : Z -> double.

(** [sorted(choice_pair, key=lambda x: x[1])] on the keys the source
    computes. *)
Fixpoint insert_double (p : loc * double) (l : list (loc * double))
  : list (loc * double) :=
  match l with
  | [] => [p]
  | q :: l' =>
      if double_leb (snd p) (snd q) then p :: q :: l'
      else q :: insert_double p l'
  end.

Definition sorted_double (l : list (loc * double)) : list (loc * double) :=
  fold_right insert_double [] l.

(** The pairs [(k, normal)] with [normal = math.sqrt(...)]. *)
Definition choice_pairs_double (des : loc) (choices : list loc)
  : list (loc * double) :=
  map (fun k => (k, math_sqrt (norm2 k des))) choices.

(** [norm(c, end) < norm(cell, end)] as [check_swap] of a TypeA agent
    evaluates it. *)
Definition nearer_double (c cell' des : loc) : bool :=
  negb (double_leb (math_sqrt (norm2 cell' des)) (math_sqrt (norm2 c des))).

End Doubles.

(** ** The rows as [csv.reader] yields them *)

(** The exceptions [populate] raises on a row. *)
Inductive Exn := IndexError | ValueError.

(** What a call comes to: the value it returns, or the exception it raises. *)
Inductive Outcome (A : Type) :=
| Returned (a : A)
| Raised (e : Exn).

Arguments Returned {A} a.
Arguments Raised {A} e.

Definition bind {A B} (o : Outcome A) (f : A -> Outcome B) : Outcome B :=
  match o with
  | Returned a => f a
  | Raised e => Raised e
  end.

(** [row[i]] for a literal index and [l[i]] for a computed one. *)
Definition get_field (row : list string) (i : nat) : Outcome string :=
  match nth_error row i with
  | Some f => Returned f
  | None => Raised IndexError
  end.

Definition get_item {A} (l : list A) (i : Z) : Outcome A :=
  match py_index l i with
  | Some a => Returned a
  | None => Raised IndexError
  end.

(** The class chosen by the first letter, as in [populate_row]. *)
Definition place_agent (st : Grid) (c : ascii) (rest : string) (s e : loc)
  : Grid :=
  let i := substring 0 2 rest in
  if Ascii.eqb c "A" then
    let '(p, st1) := new_agent st TypeA i s e in add_playerA st1 p
  else if Ascii.eqb c "B" then
    let '(p, st1) := new_agent st TypeB i s e in add_playerB st1 p
  else if Ascii.eqb c "D" then
    let '(p, st1) := new_agent st TypeD "0" s s in add_playerD st1 p
  else
    let '(p, st1) := new_agent st TypeC i s e in add_playerC st1 p.

Section Reading.

(** [int(s)] for a string: the integer it reads, or nothing when it raises
    [ValueError]. *)
Variable int : string -> option Z.

Definition to_int (s : string) : Outcome Z :=
  match int s with
  | Some z => Returned z
  | None => Raised ValueError
  end.

(** [self.grid[int(row[iy])][int(row[ix])]], evaluated from left to right. *)
Definition cell_of_fields (st : Grid) (row : list string) (iy ix : nat)
  : Outcome loc :=
  bind (get_field row iy) (fun fy =>
  bind (to_int fy) (fun y =>
  bind (get_item (grid st) y) (fun grid_row =>
  bind (get_field row ix) (fun fx =>
  bind (to_int fx) (fun x =>
  get_item grid_row x))))).

(** The body of the loop of [populate] for one row of strings. *)
Definition populate_fields (st : Grid) (row : list string) : Outcome Grid :=
  bind (cell_of_fields st row 2 1) (fun s =>
  bind (cell_of_fields st row 4 3) (fun e =>
  bind (get_field row 0) (fun f0 =>
  match f0 with
  | EmptyString => Raised IndexError
  | String c rest => Returned (place_agent st c rest s e)
  end))).

(** [populate] on the rows of strings of a file. *)
Fixpoint populate_rows (st : Grid) (rows : list (list string))
  : Outcome Grid :=
  match rows with
  | [] => Returned st
  | row :: rest =>
      bind (populate_fields st row) (fun st1 => populate_rows st1 rest)
  end.

(** The row of integers a row of five strings or more reads as. *)
Definition read_row (row : list string) : option Row :=
  match row with
  | f0 :: f1 :: f2 :: f3 :: f4 :: _ =>
      match int f1, int f2, int f3, int f4 with
      | Some a1, Some b1, Some a2, Some b2 => Some (mkRow f0 a1 b1 a2 b2)
      | _, _, _, _ => None
      end
  | _ => None
  end.

End Reading.


(** * Properties *)

(** ** Coordinates *)

Lemma loc_eqb_eq (a b : loc) : loc_eqb a b = true <-> a = b.
Proof.
  destruct a as [ax ay], b as [bx by_]; unfold loc_eqb; simpl.
  rewrite andb_true_iff, !Z.eqb_eq.
  split; [intros [-> ->]; reflexivity | intros H; inversion H; auto].
Qed.

Lemma loc_eqb_spec (a b : loc) : reflect (a = b) (loc_eqb a b).
Proof.
  apply iff_reflect; symmetry; apply loc_eqb_eq.
Qed.

Lemma loc_eqb_refl (a : loc) : loc_eqb a a = true.
Proof. apply loc_eqb_eq; reflexivity. Qed.

(** ** The grid built by [initialize] *)

Lemma lookup_adjacent_rows (w h : nat) (x y : Z) :
  lookup_adjacent (make_rows w h) x y =
  if on_grid w h (y, x) then [(y, x)] else [].
Proof.
  unfold lookup_adjacent, on_grid, make_rows; simpl.
  destruct (Z.ltb_spec x 0) as [Hx | Hx]; simpl.
  { destruct (Z.leb_spec 0 x); [lia |]. now rewrite !andb_false_r. }
  destruct (Z.ltb_spec y 0) as [Hy | Hy]; simpl.
  { destruct (Z.leb_spec 0 y); [lia |]. reflexivity. }
  rewrite nth_error_map, nth_error_seq.
  destruct (Z.leb_spec 0 y); [| lia].
  destruct (Z.leb_spec 0 x); [| lia]. simpl.
  destruct (Nat.ltb_spec (Z.to_nat x) h) as [Hh | Hh]; simpl.
  - rewrite nth_error_map, nth_error_seq.
    destruct (Nat.ltb_spec (Z.to_nat y) w) as [Hw | Hw]; simpl.
    + destruct (Z.ltb_spec y (Z.of_nat w)); [| lia].
      destruct (Z.ltb_spec x (Z.of_nat h)); [| lia]. simpl.
      now rewrite !Z2Nat.id by lia.
    + destruct (Z.ltb_spec y (Z.of_nat w)); [lia |]. reflexivity.
  - destruct (Z.ltb_spec x (Z.of_nat h)); [lia |].
    now rewrite andb_false_r.
Qed.

Lemma singleton_if_app {A} (b : bool) (x : A) (l : list A) :
  (if b then [x] else []) ++ l = if b then x :: l else l.
Proof. destruct b; reflexivity. Qed.

(** The adjacency list is the nine surrounding coordinates, in row order,
    filtered by the bounds of the grid. *)
Lemma link_rows (w h : nat) (l : loc) :
  link (make_rows w h) (snd l) (fst l) = filter (on_grid w h) (around l).
Proof.
  destruct l as [x y]; unfold link, around; simpl.
  rewrite !lookup_adjacent_rows, !app_nil_r, <- !app_assoc.
  rewrite !singleton_if_app.
  repeat match goal with
         | |- context [on_grid w h ?p] => destruct (on_grid w h p)
         end; reflexivity.
Qed.

Lemma adjacent_initialize (w h : nat) (l : loc) :
  on_grid w h l = true ->
  adjacent (cells (initialize w h) l) = filter (on_grid w h) (around l).
Proof.
  intros H; simpl. rewrite H; simpl. apply link_rows.
Qed.

Lemma in_around (l c : loc) :
  In c (around l) <->
  (Z.abs (fst c - fst l) <= 1 /\ Z.abs (snd c - snd l) <= 1).
Proof.
  destruct l as [x y], c as [a b]; unfold around; simpl.
  split.
  - intros H.
    repeat (destruct H as [H | H]; [inversion H; subst; lia |]).
    contradiction.
  - intros [Ha Hb].
    assert (Ea : a = x + -1 \/ a = x + 0 \/ a = x + 1) by lia.
    assert (Eb : b = y + -1 \/ b = y + 0 \/ b = y + 1) by lia.
    destruct Ea as [-> | [-> | ->]], Eb as [-> | [-> | ->]]; tauto.
Qed.

Lemma NoDup_around (l : loc) : NoDup (around l).
Proof.
  destruct l as [x y]; unfold around; simpl.
  repeat (constructor;
          [simpl; intros H;
           repeat (destruct H as [H | H]; [inversion H; lia |]);
           contradiction |]).
  constructor.
Qed.

(** C7, as the code has it: the adjacency list of a cell of the grid holds
    exactly the cells of the grid at Chebyshev distance at most 1, the cell
    itself among them, each once. *)
Theorem adjacent_is_clipped_block (w h : nat) (l : loc) :
  on_grid w h l = true ->
  (forall c, In c (adjacent (cells (initialize w h) l)) <->
             (chebyshev l c <= 1 /\ on_grid w h c = true)) /\
  In l (adjacent (cells (initialize w h) l)) /\
  NoDup (adjacent (cells (initialize w h) l)).
Proof.
  intros H. rewrite (adjacent_initialize w h l H).
  assert (Hc : forall c, In c (filter (on_grid w h) (around l)) <->
                         (chebyshev l c <= 1 /\ on_grid w h c = true)).
  { intros c. rewrite filter_In, in_around. unfold chebyshev.
    split; intros [H1 H2]; (split; [lia | assumption]). }
  split; [exact Hc | split].
  - apply Hc. split; [| assumption].
    unfold chebyshev. rewrite !Z.sub_diag. simpl. lia.
  - apply NoDup_filter, NoDup_around.
Qed.

Lemma adjacent_is_clipped_block_witness :
  on_grid 3 3 (1, 1) = true /\
  In (1, 1) (adjacent (cells (initialize 3 3) (1, 1))).
Proof.
  split; [reflexivity |].
  apply (adjacent_is_clipped_block 3 3 (1, 1)). reflexivity.
Defined.

(** C7, as the claim words it, fails: the list of a cell contains the cell
    itself, at Chebyshev distance 0. *)
Lemma adjacent_not_only_distance_one :
  ~ (forall c, In c (adjacent (cells (initialize 3 3) (1, 1))) <->
               (chebyshev (1, 1) c = 1 /\ on_grid 3 3 c = true)).
Proof.
  intros H.
  assert (Hin : In (1, 1) (adjacent (cells (initialize 3 3) (1, 1)))).
  { vm_compute. tauto. }
  apply H in Hin. destruct Hin as [Hd _]. vm_compute in Hd. discriminate.
Qed.

(** ** The stable sort and its first element *)

Lemma in_insert_by (p q : loc * Z) (l : list (loc * Z)) :
  In q (insert_by p l) <-> q = p \/ In q l.
Proof.
  induction l as [| x l IH]; simpl.
  - intuition.
  - destruct (snd p <=? snd x); simpl; [intuition |].
    rewrite IH. intuition.
Qed.

Lemma in_sorted (q : loc * Z) (l : list (loc * Z)) :
  In q (sorted l) <-> In q l.
Proof.
  induction l as [| x l IH]; simpl; [tauto |].
  rewrite in_insert_by, IH. intuition.
Qed.

(** [choice_pair[0]] is the first candidate, in the order of the list, among
    those at the least distance. *)
Lemma sorted_head (des : loc) (l : list loc) (c : loc) (k : Z)
      (rest : list (loc * Z)) :
  sorted (choice_pairs des l) = (c, k) :: rest ->
  k = norm2 c des /\
  (forall n, In n l -> k <= norm2 n des) /\
  exists l1 l2, l = l1 ++ c :: l2 /\ forall n, In n l1 -> k < norm2 n des.
Proof.
  revert c k rest.
  induction l as [| x l IH]; intros c k rest; simpl; [discriminate |].
  destruct (sorted (choice_pairs des l)) as [| [c' k'] rest'] eqn:E; simpl.
  - intros H; inversion H; subst.
    assert (l = []) as ->.
    { destruct l as [| y l]; [reflexivity |].
      assert (In (y, norm2 y des) []) as [].
      rewrite <- E. apply in_sorted. simpl. auto. }
    split; [reflexivity | split].
    + intros n [<- | []]. lia.
    + exists [], []. split; [reflexivity | intros n []].
  - destruct (IH c' k' rest' eq_refl) as (Hk & Hmin & l1 & l2 & Hl & Hl1).
    destruct (Z.leb_spec (norm2 x des) k') as [Hle | Hlt];
      intros H; inversion H; subst.
    + split; [reflexivity | split].
      * intros n [<- | Hn]; [lia |]. specialize (Hmin n Hn). lia.
      * exists [], (l1 ++ c' :: l2). split; [reflexivity | intros n []].
    + split; [reflexivity | split].
      * intros n [<- | Hn]; [lia |]. auto.
      * exists (x :: l1), l2. split; [reflexivity |].
        intros n [<- | Hn]; [lia | auto].
Qed.

Lemma sorted_nil (des : loc) (l : list loc) :
  sorted (choice_pairs des l) = [] -> l = [].
Proof.
  destruct l as [| y l]; [reflexivity |]. intros E.
  assert (In (y, norm2 y des) []) as [].
  rewrite <- E. apply in_sorted. simpl. auto.
Qed.

(** A candidate strictly nearer than all the others comes first. *)
Lemma sorted_head_strict (des : loc) (l : list loc) (s : loc) :
  In s l ->
  (forall n, In n l -> n <> s -> norm2 s des < norm2 n des) ->
  exists rest, sorted (choice_pairs des l) = (s, norm2 s des) :: rest.
Proof.
  intros Hs Hmin.
  destruct (sorted (choice_pairs des l)) as [| [c k] rest] eqn:E.
  - apply sorted_nil in E. subst. contradiction.
  - destruct (sorted_head des l c k rest E) as (Hk & Hle & l1 & l2 & Hl & _).
    assert (Hc : In c l) by (rewrite Hl; apply in_elt).
    destruct (loc_eqb_spec c s) as [-> | Hne].
    + exists rest. now rewrite Hk.
    + specialize (Hmin c Hc Hne). specialize (Hle s Hs). lia.
Qed.

(** ** The look-up of [best_choice] *)

Lemma find_best_choice_from (adj : list loc) (coords : loc) (acc : option loc) :
  fold_left (fun best_choice c => if loc_eqb c coords then Some c
                                  else best_choice) adj acc =
  if existsb (fun c => loc_eqb c coords) adj then Some coords else acc.
Proof.
  revert acc. induction adj as [| x adj IH]; intros acc; simpl.
  - reflexivity.
  - rewrite IH. destruct (loc_eqb_spec x coords) as [-> | Hne]; simpl.
    + now destruct (existsb _ adj).
    + reflexivity.
Qed.

Lemma find_best_choice_in (adj : list loc) (coords : loc) :
  In coords adj -> find_best_choice adj coords = Some coords.
Proof.
  intros H. unfold find_best_choice. rewrite find_best_choice_from.
  assert (E : existsb (fun c => loc_eqb c coords) adj = true).
  { apply existsb_exists. exists coords. split; [assumption |].
    apply loc_eqb_refl. }
  now rewrite E.
Qed.

(** ** Candidates on an initialized grid *)

Lemma on_grid_bounds (w h : nat) (l : loc) :
  on_grid w h l = true <->
  (0 <= fst l < Z.of_nat w /\ 0 <= snd l < Z.of_nat h).
Proof.
  unfold on_grid. rewrite !andb_true_iff, !Z.leb_le, !Z.ltb_lt. lia.
Qed.

Lemma topology_adjacent (st : Grid) (l : loc) :
  Topology st -> on_grid (width st) (height st) l = true ->
  adjacent (cells st l) = filter (on_grid (width st) (height st)) (around l).
Proof.
  intros T H. destruct (T l H) as [-> _]. now apply adjacent_initialize.
Qed.

Lemma topology_self (st : Grid) (l : loc) :
  Topology st -> on_grid (width st) (height st) l = true ->
  In l (adjacent (cells st l)).
Proof.
  intros T H. rewrite (topology_adjacent st l T H).
  apply filter_In. split; [| assumption].
  apply in_around. rewrite !Z.sub_diag. simpl. lia.
Qed.

Lemma topology_adjacent_on_grid (st : Grid) (l c : loc) :
  Topology st -> on_grid (width st) (height st) l = true ->
  In c (adjacent (cells st l)) ->
  on_grid (width st) (height st) c = true.
Proof.
  intros T H. rewrite (topology_adjacent st l T H), filter_In. tauto.
Qed.

Lemma in_choicesB (st : Grid) (r : ref) (c : loc) :
  Topology st ->
  on_grid (width st) (height st) (cell (agents st r)) = true ->
  In c (choicesB st r) <->
  (In c (around (cell (agents st r))) /\
   on_grid (width st) (height st) c = true /\ c <> cell (agents st r)).
Proof.
  intros T H. unfold choicesB.
  rewrite filter_In, (topology_adjacent st _ T H), filter_In.
  split.
  - intros [[Ha Hg] Hf]. apply andb_true_iff in Hf. destruct Hf as [Hf _].
    destruct (loc_eqb_spec c (cell (agents st r))); [discriminate | auto].
  - intros (Ha & Hg & Hne). split; [auto |].
    destruct (T c Hg) as [_ ->].
    destruct (loc_eqb_spec c (cell (agents st r))); [contradiction |].
    reflexivity.
Qed.

(** The snapped cell is strictly nearer to the destination than any other
    cell around. *)
Lemma snapped_strictly_nearest (a b n : loc) :
  In n (around a) -> n <> shortest_path a b -> a <> b ->
  norm2 (shortest_path a b) b < norm2 n b.
Proof.
  intros Hn Hne Hab. apply in_around in Hn.
  unfold shortest_path in *.
  destruct (loc_eqb_spec a b) as [| _]; [contradiction |].
  destruct a as [x y], b as [ex ey], n as [nx ny]; unfold norm2; simpl in *.
  assert (Hx : nx <> x + Z.sgn (ex - x) \/ ny <> y + Z.sgn (ey - y)).
  { destruct (Z.eq_dec nx (x + Z.sgn (ex - x))) as [-> |]; [| auto].
    destruct (Z.eq_dec ny (y + Z.sgn (ey - y))) as [-> |]; [| auto].
    now contradiction Hne. }
  destruct (Z.sgn_spec (ex - x)) as [[? ->] | [[? ->] | [? ->]]];
  destruct (Z.sgn_spec (ey - y)) as [[? ->] | [[? ->] | [? ->]]];
  nia.
Qed.

Lemma sorted_head_in (des : loc) (l : list loc) (c : loc) (k : Z)
      (rest : list (loc * Z)) :
  sorted (choice_pairs des l) = (c, k) :: rest -> In c l.
Proof.
  intros E. destruct (sorted_head des l c k rest E) as (_ & _ & l1 & l2 & -> & _).
  apply in_elt.
Qed.

(** What [shortest_path_between] returns is one of the adjacent cells, as
    soon as the cell is in its own adjacency list. *)
Lemma shortest_path_between_adjacent (st : Grid) (r : ref) :
  In (cell (agents st r)) (adjacent (cells st (cell (agents st r)))) ->
  moved (agents st r) = false ->
  exists coords,
    shortest_path_between st r = Some coords /\
    In coords (adjacent (cells st (cell (agents st r)))) /\
    (coords = cell (agents st r) <-> choicesB st r = []).
Proof.
  intros Hself Hm. unfold shortest_path_between. rewrite Hm.
  destruct (sorted (choice_pairs (end_ (agents st r)) (choicesB st r)))
    as [| [c k] rest] eqn:E.
  - exists (cell (agents st r)). apply sorted_nil in E. tauto.
  - exists c. apply sorted_head_in in E.
    split; [reflexivity | split].
    + unfold choicesB in E. apply filter_In in E. tauto.
    + split.
      * intros ->. unfold choicesB in E. apply filter_In in E.
        destruct E as [_ E]. rewrite loc_eqb_refl in E. discriminate.
      * intros E'. rewrite E' in E. contradiction.
Qed.

(** ** The frame of the grid *)

Lemma same_frame_refl (st : Grid) : same_frame st st.
Proof. unfold same_frame; auto. Qed.

Lemma same_frame_trans (st1 st2 st3 : Grid) :
  same_frame st1 st2 -> same_frame st2 st3 -> same_frame st1 st3.
Proof.
  intros (W1 & H1 & C1) (W2 & H2 & C2). repeat split; try congruence.
  - destruct (C1 l), (C2 l); congruence.
  - destruct (C1 l), (C2 l); congruence.
Qed.

Lemma same_frame_set_occupant (st st1 : Grid) (l : loc) (o : option ref) :
  same_frame st st1 -> same_frame st (set_occupant st1 l o).
Proof.
  intros H. apply (same_frame_trans _ _ _ H).
  repeat split; simpl; unfold upd_cell;
    destruct (loc_eqb_spec l0 l); subst; reflexivity.
Qed.

Lemma same_frame_cells (st st1 st2 : Grid) :
  same_frame st st1 ->
  width st2 = width st1 -> height st2 = height st1 -> cells st2 = cells st1 ->
  same_frame st st2.
Proof.
  intros H W HH C. apply (same_frame_trans _ _ _ H).
  unfold same_frame. rewrite W, HH, C. auto.
Qed.

Lemma Topology_frame (st st' : Grid) :
  same_frame st st' -> Topology st -> Topology st'.
Proof.
  intros (W & H & C) T l Hl. rewrite W, H in *.
  destruct (C l) as [-> ->]. auto.
Qed.

Lemma Topology_initialize (w h : nat) : Topology (initialize w h).
Proof.
  intros l Hl. split; [reflexivity |]. simpl in *. now rewrite Hl.
Qed.

Lemma same_frame_populate_row (st st' : Grid) (row : Row) :
  populate_row st row = Some st' -> same_frame st st'.
Proof.
  unfold populate_row.
  destruct (grid_at st (y1 row) (x1 row)) as [s |]; [| discriminate].
  destruct (grid_at st (y2 row) (x2 row)) as [e |]; [| discriminate].
  destruct (name row) as [| c rest]; [discriminate |].
  repeat match goal with
         | |- context [Ascii.eqb ?a ?b] => destruct (Ascii.eqb a b)
         end;
    intros H; inversion H; subst; clear H;
    (eapply same_frame_cells;
     [apply same_frame_set_occupant, same_frame_refl | reflexivity ..]).
Qed.

Lemma same_frame_populate (rows : list Row) (st st' : Grid) :
  populate st rows = Some st' -> same_frame st st'.
Proof.
  revert st. induction rows as [| row rows IH]; intros st; simpl.
  - intros H; inversion H. apply same_frame_refl.
  - destruct (populate_row st row) as [st1 |] eqn:E; [| discriminate].
    intros H. eapply same_frame_trans; [| apply IH, H].
    now apply same_frame_populate_row in E.
Qed.

Lemma Topology_scenario (w h : nat) (rows : list Row) :
  Topology (scenario w h rows).
Proof.
  unfold scenario.
  destruct (populate (initialize w h) rows) as [st |] eqn:E.
  - eapply Topology_frame; [apply (same_frame_populate _ _ _ E) |].
    apply Topology_initialize.
  - apply Topology_initialize.
Qed.

(** C5, as the code has it.  On a grid of at most 2^25 columns and 2^25
    rows, where [math.sqrt] keeps apart the distances the sort compares, the
    TypeB agent away from its destination prefers the cell [shortest_path]
    snaps to; on its destination [shortest_path] answers the cell itself,
    while the move method, which leaves the own cell out of its candidates,
    prefers a neighbouring cell whenever the grid has one.  On a larger grid
    two candidates at different distances can get the same key, and the sort
    then keeps the order of the adjacency list. *)
Theorem preferred_cell_snapped (st : Grid) (r : ref) :
  Topology st -> sqrt_exact st ->
  on_grid (width st) (height st) (cell (agents st r)) = true ->
  on_grid (width st) (height st) (end_ (agents st r)) = true ->
  moved (agents st r) = false ->
  (cell (agents st r) <> end_ (agents st r) ->
     shortest_path_between st r
       = Some (shortest_path (cell (agents st r)) (end_ (agents st r))) /\
     best_choice_of st r
       = Some (shortest_path (cell (agents st r)) (end_ (agents st r)))) /\
  (cell (agents st r) = end_ (agents st r) ->
     shortest_path (cell (agents st r)) (end_ (agents st r))
       = cell (agents st r) /\
     ((1 < width st \/ 1 < height st)%nat ->
        exists c, best_choice_of st r = Some c /\ c <> cell (agents st r))).
Proof.
  intros T _ Hc He Hm.
  assert (Hself := topology_self st _ T Hc).
  destruct (shortest_path_between_adjacent st r Hself Hm)
    as (coords & Hsp & Hin & Hnil).
  split.
  - intros Hne.
    set (s := shortest_path (cell (agents st r)) (end_ (agents st r))).
    assert (Hs : In s (choicesB st r)).
    { apply (in_choicesB st r s T Hc). subst s. unfold shortest_path.
      destruct (loc_eqb_spec (cell (agents st r)) (end_ (agents st r)));
        [contradiction |].
      apply on_grid_bounds in Hc, He.
      destruct (cell (agents st r)) as [x y], (end_ (agents st r)) as [ex ey].
      cbn [fst snd] in *. split; [| split].
      - apply in_around. simpl.
        destruct (Z.sgn_spec (ex - x)) as [[? ->] | [[? ->] | [? ->]]];
        destruct (Z.sgn_spec (ey - y)) as [[? ->] | [[? ->] | [? ->]]]; lia.
      - apply on_grid_bounds. simpl.
        destruct (Z.sgn_spec (ex - x)) as [[? ->] | [[? ->] | [? ->]]];
        destruct (Z.sgn_spec (ey - y)) as [[? ->] | [[? ->] | [? ->]]]; lia.
      - intros E. inversion E.
        assert (ex <> x \/ ey <> y)
          by (destruct (Z.eq_dec ex x), (Z.eq_dec ey y); subst; tauto).
        destruct (Z.sgn_spec (ex - x)) as [[? Ex] | [[? Ex] | [? Ex]]];
        destruct (Z.sgn_spec (ey - y)) as [[? Ey] | [[? Ey] | [? Ey]]]; lia. }
    assert (Hhead : exists rest,
               sorted (choice_pairs (end_ (agents st r)) (choicesB st r))
               = (s, norm2 s (end_ (agents st r))) :: rest).
    { apply sorted_head_strict; [assumption |].
      intros n Hn Hns. apply snapped_strictly_nearest; try assumption.
      apply (in_choicesB st r n T Hc) in Hn. tauto. }
    destruct Hhead as [rest Hhead].
    assert (Hsp' : shortest_path_between st r = Some s).
    { unfold shortest_path_between. now rewrite Hm, Hhead. }
    split; [assumption |].
    unfold best_choice_of. rewrite Hsp'. apply find_best_choice_in.
    unfold choicesB in Hs. apply filter_In in Hs. tauto.
  - intros Heq. split.
    + unfold shortest_path. rewrite <- Heq, loc_eqb_refl. reflexivity.
    + intros Hbig. exists coords. split.
      * unfold best_choice_of. rewrite Hsp. now apply find_best_choice_in.
      * intros ->.
        assert (Hn : exists n, In n (choicesB st r)).
        { apply on_grid_bounds in Hc.
          destruct (cell (agents st r)) as [x y] eqn:Ecell. simpl in Hc.
          assert (Hcase : (0 <= x + 1 < Z.of_nat (width st)) \/
                          (0 <= x - 1 < Z.of_nat (width st)) \/
                          (0 <= y + 1 < Z.of_nat (height st)) \/
                          (0 <= y - 1 < Z.of_nat (height st))) by lia.
          destruct Hcase as [Hx | [Hx | [Hy | Hy]]];
            [exists (x + 1, y) | exists (x - 1, y)
             | exists (x, y + 1) | exists (x, y - 1)];
            (apply (in_choicesB st r _ T);
             [rewrite Ecell; apply on_grid_bounds; simpl; lia |];
             rewrite Ecell; split; [| split];
             [apply in_around; simpl; lia
             | apply on_grid_bounds; simpl; lia
             | intros E; inversion E; lia]). }
        destruct Hn as [n Hn].
        assert (E : choicesB st r = []) by (apply Hnil; reflexivity).
        rewrite E in Hn. contradiction.
Qed.

Lemma preferred_cell_snapped_witness :
  exists c, best_choice_of lone_B_on_destination 0%nat = Some c /\
            c <> cell (agents lone_B_on_destination 0%nat).
Proof.
  refine (proj2 (proj2 (preferred_cell_snapped lone_B_on_destination 0%nat
                          _ _ _ _ _) _) _).
  - apply Topology_scenario.
  - split; vm_compute; discriminate.
  - reflexivity.
  - reflexivity.
  - reflexivity.
  - reflexivity.
  - left. vm_compute. lia.
Defined.

(** C5, as the claim words it, fails on the destination: the agent created on
    its destination on a 3 x 3 grid prefers the cell above it, not its own. *)
Lemma preferred_cell_on_destination_differs :
  cell (agents lone_B_on_destination 0%nat)
    = end_ (agents lone_B_on_destination 0%nat) /\
  kind (agents lone_B_on_destination 0%nat) = TypeB /\
  playerBs lone_B_on_destination = [0%nat] /\
  best_choice_of lone_B_on_destination 0%nat = Some (1, 0) /\
  best_choice_of lone_B_on_destination 0%nat
    <> Some (cell (agents lone_B_on_destination 0%nat)).
Proof.
  repeat split; try reflexivity.
  vm_compute. discriminate.
Qed.

(** C10.  On an initialized grid the move method of a TypeB agent raises
    nothing: when the agent has not moved, [shortest_path_between] returns the
    coordinates of a cell of the adjacency list, which the look-up finds; when
    it has moved, [shortest_path_between] is not called at all. *)
Theorem moveB_total (rnd : nat -> nat) (st : Grid) (r : ref) :
  Topology st ->
  on_grid (width st) (height st) (cell (agents st r)) = true ->
  (moved (agents st r) = false ->
     exists coords,
       shortest_path_between st r = Some coords /\
       In coords (adjacent (cells st (cell (agents st r)))) /\
       best_choice_of st r = Some coords) /\
  (moved (agents st r) = true -> moveB rnd st r = Some st) /\
  (exists st', moveB rnd st r = Some st').
Proof.
  intros T Hc.
  assert (Hself := topology_self st _ T Hc).
  assert (H1 : moved (agents st r) = false ->
     exists coords,
       shortest_path_between st r = Some coords /\
       In coords (adjacent (cells st (cell (agents st r)))) /\
       best_choice_of st r = Some coords).
  { intros Hm.
    destruct (shortest_path_between_adjacent st r Hself Hm)
      as (coords & Hsp & Hin & _).
    exists coords. repeat split; try assumption.
    unfold best_choice_of. rewrite Hsp. now apply find_best_choice_in. }
  split; [exact H1 | split].
  - intros Hm. unfold moveB. now rewrite Hm.
  - unfold moveB. destruct (moved (agents st r)) eqn:Hm; [eauto |].
    destruct (H1 eq_refl) as (coords & _ & _ & ->).
    eauto.
Qed.

Lemma moveB_total_witness :
  exists st', moveB draw_zero lone_B_on_destination 0%nat = Some st'.
Proof.
  apply (moveB_total draw_zero lone_B_on_destination 0%nat).
  - apply Topology_scenario.
  - reflexivity.
Defined.

(** C2 at a failing input.  With two arrived TypeA agents next to each other
    in the list, [clean_up] retires the first and steps over the second, which
    a second [clean_up] then retires: the two calls do not leave the same
    lists. *)
Theorem clean_up_skips_next :
  playerAs two_arrived_movers = [0; 1]%nat /\
  arrived PoolA (agents two_arrived_movers 0%nat) = true /\
  arrived PoolA (agents two_arrived_movers 1%nat) = true /\
  playerAs (clean_up two_arrived_movers) = [1%nat] /\
  finishedAs (clean_up two_arrived_movers) = [0%nat] /\
  playerAs (clean_up (clean_up two_arrived_movers)) = [] /\
  finishedAs (clean_up (clean_up two_arrived_movers)) = [0; 1]%nat.
Proof.
  repeat split; vm_compute; reflexivity.
Qed.

(** C3 at a failing input.  No free adjacent cell brings the agent nearer to
    its destination -- the only free one, (0,0), lies further away -- and the
    agent moves there all the same. *)
Theorem moveA_moves_away :
  kind (agents mover_behind_obstacle 0%nat) = TypeA /\
  moved (agents mover_behind_obstacle 0%nat) = false /\
  cell (agents mover_behind_obstacle 0%nat) = (1, 0) /\
  end_ (agents mover_behind_obstacle 0%nat) = (3, 0) /\
  choicesA mover_behind_obstacle 0%nat = [(0, 0)] /\
  norm2 (1, 0) (3, 0) < norm2 (0, 0) (3, 0) /\
  cell (agents (moveA mover_behind_obstacle 0%nat) 0%nat) = (0, 0).
Proof.
  repeat split; vm_compute; reflexivity.
Qed.

(** ** The response to a swap request *)




(** ** The move counter of the TypeC agents *)

Lemma move2_keeps_count (st : Grid) (c r : ref) :
  move_count (agents (move2 st c) r) = move_count (agents st r).
Proof.
  unfold move2, finish, take_best, relocate.
  destruct (moved (agents st c)); [reflexivity |].
  destruct (sorted _) as [| [k ?] ?]; simpl; unfold upd_agent;
    destruct (Nat.eqb_spec r c); subst; rewrite ?Nat.eqb_refl; reflexivity.
Qed.

(** C8 at a failing input.  Two TypeC agents act in idle phases only (turn 50
    of 126), or in random-walk phases only (turn 100 of 126), or in the turns
    0 to 83 of the driver: after the 41st counted action both counters are 41,
    the [clean_up] that follows retires the first agent and steps over the
    second, which stays active with its counter above the cap.  The greedy
    move leaves every counter as it is. *)
Theorem tourist_over_cap_stays_active :
  (move_count (agents (phasesC draw_zero keep_order 40 50 126 two_tourists)
                      1%nat) = 40%nat /\
   move_count (agents (phasesC draw_zero keep_order 41 50 126 two_tourists)
                      1%nat) = 41%nat /\
   playerCs (phasesC draw_zero keep_order 41 50 126 two_tourists) = [1%nat] /\
   finishedCs (phasesC draw_zero keep_order 41 50 126 two_tourists)
     = [0%nat]) /\
  (move_count (agents (phasesC draw_zero keep_order 41 100 126 two_tourists)
                      1%nat) = 41%nat /\
   playerCs (phasesC draw_zero keep_order 41 100 126 two_tourists)
     = [1%nat]) /\
  (exists st,
     play_turns draw_zero keep_order (seq 0 84) 126 two_tourists = Some st /\
     move_count (agents st 1%nat) = 41%nat /\
     playerCs st = [1%nat] /\ finishedCs st = [0%nat]) /\
  (forall st c r,
     move_count (agents (move2 st c) r) = move_count (agents st r)).
Proof.
  split; [| split; [| split]].
  - repeat split; vm_compute; reflexivity.
  - repeat split; vm_compute; reflexivity.
  - destruct (play_turns draw_zero keep_order (seq 0 84) 126 two_tourists)
      as [st |] eqn:E.
    + exists st. split; [reflexivity |].
      assert (H : option_map (fun s => (move_count (agents s 1%nat),
                                        playerCs s, finishedCs s))
                    (play_turns draw_zero keep_order (seq 0 84) 126
                                two_tourists)
                  = Some (41%nat, [1%nat], [0%nat]))
        by (vm_compute; reflexivity).
      rewrite E in H. simpl in H. inversion H. auto.
    + assert (H : is_some (play_turns draw_zero keep_order (seq 0 84) 126
                                      two_tourists) = true)
        by (vm_compute; reflexivity).
      rewrite E in H. discriminate.
  - exact move2_keeps_count.
Qed.

(** ** What the operations leave alone *)

Ltac break_eqb :=
  repeat match goal with
         | |- context [Nat.eqb ?a ?b] => destruct (Nat.eqb_spec a b); subst
         | |- context [loc_eqb ?a ?b] => destruct (loc_eqb_spec a b); subst
         end.

Ltac store_simpl :=
  simpl; unfold upd_agent, upd_cell; simpl;
  repeat (progress (break_eqb; simpl)).

Ltac evolves_by_computation :=
  unfold evolves, same_frame;
  repeat match goal with |- _ /\ _ => split end;
  intros;
  repeat match goal with k : Pool |- _ => destruct k end;
  store_simpl;
  try reflexivity; try assumption; try tauto;
  simpl in *; repeat split; try congruence; try contradiction.

Lemma evolves_refl (st : Grid) : evolves st st.
Proof. evolves_by_computation. Qed.

Lemma evolves_trans (st1 st2 st3 : Grid) :
  evolves st1 st2 -> evolves st2 st3 -> evolves st1 st3.
Proof.
  intros (I1 & N1 & D1 & K1 & O1 & F1) (I2 & N2 & D2 & K2 & O2 & F2).
  unfold evolves. repeat match goal with |- _ /\ _ => split end.
  - intros k r H. auto.
  - intros k H. auto.
  - congruence.
  - intros r. destruct (K1 r), (K2 r). split; congruence.
  - intros d H. rewrite O2, O1; auto. destruct (K1 d). congruence.
  - eapply same_frame_trans; eauto.
Qed.

Lemma evolves_relocate (st : Grid) (r : ref) (c : loc) :
  kind (agents st r) <> TypeD -> evolves st (relocate st r c).
Proof. intros Hk. unfold relocate. evolves_by_computation. Qed.

Lemma evolves_finish (st : Grid) (r : ref) (start : loc) :
  evolves st (finish st r start).
Proof. unfold finish. evolves_by_computation. Qed.

Lemma evolves_moveA (st : Grid) (r : ref) :
  kind (agents st r) <> TypeD -> evolves st (moveA st r).
Proof.
  intros Hk. unfold moveA.
  destruct (moved (agents st r)); [apply evolves_refl |].
  eapply evolves_trans; [| apply evolves_finish].
  unfold take_best. destruct (sorted _) as [| [c ?] ?].
  - apply evolves_refl.
  - now apply evolves_relocate.
Qed.

Lemma symbol_D (a : Agent) :
  String.eqb (symbol a) "D" = true <-> kind a = TypeD.
Proof.
  unfold symbol. destruct (kind a); simpl; split; intros H;
    try discriminate; reflexivity.
Qed.

Lemma evolves_swap (st : Grid) (r p : ref) (best_choice : loc) :
  kind (agents st r) <> TypeD -> kind (agents st p) <> TypeD ->
  evolves st (swap st r best_choice p).
Proof. intros Hr Hp. unfold swap. evolves_by_computation. Qed.

Lemma evolves_set_moved (st : Grid) (r : ref) (b : bool) :
  evolves st (set_agent st r (set_moved (agents st r) b)).
Proof. evolves_by_computation. Qed.

Lemma evolves_with_draws (st : Grid) (n : nat) : evolves st (with_draws st n).
Proof. evolves_by_computation. Qed.

Lemma evolves_with_turn (st : Grid) (n : nat) : evolves st (with_turn st n).
Proof. evolves_by_computation. Qed.

Lemma evolves_check_swap (rnd : nat -> nat) (st : Grid) (p : ref) (c : loc) :
  evolves st (snd (check_swap rnd st p c)).
Proof.
  unfold check_swap, check_swapA, check_swapB, check_swapC, check_swapD.
  destruct (kind (agents st p));
    try match goal with
        | |- context [if ?b then _ else _] => destruct b
        end; simpl;
    first [apply evolves_refl | apply evolves_set_moved
          | apply evolves_with_draws].
Qed.

Lemma evolves_moveB (rnd : nat -> nat) (st st' : Grid) (r : ref) :
  kind (agents st r) <> TypeD -> moveB rnd st r = Some st' -> evolves st st'.
Proof.
  intros Hk. unfold moveB.
  destruct (moved (agents st r)).
  { intros H; inversion H. apply evolves_refl. }
  destruct (best_choice_of st r) as [bc |]; [| discriminate].
  intros H; inversion H; subst; clear H.
  eapply evolves_trans; [| apply evolves_finish].
  destruct (occupant (cells st bc)) as [p |].
  - assert (E := evolves_check_swap rnd st p (cell (agents st r))).
    destruct (check_swap rnd st p (cell (agents st r))) as [ok st1].
    simpl in E.
    destruct ok; simpl; [| exact E].
    destruct (String.eqb (symbol (agents st1 p)) "D") eqn:Ed; simpl;
      [exact E |].
    eapply evolves_trans; [exact E |].
    destruct E as (_ & _ & _ & K & _).
    apply evolves_swap.
    + destruct (K r) as [-> _]. exact Hk.
    + intros Hd. apply symbol_D in Hd. congruence.
  - now apply evolves_relocate.
Qed.

Lemma evolves_move1 (rnd : nat -> nat) (st : Grid) (r : ref) :
  kind (agents st r) <> TypeD -> evolves st (move1 rnd st r).
Proof.
  intros Hk. unfold move1.
  destruct (filter _ _) as [| c0 cs].
  - evolves_by_computation.
  - set (c := nth _ _ _). clearbody c. unfold relocate.
    evolves_by_computation.
Qed.

Lemma evolves_move2 (st : Grid) (r : ref) :
  kind (agents st r) <> TypeD -> evolves st (move2 st r).
Proof.
  intros Hk. unfold move2.
  destruct (moved (agents st r)); [apply evolves_refl |].
  eapply evolves_trans; [| apply evolves_finish].
  unfold take_best. destruct (sorted _) as [| [c ?] ?].
  - apply evolves_refl.
  - now apply evolves_relocate.
Qed.

Lemma evolves_move3 (st : Grid) (r : ref) : evolves st (move3 st r).
Proof. unfold move3. evolves_by_computation. Qed.

Lemma evolves_moveC (rnd : nat -> nat) (t Nturn : nat) (st : Grid) (r : ref) :
  kind (agents st r) <> TypeD -> evolves st (moveC rnd t Nturn st r).
Proof.
  intros Hk. unfold moveC.
  repeat match goal with
         | |- context [if ?b then _ else _] => destruct b
         end;
    auto using evolves_move1, evolves_move2, evolves_move3, evolves_refl.
Qed.

Lemma evolves_reset (st : Grid) (r : ref) : evolves st (reset st r).
Proof. apply evolves_set_moved. Qed.

(** ** Removing from a list *)

Lemma in_remove_first (a x : ref) (l : list ref) :
  In x (remove_first a l) -> In x l.
Proof.
  induction l as [| y l IH]; simpl; [tauto |].
  destruct (Nat.eqb_spec y a); simpl; intuition.
Qed.

Lemma NoDup_remove_first (a : ref) (l : list ref) :
  NoDup l -> NoDup (remove_first a l).
Proof.
  induction 1 as [| y l Hy Hl IH]; simpl; [constructor |].
  destruct (Nat.eqb_spec y a); [assumption |].
  constructor; [| assumption].
  intros Hin. apply Hy. eapply in_remove_first; eauto.
Qed.

Lemma not_in_remove_first (a : ref) (l : list ref) :
  NoDup l -> ~ In a (remove_first a l).
Proof.
  induction 1 as [| y l Hy Hl IH]; simpl; [tauto |].
  destruct (Nat.eqb_spec y a); subst; [assumption |].
  simpl. intuition.
Qed.

Lemma length_remove_first (a : ref) (l : list ref) :
  (List.length (remove_first a l) <= List.length l)%nat.
Proof.
  induction l as [| y l IH]; simpl; [lia |].
  destruct (Nat.eqb_spec y a); simpl; lia.
Qed.

(** ** [clean_up] *)

Lemma evolves_clean_body (k : Pool) (st : Grid) (a : ref) :
  evolves st (clean_body k st a).
Proof.
  unfold clean_body. destruct (arrived k (agents st a));
    [| apply evolves_refl].
  unfold evolves, same_frame.
  split; [| split; [| split; [| split; [| split; [| split; [| split]]]]]].
  - intros k' r. destruct k, k'; simpl; intros H;
      try apply in_remove_first in H; exact H.
  - intros k'. destruct k, k'; simpl; intros H;
      try apply NoDup_remove_first; exact H.
  - destruct k; reflexivity.
  - intros r. destruct k; auto.
  - intros d _. destruct k; reflexivity.
  - destruct k; reflexivity.
  - destruct k; reflexivity.
  - intros l. destruct k; store_simpl; auto.
Qed.

(** Whatever each pass of the loop body keeps, the loop keeps. *)
Lemma clean_loop_keeps (P : Grid -> Prop) (k : Pool) :
  (forall st a, In a (players k st) -> P st -> P (clean_body k st a)) ->
  forall fuel i st, P st -> P (clean_loop k fuel i st).
Proof.
  intros Hbody. induction fuel as [| fuel IH]; intros i st H; simpl.
  - assumption.
  - destruct (nth_error (players k st) i) as [a |] eqn:E; [| assumption].
    apply IH, Hbody; [| assumption].
    eapply nth_error_In; eauto.
Qed.

Lemma clean_up_keeps (P : Grid -> Prop) :
  (forall k st a, In a (players k st) -> P st -> P (clean_body k st a)) ->
  forall st, P st -> P (clean_up st).
Proof.
  intros Hbody st H. unfold clean_up, clean_pool.
  repeat apply clean_loop_keeps; auto.
Qed.

Lemma evolves_clean_up (st : Grid) : evolves st (clean_up st).
Proof.
  apply (clean_up_keeps (evolves st)); [| apply evolves_refl].
  intros k s a _ H. eapply evolves_trans; [exact H |].
  apply evolves_clean_body.
Qed.

(** ** Loops over a list of agents *)

Lemma fold_left_keeps {A} (P : Grid -> Prop) (f : Grid -> A -> Grid)
      (l : list A) :
  (forall s a, In a l -> P s -> P (f s a)) ->
  forall st, P st -> P (fold_left f l st).
Proof.
  induction l as [| x l IH]; intros Hf st H; simpl; [assumption |].
  apply IH.
  - intros s a Ha. apply Hf. now right.
  - apply Hf; [now left | assumption].
Qed.

Lemma move_all_B_keeps (P : Grid -> Prop) (rnd : nat -> nat) (l : list ref) :
  (forall s s' b, In b l -> P s -> moveB rnd s b = Some s' -> P s') ->
  forall st st', P st -> move_all_B rnd l st = Some st' -> P st'.
Proof.
  induction l as [| x l IH]; intros Hf st st' H; simpl.
  - intros E; inversion E; subst; assumption.
  - destruct (moveB rnd st x) as [s1 |] eqn:E; [| discriminate].
    apply IH.
    + intros s s' b Hb. apply Hf. now right.
    + eapply Hf; eauto. now left.
Qed.

Lemma play_turns_keeps (P : Grid -> Prop) (rnd : nat -> nat)
      (shuffle : nat -> list ref -> list ref) (Nturn : nat) (l : list nat) :
  (forall s s' i, P s -> play_turn rnd shuffle s i Nturn = Some s' -> P s') ->
  forall st st', P st -> play_turns rnd shuffle l Nturn st = Some st' -> P st'.
Proof.
  intros Hf. induction l as [| x l IH]; intros st st' H; simpl.
  - intros E; inversion E; subst; assumption.
  - destruct (play_turn rnd shuffle st x Nturn) as [s1 |] eqn:E;
      [| discriminate].
    apply IH. eapply Hf; eauto.
Qed.

(** ** Well-formed lists along a run *)

Lemma WF_evolves (st st' : Grid) : evolves st st' -> WF st -> WF st'.
Proof.
  intros (I & N & D & K & _ & _) (NA & NB & NC & T).
  split; [apply (N PoolA NA) | split; [apply (N PoolB NB) |
  split; [apply (N PoolC NC) |]]].
  intros r. destruct (T r) as (TA & TB & TC & TD), (K r) as [-> _].
  repeat split; intros H.
  - apply TA, (I PoolA r H).
  - apply TB, (I PoolB r H).
  - apply TC, (I PoolC r H).
  - apply TD. now rewrite <- D.
Qed.

Lemma WF_kind_player (st : Grid) (k : Pool) (r : ref) :
  WF st -> In r (players k st) -> kind (agents st r) <> TypeD.
Proof.
  intros (_ & _ & _ & T) H. destruct (T r) as (TA & TB & TC & _).
  destruct k; simpl in H;
    [rewrite (TA H) | rewrite (TB H) | rewrite (TC H)]; discriminate.
Qed.

Lemma evolves_kind (st st' : Grid) (r : ref) :
  evolves st st' -> kind (agents st' r) = kind (agents st r).
Proof. intros (_ & _ & _ & K & _). apply K. Qed.

(** A loop that lets every agent of an active list move. *)
Lemma evolves_fold_players (f : Grid -> ref -> Grid) (k : Pool) (st : Grid) :
  (forall s r, kind (agents s r) <> TypeD -> evolves s (f s r)) ->
  WF st -> evolves st (fold_left f (players k st) st).
Proof.
  intros Hf W.
  apply (fold_left_keeps (evolves st)); [| apply evolves_refl].
  intros s a Ha E. eapply evolves_trans; [exact E |].
  apply Hf. rewrite (evolves_kind st s a E).
  eapply WF_kind_player; eauto.
Qed.

Section Turns.

Variable rnd : nat -> nat.
Variable shuffle : nat -> list ref -> list ref.

(** [random.shuffle] reorders the list it is given. *)
Hypothesis shuffle_permutes : forall n l, Permutation (shuffle n l) l.

Lemma evolves_shuffle_players (k : Pool) (st : Grid) :
  evolves st (shuffle_players shuffle k st).
Proof.
  unfold evolves, same_frame.
  split; [| split; [| split; [| split; [| split; [| split; [| split]]]]]];
    try (destruct k; simpl; auto; fail).
  - intros k' r. destruct k, k'; simpl; intros H; try exact H;
      eapply Permutation_in; eauto.
  - intros k'. destruct k, k'; simpl; intros H; try exact H;
      (eapply Permutation_NoDup; [apply Permutation_sym |]; eauto).
Qed.

Lemma evolves_phaseA (st : Grid) : WF st -> evolves st (phaseA shuffle st).
Proof.
  intros W. unfold phaseA.
  assert (E1 := evolves_shuffle_players PoolA st).
  assert (W1 := WF_evolves _ _ E1 W).
  assert (E2 := evolves_fold_players moveA PoolA _ evolves_moveA W1).
  simpl in E2.
  eapply evolves_trans; [| apply evolves_clean_up].
  eapply evolves_trans; [| apply evolves_shuffle_players].
  eapply evolves_trans; eauto.
Qed.

End Turns.

(** ** One agent per cell *)

Lemma occupancy_Inv (st : Grid) : occupancy st -> Inv st.
Proof.
  intros H. split; [| assumption].
  intros r1 r2 H1 H2 E.
  apply H in H1, H2. rewrite E in H1. congruence.
Qed.

Lemma Inv_same_board (st st' : Grid) : same_board st st' -> Inv st -> Inv st'.
Proof.
  intros (B & O & C) [_ H]. apply occupancy_Inv.
  intros r Hr. rewrite O, C. apply H, B, Hr.
Qed.

Lemma same_board_refl (st : Grid) : same_board st st.
Proof. unfold same_board; intuition. Qed.

Lemma same_board_trans (st1 st2 st3 : Grid) :
  same_board st1 st2 -> same_board st2 st3 -> same_board st1 st3.
Proof.
  intros (B1 & O1 & C1) (B2 & O2 & C2).
  split; [| split].
  - intros r. now rewrite B2, B1.
  - intros l. now rewrite O2, O1.
  - intros r. now rewrite C2, C1.
Qed.

Ltac same_board_by_computation :=
  unfold same_board, on_board, active;
  repeat match goal with |- _ /\ _ => split end;
  intros; store_simpl; try reflexivity; try assumption; try tauto.

Lemma same_board_finish (st : Grid) (r : ref) (start : loc) :
  same_board st (finish st r start).
Proof. unfold finish. same_board_by_computation. Qed.

Lemma same_board_set_moved (st : Grid) (r : ref) (b : bool) :
  same_board st (set_agent st r (set_moved (agents st r) b)).
Proof. same_board_by_computation. Qed.

Lemma same_board_counted (st : Grid) (r : ref) :
  same_board st (set_agent st r (incr_move_count (agents st r))).
Proof. same_board_by_computation. Qed.

Lemma same_board_logged (st : Grid) (r : ref) (m : loc * loc) :
  same_board st (set_agent st r (append_move (agents st r) m)).
Proof. same_board_by_computation. Qed.

Lemma same_board_with_draws (st : Grid) (n : nat) :
  same_board st (with_draws st n).
Proof. same_board_by_computation. Qed.

Lemma same_board_with_turn (st : Grid) (n : nat) :
  same_board st (with_turn st n).
Proof. same_board_by_computation. Qed.

Lemma same_board_check_swap (rnd : nat -> nat) (st : Grid) (p : ref) (c : loc) :
  same_board st (snd (check_swap rnd st p c)).
Proof.
  unfold check_swap, check_swapA, check_swapB, check_swapC, check_swapD.
  destruct (kind (agents st p));
    try match goal with
        | |- context [if ?b then _ else _] => destruct b
        end; simpl;
    first [apply same_board_refl | apply same_board_set_moved
          | apply same_board_with_draws].
Qed.

Lemma relocate_Inv (st : Grid) (r : ref) (c : loc) :
  Inv st -> on_board st r -> occupant (cells st c) = None ->
  Inv (relocate st r c).
Proof.
  intros [_ H] Hr Hc. apply occupancy_Inv.
  intros r' Hr'. change (on_board st r') in Hr'.
  assert (Or := H r Hr). assert (Or' := H r' Hr').
  unfold relocate. store_simpl; simpl in *; congruence.
Qed.

Lemma swap_Inv (st : Grid) (r p : ref) (best_choice : loc) :
  Inv st -> on_board st r -> occupant (cells st best_choice) = Some p ->
  Inv (swap st r best_choice p).
Proof.
  intros [_ H] Hr Hp. apply occupancy_Inv.
  intros r' Hr'. change (on_board st r') in Hr'.
  assert (Or := H r Hr). assert (Or' := H r' Hr').
  unfold swap. store_simpl; simpl in *; congruence.
Qed.

Lemma unoccupied (o : option ref) : negb (is_some o) = true -> o = None.
Proof. destruct o; simpl; [discriminate | reflexivity]. Qed.

Lemma take_best_Inv (st : Grid) (r : ref) (des : loc) (l : list loc) :
  Inv st -> on_board st r ->
  (forall c, In c l -> occupant (cells st c) = None) ->
  Inv (take_best st r (sorted (choice_pairs des l))).
Proof.
  intros HI Hr Hl. unfold take_best.
  destruct (sorted (choice_pairs des l)) as [| [c k] rest] eqn:E;
    [assumption |].
  apply relocate_Inv; try assumption.
  apply Hl. eapply sorted_head_in; eauto.
Qed.

Lemma moveA_Inv (st : Grid) (r : ref) :
  Inv st -> on_board st r -> Inv (moveA st r).
Proof.
  intros HI Hr. unfold moveA.
  destruct (moved (agents st r)); [assumption |].
  eapply Inv_same_board; [apply same_board_finish |].
  apply take_best_Inv; try assumption.
  intros c Hc. unfold choicesA in Hc. apply filter_In in Hc.
  destruct Hc as [_ Hc]. rewrite !andb_true_iff in Hc.
  apply unoccupied. tauto.
Qed.

Lemma move2_Inv (st : Grid) (r : ref) :
  Inv st -> on_board st r -> Inv (move2 st r).
Proof.
  intros HI Hr. unfold move2.
  destruct (moved (agents st r)); [assumption |].
  eapply Inv_same_board; [apply same_board_finish |].
  apply take_best_Inv; try assumption.
  intros c Hc. unfold choicesC2 in Hc. apply filter_In in Hc.
  destruct Hc as [_ Hc]. rewrite !andb_true_iff in Hc.
  apply unoccupied. tauto.
Qed.

Lemma move3_Inv (st : Grid) (r : ref) : Inv st -> Inv (move3 st r).
Proof.
  intros HI. unfold move3.
  eapply Inv_same_board; [| exact HI].
  eapply same_board_trans; [apply same_board_logged |].
  apply same_board_counted.
Qed.

Lemma move1_Inv (rnd : nat -> nat) (st : Grid) (r : ref) :
  Inv st -> on_board st r -> Inv (move1 rnd st r).
Proof.
  intros HI Hr. unfold move1.
  eapply Inv_same_board; [apply same_board_counted |].
  destruct (filter _ _) as [| c0 cs] eqn:E; [assumption |].
  eapply Inv_same_board; [apply same_board_logged |].
  set (c := nth _ _ _).
  assert (Hc : In c (c0 :: cs)).
  { apply nth_In. apply Nat.mod_upper_bound. simpl. discriminate. }
  rewrite <- E in Hc. apply filter_In in Hc. destruct Hc as [_ Hc].
  apply unoccupied in Hc.
  apply relocate_Inv.
  - eapply Inv_same_board; [apply same_board_with_draws | assumption].
  - exact Hr.
  - exact Hc.
Qed.

Lemma moveB_Inv (rnd : nat -> nat) (st st' : Grid) (r : ref) :
  Inv st -> on_board st r -> moveB rnd st r = Some st' -> Inv st'.
Proof.
  intros HI Hr. unfold moveB.
  destruct (moved (agents st r)).
  { intros H; inversion H; subst; assumption. }
  destruct (best_choice_of st r) as [bc |]; [| discriminate].
  intros H; inversion H; subst; clear H.
  eapply Inv_same_board; [apply same_board_finish |].
  destruct (occupant (cells st bc)) as [p |] eqn:Ep.
  - assert (B := same_board_check_swap rnd st p (cell (agents st r))).
    destruct (check_swap rnd st p (cell (agents st r))) as [ok st1].
    simpl in B.
    assert (HI1 : Inv st1) by (eapply Inv_same_board; eauto).
    destruct (ok && negb (String.eqb (symbol (agents st1 p)) "D"));
      [| assumption].
    destruct B as (B & O & _).
    apply swap_Inv; [assumption | now apply B | now rewrite O].
  - now apply relocate_Inv.
Qed.

Lemma reset_Inv (st : Grid) (r : ref) : Inv st -> Inv (reset st r).
Proof. apply Inv_same_board, same_board_set_moved. Qed.

(** An agent sits in one list only. *)
Lemma WF_one_list (st : Grid) (k k' : Pool) (a : ref) :
  WF st -> In a (players k st) -> In a (players k' st) -> k = k'.
Proof.
  intros (_ & _ & _ & T) H H'. destruct (T a) as (TA & TB & TC & _).
  destruct k, k'; simpl in H, H'; try reflexivity;
    repeat match goal with
           | F : In a ?l -> _, G : In a ?l |- _ => specialize (F G)
           end; congruence.
Qed.

Lemma WF_not_obstacle (st : Grid) (k : Pool) (a : ref) :
  WF st -> In a (players k st) -> ~ In a (playerDs st).
Proof.
  intros W H HD. apply (WF_kind_player st k a W H).
  destruct W as (_ & _ & _ & T). destruct (T a) as (_ & _ & _ & TD). auto.
Qed.

Lemma WF_NoDup (st : Grid) (k : Pool) : WF st -> NoDup (players k st).
Proof. intros (NA & NB & NC & _). destruct k; assumption. Qed.

Lemma on_board_players (st : Grid) (k : Pool) (a : ref) :
  In a (players k st) -> on_board st a.
Proof. unfold on_board, active. destruct k; simpl; tauto. Qed.

(** After a retirement the board holds the agents it held, less the one
    retired. *)
Lemma on_board_retired (k : Pool) (st : Grid) (a r : ref) (l : loc) :
  WF st -> In a (players k st) ->
  on_board (retire_from k (set_occupant st l None) a) r ->
  on_board st r /\ r <> a.
Proof.
  intros W Ha Hr.
  assert (Hnot : ~ In a (remove_first a (players k st)))
    by (apply not_in_remove_first, WF_NoDup, W).
  assert (HD := WF_not_obstacle st k a W Ha).
  assert (Hone := fun k' => WF_one_list st k k' a W Ha).
  split.
  - unfold on_board, active in *.
    destruct k; simpl in *; intuition eauto using in_remove_first.
  - intros ->. unfold on_board, active in Hr.
    destruct k; simpl in *;
      (destruct Hr as [[Hr | [Hr | Hr]] | Hr];
       [ first [contradiction | discriminate (Hone PoolA Hr)]
       | first [contradiction | discriminate (Hone PoolB Hr)]
       | first [contradiction | discriminate (Hone PoolC Hr)]
       | contradiction ]).
Qed.

Lemma clean_body_Inv (k : Pool) (st : Grid) (a : ref) :
  WF st -> In a (players k st) -> Inv st -> Inv (clean_body k st a).
Proof.
  intros W Ha [_ H]. unfold clean_body.
  destruct (arrived k (agents st a)); [| now apply occupancy_Inv].
  apply occupancy_Inv. intros r Hr.
  destruct (on_board_retired k st a r _ W Ha Hr) as [Hb Hne].
  assert (Oa := H a (on_board_players st k a Ha)).
  assert (Or := H r Hb).
  destruct k; store_simpl; congruence.
Qed.

Lemma clean_body_Good (k : Pool) (st : Grid) (a : ref) :
  In a (players k st) -> Good st -> Good (clean_body k st a).
Proof.
  intros Ha [W HI]. split.
  - eapply WF_evolves; [apply evolves_clean_body | assumption].
  - now apply clean_body_Inv.
Qed.

Lemma clean_up_Good (st : Grid) : Good st -> Good (clean_up st).
Proof. apply clean_up_keeps. intros k s a. apply clean_body_Good. Qed.

(** ** The lists during the moves *)

Ltac same_pools_by_computation :=
  unfold same_pools; split; [intros [] |]; reflexivity.

Lemma same_pools_refl (st : Grid) : same_pools st st.
Proof. same_pools_by_computation. Qed.

Lemma same_pools_moveA (st : Grid) (r : ref) : same_pools st (moveA st r).
Proof.
  unfold moveA, take_best. destruct (moved (agents st r));
    [apply same_pools_refl |].
  destruct (sorted _) as [| [c ?] ?]; same_pools_by_computation.
Qed.

Lemma same_pools_move2 (st : Grid) (r : ref) : same_pools st (move2 st r).
Proof.
  unfold move2, take_best. destruct (moved (agents st r));
    [apply same_pools_refl |].
  destruct (sorted _) as [| [c ?] ?]; same_pools_by_computation.
Qed.

Lemma same_pools_move3 (st : Grid) (r : ref) : same_pools st (move3 st r).
Proof. same_pools_by_computation. Qed.

Lemma same_pools_move1 (rnd : nat -> nat) (st : Grid) (r : ref) :
  same_pools st (move1 rnd st r).
Proof.
  unfold move1. destruct (filter _ _); same_pools_by_computation.
Qed.

Lemma same_pools_moveC (rnd : nat -> nat) (t Nturn : nat) (st : Grid)
      (r : ref) :
  same_pools st (moveC rnd t Nturn st r).
Proof.
  unfold moveC.
  repeat match goal with
         | |- context [if ?b then _ else _] => destruct b
         end;
    auto using same_pools_move1, same_pools_move2, same_pools_move3,
               same_pools_refl.
Qed.

Lemma same_pools_check_swap (rnd : nat -> nat) (st : Grid) (p : ref)
      (c : loc) :
  same_pools st (snd (check_swap rnd st p c)).
Proof.
  unfold check_swap, check_swapA, check_swapB, check_swapC, check_swapD.
  destruct (kind (agents st p));
    try match goal with
        | |- context [if ?b then _ else _] => destruct b
        end; same_pools_by_computation.
Qed.

Lemma same_pools_moveB (rnd : nat -> nat) (st st' : Grid) (r : ref) :
  moveB rnd st r = Some st' -> same_pools st st'.
Proof.
  unfold moveB.
  destruct (moved (agents st r)).
  { intros H; inversion H. apply same_pools_refl. }
  destruct (best_choice_of st r) as [bc |]; [| discriminate].
  intros H; inversion H; subst; clear H.
  destruct (occupant (cells st bc)) as [p |].
  - assert (E := same_pools_check_swap rnd st p (cell (agents st r))).
    destruct (check_swap rnd st p (cell (agents st r))) as [ok st1].
    destruct E as [E1 E2]. simpl in E1, E2.
    destruct (ok && negb (String.eqb (symbol (agents st1 p)) "D"));
      (split; [intros k; rewrite <- E1; destruct k; reflexivity
              | rewrite <- E2; reflexivity]).
  - same_pools_by_computation.
Qed.

Lemma same_pools_reset (st : Grid) (r : ref) : same_pools st (reset st r).
Proof. same_pools_by_computation. Qed.

(** ** A turn is a sequence of operations *)

Section Reaching.

Variable rnd : nat -> nat.
Variable shuffle : nat -> list ref -> list ref.

Local Abbreviation operation := (operation rnd shuffle).
Local Abbreviation reaches := (reaches rnd shuffle).

Lemma reaches_one (st st' : Grid) : operation st st' -> reaches st st'.
Proof. intros H. eapply reaches_next; [apply reaches_here | exact H]. Qed.

Lemma reaches_trans (st1 st2 st3 : Grid) :
  reaches st1 st2 -> reaches st2 st3 -> reaches st1 st3.
Proof.
  intros H12 H23. induction H23 as [| s2 s3 s4 _ IH Hop]; [assumption |].
  eapply reaches_next; [apply IH, H12 | exact Hop].
Qed.

(** What every operation keeps holds in every state reached. *)
Lemma reaches_keeps (P : Grid -> Prop) :
  (forall s s', P s -> operation s s' -> P s') ->
  forall st st', P st -> reaches st st' -> P st'.
Proof.
  intros Hop st st' H R. induction R as [| s1 s2 s3 _ IH Hs]; eauto.
Qed.

Lemma reaches_fold_players (f : Grid -> ref -> Grid) (k : Pool) (st : Grid) :
  (forall s a, In a (players k s) -> reaches s (f s a)) ->
  (forall s a, same_pools s (f s a)) ->
  reaches st (fold_left f (players k st) st).
Proof.
  intros Hop Hpools.
  assert (H : reaches st (fold_left f (players k st) st) /\
              players k (fold_left f (players k st) st) = players k st).
  { apply (fold_left_keeps
             (fun s => reaches st s /\ players k s = players k st)).
    - intros s a Ha [R E]. split.
      + eapply reaches_trans; [exact R |]. apply Hop. now rewrite E.
      + destruct (Hpools s a) as [-> _]. exact E.
    - split; [apply reaches_here | reflexivity]. }
  tauto.
Qed.

Lemma reaches_moveC (t Nturn : nat) (st : Grid) (c : ref) :
  In c (playerCs st) -> reaches st (moveC rnd t Nturn st c).
Proof.
  intros Hc. unfold moveC.
  repeat match goal with
         | |- context [if ?b then _ else _] => destruct b
         end;
    first [apply reaches_here | apply reaches_one; now constructor].
Qed.

Lemma reaches_move_all_B (st st' : Grid) :
  move_all_B rnd (playerBs st) st = Some st' -> reaches st st'.
Proof.
  intros H.
  assert (G : reaches st st' /\ playerBs st' = playerBs st).
  { apply (move_all_B_keeps
             (fun s => reaches st s /\ playerBs s = playerBs st)
             rnd (playerBs st)) with (st := st); [| | exact H].
    - intros s s' b Hb [R E] Hm. split.
      + eapply reaches_next; [exact R |].
        apply op_moveB with (b := b); [now rewrite E | exact Hm].
      + destruct (same_pools_moveB rnd s s' b Hm) as [P _].
        specialize (P PoolB). simpl in P. congruence.
    - split; [apply reaches_here | reflexivity]. }
  tauto.
Qed.

Lemma reaches_reset_all (st : Grid) : reaches st (reset_all st).
Proof.
  assert (R : forall k s, reaches s (fold_left reset (players k s) s)).
  { intros k s. apply reaches_fold_players.
    - intros s' a Ha. apply reaches_one, op_reset.
      unfold active. destruct k; simpl in Ha; tauto.
    - intros s' a. apply same_pools_reset. }
  unfold reset_all.
  eapply reaches_trans; [apply (R PoolA) |].
  eapply reaches_trans; [apply (R PoolB) |].
  apply (R PoolC).
Qed.

Lemma reaches_phaseA (st : Grid) : reaches st (phaseA shuffle st).
Proof.
  unfold phaseA.
  eapply reaches_next; [| apply op_clean_up].
  eapply reaches_next; [| apply op_shuffle].
  eapply reaches_trans; [apply reaches_one, (op_shuffle _ _ PoolA) |].
  apply (reaches_fold_players moveA PoolA).
  - intros s a Ha. apply reaches_one, op_moveA, Ha.
  - intros s a. apply same_pools_moveA.
Qed.

Lemma reaches_phaseC (t Nturn : nat) (st : Grid) :
  reaches st (phaseC rnd shuffle t Nturn st).
Proof.
  unfold phaseC.
  eapply reaches_next; [| apply op_clean_up].
  eapply reaches_trans; [apply reaches_one, (op_shuffle _ _ PoolC) |].
  apply (reaches_fold_players (moveC rnd t Nturn) PoolC).
  - intros s a Ha. now apply reaches_moveC.
  - intros s a. apply same_pools_moveC.
Qed.

Lemma reaches_play_turn (st st' : Grid) (t Nturn : nat) :
  play_turn rnd shuffle st t Nturn = Some st' -> reaches st st'.
Proof.
  unfold play_turn.
  destruct (move_all_B rnd (playerBs (phaseA shuffle st)) (phaseA shuffle st))
    as [st2 |] eqn:EB; [| discriminate].
  intros H; inversion H; subst; clear H.
  eapply reaches_next; [| apply op_turn].
  eapply reaches_trans; [| apply reaches_reset_all].
  eapply reaches_trans; [| apply reaches_phaseC].
  eapply reaches_next; [| apply op_clean_up].
  eapply reaches_trans; [apply reaches_phaseA |].
  now apply reaches_move_all_B.
Qed.

Lemma reaches_play_turns (l : list nat) (Nturn : nat) (st st' : Grid) :
  play_turns rnd shuffle l Nturn st = Some st' -> reaches st st'.
Proof.
  apply (play_turns_keeps (reaches st)); [| apply reaches_here].
  intros s s' i R H. eapply reaches_trans; [exact R |].
  eapply reaches_play_turn; eauto.
Qed.

End Reaching.

(** ** The invariant along a run *)

Section Invariant.

Variable rnd : nat -> nat.
Variable shuffle : nat -> list ref -> list ref.
Hypothesis shuffle_permutes : forall n l, Permutation (shuffle n l) l.

Lemma same_board_shuffle_players (k : Pool) (st : Grid) :
  same_board st (shuffle_players shuffle k st).
Proof.
  unfold same_board. split; [| split; destruct k; reflexivity].
  intros r. unfold on_board, active.
  assert (P : forall l, In r (shuffle (draws st) l) <-> In r l).
  { intros l. split; apply Permutation_in;
      [| apply Permutation_sym]; apply shuffle_permutes. }
  destruct k; simpl; rewrite P; tauto.
Qed.

Lemma operation_Good (st st' : Grid) :
  Good st -> operation rnd shuffle st st' -> Good st'.
Proof.
  intros [W HI] Hop.
  destruct Hop as [k st | st a Ha | st st' b Hb Hm | st c Hc | st c Hc
                  | st c Hc | st | st r Hr | st].
  - split.
    + eapply WF_evolves; [now apply evolves_shuffle_players | assumption].
    + eapply Inv_same_board; [apply same_board_shuffle_players | assumption].
  - split.
    + eapply WF_evolves; [| exact W].
      apply evolves_moveA, (WF_kind_player st PoolA a W Ha).
    + apply moveA_Inv; [assumption |].
      apply (on_board_players st PoolA a Ha).
  - split.
    + eapply WF_evolves; [| exact W].
      eapply evolves_moveB; [| exact Hm].
      apply (WF_kind_player st PoolB b W Hb).
    + eapply moveB_Inv; [exact HI | | exact Hm].
      apply (on_board_players st PoolB b Hb).
  - split.
    + eapply WF_evolves; [| exact W].
      apply evolves_move1, (WF_kind_player st PoolC c W Hc).
    + apply move1_Inv; [assumption |].
      apply (on_board_players st PoolC c Hc).
  - split.
    + eapply WF_evolves; [| exact W].
      apply evolves_move2, (WF_kind_player st PoolC c W Hc).
    + apply move2_Inv; [assumption |].
      apply (on_board_players st PoolC c Hc).
  - split.
    + eapply WF_evolves; [apply evolves_move3 | exact W].
    + now apply move3_Inv.
  - apply clean_up_Good. now split.
  - split.
    + eapply WF_evolves; [apply evolves_reset | exact W].
    + now apply reset_Inv.
  - split.
    + eapply WF_evolves; [apply evolves_with_turn | exact W].
    + eapply Inv_same_board; [apply same_board_with_turn | exact HI].
Qed.

End Invariant.

(** ** The marks of the agents that have moved *)

Ltac moved_mono_by_computation :=
  unfold moved_mono; intros; store_simpl;
  try reflexivity; try assumption; simpl in *; try congruence.

Lemma moved_mono_refl (st : Grid) : moved_mono st st.
Proof. moved_mono_by_computation. Qed.

Lemma moved_mono_trans (st1 st2 st3 : Grid) :
  moved_mono st1 st2 -> moved_mono st2 st3 -> moved_mono st1 st3.
Proof. unfold moved_mono. auto. Qed.

Lemma moved_mono_relocate (st : Grid) (r : ref) (c : loc) :
  moved_mono st (relocate st r c).
Proof. unfold relocate. moved_mono_by_computation. Qed.

Lemma moved_mono_swap (st : Grid) (r p : ref) (best_choice : loc) :
  moved_mono st (swap st r best_choice p).
Proof. unfold swap. moved_mono_by_computation. Qed.

Lemma moved_mono_finish (st : Grid) (r : ref) (start : loc) :
  moved_mono st (finish st r start).
Proof. unfold finish. moved_mono_by_computation. Qed.

Lemma moved_finish (st : Grid) (r : ref) (start : loc) :
  moved (agents (finish st r start) r) = true.
Proof. unfold finish. store_simpl; congruence. Qed.

Lemma moved_mono_check_swap (rnd : nat -> nat) (st : Grid) (p : ref)
      (c : loc) :
  moved_mono st (snd (check_swap rnd st p c)).
Proof.
  unfold check_swap, check_swapA, check_swapB, check_swapC, check_swapD.
  destruct (kind (agents st p));
    try match goal with
        | |- context [if ?b then _ else _] => destruct b
        end; moved_mono_by_computation.
Qed.

Lemma moved_mono_moveA (st : Grid) (r : ref) : moved_mono st (moveA st r).
Proof.
  unfold moveA. destruct (moved (agents st r)); [apply moved_mono_refl |].
  eapply moved_mono_trans; [| apply moved_mono_finish].
  unfold take_best. destruct (sorted _) as [| [c ?] ?];
    [apply moved_mono_refl | apply moved_mono_relocate].
Qed.

Lemma moved_moveA (st : Grid) (r : ref) :
  moved (agents (moveA st r) r) = true.
Proof.
  unfold moveA. destruct (moved (agents st r)) eqn:E; [exact E |].
  apply moved_finish.
Qed.

Lemma moved_mono_moveB (rnd : nat -> nat) (st st' : Grid) (r : ref) :
  moveB rnd st r = Some st' -> moved_mono st st'.
Proof.
  unfold moveB.
  destruct (moved (agents st r)).
  { intros H; inversion H. apply moved_mono_refl. }
  destruct (best_choice_of st r) as [bc |]; [| discriminate].
  intros H; inversion H; subst; clear H.
  eapply moved_mono_trans; [| apply moved_mono_finish].
  destruct (occupant (cells st bc)) as [p |].
  - assert (E := moved_mono_check_swap rnd st p (cell (agents st r))).
    destruct (check_swap rnd st p (cell (agents st r))) as [ok st1].
    simpl in E.
    destruct (ok && negb (String.eqb (symbol (agents st1 p)) "D"));
      [| exact E].
    eapply moved_mono_trans; [exact E | apply moved_mono_swap].
  - apply moved_mono_relocate.
Qed.

Lemma agents_clean_body (k : Pool) (st : Grid) (a : ref) :
  agents (clean_body k st a) = agents st.
Proof.
  unfold clean_body. destruct (arrived k (agents st a)); [| reflexivity].
  destruct k; reflexivity.
Qed.

Lemma agents_clean_up (st : Grid) : agents (clean_up st) = agents st.
Proof.
  apply (clean_up_keeps (fun s => agents s = agents st)); [| reflexivity].
  intros k s a _ H. now rewrite agents_clean_body.
Qed.

Lemma fold_left_marks (f : Grid -> ref -> Grid) (l : list ref) :
  (forall s a, moved (agents (f s a) a) = true) ->
  (forall s a, moved_mono s (f s a)) ->
  forall st a, In a l -> moved (agents (fold_left f l st) a) = true.
Proof.
  intros Hset Hmono. induction l as [| x l IH]; intros st a Ha; simpl.
  - contradiction.
  - destruct Ha as [<- | Ha]; [| now apply IH].
    apply (fold_left_keeps (fun s => moved (agents s x) = true)).
    + intros s b _ H. now apply Hmono.
    + apply Hset.
Qed.

Lemma MoversActed_evolves (st st' : Grid) :
  evolves st st' -> moved_mono st st' -> MoversActed st -> MoversActed st'.
Proof.
  intros (I & _) M H a Ha. apply M, H, (I PoolA a Ha).
Qed.

(** A TypeA agent that has moved declines. *)
Lemma check_swapA_moved (rnd : nat -> nat) (st : Grid) (a : ref) (c : loc) :
  kind (agents st a) = TypeA -> moved (agents st a) = true ->
  check_swap rnd st a c = (false, st).
Proof.
  intros Hk Hm. unfold check_swap, check_swapA. rewrite Hk, Hm.
  now rewrite andb_false_r.
Qed.

(** What [moveB] does when the occupant of the preferred cell declines: the
    agent stays where it is. *)
Lemma moveB_declined (rnd : nat -> nat) (st : Grid) (b p : ref) (bc : loc) :
  moved (agents st b) = false ->
  best_choice_of st b = Some bc ->
  occupant (cells st bc) = Some p ->
  check_swap rnd st p (cell (agents st b)) = (false, st) ->
  moveB rnd st b = Some (finish st b (cell (agents st b))).
Proof.
  intros Hm Hbc Hp Hd. unfold moveB. now rewrite Hm, Hbc, Hp, Hd.
Qed.

(** ** The phases of a turn *)

Lemma same_pools_fold (f : Grid -> ref -> Grid) (l : list ref) (st : Grid) :
  (forall s a, same_pools s (f s a)) -> same_pools st (fold_left f l st).
Proof.
  intros Hf. apply (fold_left_keeps (same_pools st));
    [| apply same_pools_refl].
  intros s a _ [P D]. destruct (Hf s a) as [P' D'].
  split; [intros k; now rewrite P', P | congruence].
Qed.

Lemma MoversActed_moves (st : Grid) :
  MoversActed (fold_left moveA (playerAs st) st).
Proof.
  intros a Ha.
  destruct (same_pools_fold moveA (playerAs st) st same_pools_moveA)
    as [P _].
  specialize (P PoolA). simpl in P. rewrite P in Ha.
  apply fold_left_marks;
    auto using moved_moveA, moved_mono_moveA.
Qed.

Lemma MoversActed_clean_up (st : Grid) :
  MoversActed st -> MoversActed (clean_up st).
Proof.
  apply MoversActed_evolves; [apply evolves_clean_up |].
  intros r. now rewrite agents_clean_up.
Qed.

Section Phases.

Variable rnd : nat -> nat.
Variable shuffle : nat -> list ref -> list ref.
Hypothesis shuffle_permutes : forall n l, Permutation (shuffle n l) l.

Lemma MoversActed_phaseA (st : Grid) : MoversActed (phaseA shuffle st).
Proof.
  unfold phaseA. apply MoversActed_clean_up.
  intros a Ha. simpl in Ha.
  apply (MoversActed_moves (shuffle_players shuffle PoolA st) a Ha).
Qed.

(** The state before any TypeB agent of the phase moves keeps the marks and
    the well-formedness the phase started with. *)
Lemma during_phaseB (st stB : Grid) (pre post : list ref) :
  WF st -> MoversActed st ->
  playerBs st = pre ++ post ->
  move_all_B rnd pre st = Some stB ->
  MoversActed stB /\ WF stB.
Proof.
  intros W M E H.
  assert (G : MoversActed stB /\ evolves st stB).
  { apply (move_all_B_keeps (fun s => MoversActed s /\ evolves st s) rnd pre)
      with (st := st); [| | exact H].
    - intros s s' b Hb [Ms Es] Hm.
      assert (Eb : evolves s s').
      { eapply evolves_moveB; [| exact Hm].
        rewrite (evolves_kind st s b Es).
        apply (WF_kind_player st PoolB b W). simpl. rewrite E.
        apply in_or_app. now left. }
      split.
      + eapply MoversActed_evolves; [exact Eb | | exact Ms].
        eapply moved_mono_moveB; eauto.
      + eapply evolves_trans; eauto.
    - split; [assumption | apply evolves_refl]. }
  destruct G as [G1 G2]. split; [assumption |].
  eapply WF_evolves; eauto.
Qed.

(** C6.  When the TypeA agents have moved, and still after the [clean_up]
    that follows, every active TypeA agent is marked as having moved; the
    marks stay while the TypeB agents move, so whichever of them asks a TypeA
    agent for a swap is declined and stays on its cell. *)
Theorem movers_decline_after_their_phase (st : Grid) :
  WF st ->
  MoversActed (fold_left moveA (playerAs (shuffle_players shuffle PoolA st))
                         (shuffle_players shuffle PoolA st)) /\
  MoversActed (phaseA shuffle st) /\
  forall pre post stB,
    playerBs (phaseA shuffle st) = pre ++ post ->
    move_all_B rnd pre (phaseA shuffle st) = Some stB ->
    MoversActed stB /\
    (forall a c, In a (playerAs stB) ->
                 check_swap rnd stB a c = (false, stB)) /\
    (forall b bc a,
       moved (agents stB b) = false ->
       best_choice_of stB b = Some bc ->
       occupant (cells stB bc) = Some a ->
       In a (playerAs stB) ->
       exists stB', moveB rnd stB b = Some stB' /\ same_board stB stB').
Proof.
  intros W.
  split; [apply MoversActed_moves | split; [apply MoversActed_phaseA |]].
  intros pre post stB E H.
  assert (WA : WF (phaseA shuffle st))
    by (eapply WF_evolves; [now apply evolves_phaseA | exact W]).
  destruct (during_phaseB _ _ _ _ WA (MoversActed_phaseA st) E H)
    as [MB WB].
  assert (D : forall a c, In a (playerAs stB) ->
                          check_swap rnd stB a c = (false, stB)).
  { intros a c Ha. apply check_swapA_moved; [| now apply MB].
    destruct WB as (_ & _ & _ & T). now apply (T a). }
  split; [exact MB | split; [exact D |]].
  intros b bc a Hm Hbc Ha Hin.
  exists (finish stB b (cell (agents stB b))). split.
  - apply moveB_declined with (bc := bc) (p := a); auto.
  - apply same_board_finish.
Qed.

Lemma operation_evolves (st st' : Grid) :
  WF st -> operation rnd shuffle st st' -> evolves st st'.
Proof.
  intros W Hop.
  destruct Hop as [k st | st a Ha | st st' b Hb Hm | st c Hc | st c Hc
                  | st c Hc | st | st r Hr | st].
  - now apply evolves_shuffle_players.
  - apply evolves_moveA, (WF_kind_player st PoolA a W Ha).
  - eapply evolves_moveB; [| exact Hm].
    apply (WF_kind_player st PoolB b W Hb).
  - apply evolves_move1, (WF_kind_player st PoolC c W Hc).
  - apply evolves_move2, (WF_kind_player st PoolC c W Hc).
  - apply evolves_move3.
  - apply evolves_clean_up.
  - apply evolves_reset.
  - apply evolves_with_turn.
Qed.

Lemma reaches_evolves (st st' : Grid) :
  WF st -> reaches rnd shuffle st st' -> evolves st st'.
Proof.
  intros W R.
  assert (G : evolves st st' /\ WF st').
  { apply (reaches_keeps rnd shuffle (fun s => evolves st s /\ WF s))
      with (st := st); [| | exact R].
    - intros s s' [E Ws] Hop.
      assert (E' := operation_evolves s s' Ws Hop).
      split; [eapply evolves_trans; eauto | eapply WF_evolves; eauto].
    - split; [apply evolves_refl | exact W]. }
  tauto.
Qed.


End Phases.

(** ** The lists [populate] builds *)

Lemma NoDup_snoc (l : list ref) (a : ref) :
  NoDup l -> ~ In a l -> NoDup (l ++ [a]).
Proof.
  intros N H. apply NoDup_app; [exact N | |].
  - repeat constructor. simpl. tauto.
  - intros x Hx [<- | []]. contradiction.
Qed.

Lemma WF_initialize (w h : nat) :
  Allocated (initialize w h) /\ WF (initialize w h).
Proof.
  split; [split; [intros []; simpl |]; contradiction |].
  repeat split; try constructor; contradiction.
Qed.

Ltac fresh_member :=
  match goal with
  | A : forall k r, In r (players k ?st) -> _, H : In ?r (playerAs ?st) |- _ =>
      specialize (A PoolA r H); simpl in A
  | A : forall k r, In r (players k ?st) -> _, H : In ?r (playerBs ?st) |- _ =>
      specialize (A PoolB r H); simpl in A
  | A : forall k r, In r (players k ?st) -> _, H : In ?r (playerCs ?st) |- _ =>
      specialize (A PoolC r H); simpl in A
  | A : forall r, In r (playerDs ?st) -> _, H : In ?r (playerDs ?st) |- _ =>
      specialize (A r H)
  end.

Lemma populate_row_WF (st st' : Grid) (row : Row) :
  Allocated st -> WF st -> populate_row st row = Some st' ->
  Allocated st' /\ WF st'.
Proof.
  intros [Ak Ad] (NA & NB & NC & T). unfold populate_row.
  destruct (grid_at st (y1 row) (x1 row)) as [s |]; [| discriminate].
  destruct (grid_at st (y2 row) (x2 row)) as [e |]; [| discriminate].
  destruct (name row) as [| c rest]; [discriminate |].
  assert (FA : ~ In (allocated st) (playerAs st))
    by (intros H; specialize (Ak PoolA _ H); lia).
  assert (FB : ~ In (allocated st) (playerBs st))
    by (intros H; specialize (Ak PoolB _ H); lia).
  assert (FC : ~ In (allocated st) (playerCs st))
    by (intros H; specialize (Ak PoolC _ H); lia).
  repeat match goal with
         | |- context [Ascii.eqb ?a ?b] => destruct (Ascii.eqb a b)
         end;
    intros H; inversion H; subst; clear H;
    (split; [split | split; [| split; [| split]]]);
    simpl; auto using NoDup_snoc;
    try (intros k r; destruct k; simpl; intros H;
         try apply in_app_or in H;
         repeat match type of H with
                | _ \/ _ => destruct H as [H | H]
                | In _ [_] => destruct H as [<- | []]
                end;
         try fresh_member; lia);
    try (intros r H;
         try apply in_app_or in H;
         repeat match type of H with
                | _ \/ _ => destruct H as [H | H]
                | In _ [_] => destruct H as [<- | []]
                end;
         try fresh_member; lia);
    try (unfold typed_pools; simpl;
         intros r; destruct (T r) as (TA & TB & TC & TD);
         unfold upd_agent;
         repeat split; intros H;
         try apply in_app_or in H;
         repeat match type of H with
                | _ \/ _ => destruct H as [H | H]
                | In _ [_] => destruct H as [<- | []]
                end;
         try (rewrite Nat.eqb_refl; reflexivity);
         destruct (Nat.eqb_spec r (allocated st)); subst;
         try contradiction; auto;
         try (fresh_member; lia)).
Qed.

Lemma populate_WF (rows : list Row) (st st' : Grid) :
  Allocated st -> WF st -> populate st rows = Some st' -> WF st'.
Proof.
  revert st. induction rows as [| row rows IH]; intros st A W; simpl.
  - intros H; inversion H; subst; assumption.
  - destruct (populate_row st row) as [st1 |] eqn:E; [| discriminate].
    destruct (populate_row_WF st st1 row A W E). now apply IH.
Qed.

(** Whatever the rows, the lists of a populated grid are well formed. *)
Lemma WF_scenario (w h : nat) (rows : list Row) : WF (scenario w h rows).
Proof.
  unfold scenario. destruct (WF_initialize w h) as [A W].
  destruct (populate (initialize w h) rows) as [st |] eqn:E;
    [| exact W].
  eapply populate_WF; eauto.
Qed.

(** ** The scenarios are well formed *)

Ltac in_concrete_list H :=
  vm_compute in H;
  repeat match type of H with
         | _ \/ _ => destruct H as [H | H]
         end;
  try contradiction; try (subst; try reflexivity; try discriminate).

Ltac concrete_Inv :=
  apply occupancy_Inv; intros r H; unfold on_board, active in H;
  repeat match type of H with
         | _ \/ _ => destruct H as [H | H]
         end;
  in_concrete_list H.

Lemma Good_mover_meets_follower : Good mover_meets_follower.
Proof. split; [apply WF_scenario | concrete_Inv]. Qed.


Lemma keep_order_permutes (n : nat) (l : list ref) :
  Permutation (keep_order n l) l.
Proof. apply Permutation_refl. Qed.

Lemma movers_decline_after_their_phase_witness :
  WF mover_meets_follower /\
  check_swap draw_zero (phaseA keep_order mover_meets_follower) 0%nat (1, 0)
  = (false, phaseA keep_order mover_meets_follower).
Proof.
  assert (W : WF mover_meets_follower) by apply Good_mover_meets_follower.
  split; [exact W |].
  destruct (movers_decline_after_their_phase draw_zero keep_order
              keep_order_permutes mover_meets_follower W) as (_ & _ & H).
  destruct (H [] (playerBs (phaseA keep_order mover_meets_follower))
              (phaseA keep_order mover_meets_follower) eq_refl eq_refl)
    as (_ & D & _).
  apply D. vm_compute. auto.
Defined.

(** ** The loops of [clean_up] run to the end of their list *)

Lemma length_players_clean_body (k : Pool) (st : Grid) (a : ref) :
  (List.length (players k (clean_body k st a))
   <= List.length (players k st))%nat.
Proof.
  unfold clean_body. destruct (arrived k (agents st a)); [| lia].
  destruct k; simpl; apply length_remove_first.
Qed.

(** With as many passes allowed as the list has elements beyond the index,
    the loop stops because the index has passed the end of the list: allowing
    more passes changes nothing. *)
Lemma clean_loop_enough (k : Pool) (fuel extra i : nat) (st : Grid) :
  (List.length (players k st) - i <= fuel)%nat ->
  clean_loop k (fuel + extra) i st = clean_loop k fuel i st.
Proof.
  revert i st. induction fuel as [| fuel IH]; intros i st H.
  - assert (E : nth_error (players k st) i = None)
      by (apply nth_error_None; lia).
    destruct extra; simpl; [reflexivity | now rewrite E].
  - simpl. destruct (nth_error (players k st) i) as [a |] eqn:E;
      [| reflexivity].
    apply IH.
    assert (L := length_players_clean_body k st a). lia.
Qed.

Lemma clean_pool_enough (k : Pool) (extra : nat) (st : Grid) :
  clean_loop k (List.length (players k st) + extra) 0 st = clean_pool k st.
Proof. apply clean_loop_enough. lia. Qed.

(** ** What a TypeA agent does when it moves *)

(** X21.  On a grid of at most 2^25 columns and 2^25 rows, where
    [math.sqrt] keeps apart the distances the sort compares, a TypeA agent
    that has not moved stays when no adjacent cell is free, and otherwise
    goes to the first free adjacent cell, in the order of the adjacency list,
    among those nearest to its destination: the sort by distance keeps the
    order of the adjacency list between cells at the same distance. *)
Lemma moveA_result (st : Grid) (r : ref) :
  Topology st -> sqrt_exact st ->
  on_grid (width st) (height st) (cell (agents st r)) = true ->
  on_grid (width st) (height st) (end_ (agents st r)) = true ->
  moved (agents st r) = false ->
  (choicesA st r = [] ->
   cell (agents (moveA st r) r) = cell (agents st r)) /\
  (choicesA st r <> [] ->
   exists l1 l2,
     choicesA st r = l1 ++ cell (agents (moveA st r) r) :: l2 /\
     (forall n, In n l1 ->
        norm2 (cell (agents (moveA st r) r)) (end_ (agents st r))
        < norm2 n (end_ (agents st r))) /\
     (forall n, In n (choicesA st r) ->
        norm2 (cell (agents (moveA st r) r)) (end_ (agents st r))
        <= norm2 n (end_ (agents st r)))).
Proof.
  intros _ _ _ _ Hm. unfold moveA. rewrite Hm.
  destruct (sorted (choice_pairs (end_ (agents st r)) (choicesA st r)))
    as [| [c k] rest] eqn:E.
  - apply sorted_nil in E. split.
    + intros _. unfold finish, take_best. store_simpl; congruence.
    + intros Hne. contradiction.
  - destruct (sorted_head _ _ _ _ _ E) as (Hk & Hmin & l1 & l2 & Hl & Hl1).
    assert (Hc : cell (agents (finish (take_best st r ((c, k) :: rest)) r
                                      (cell (agents st r))) r) = c).
    { unfold finish, take_best, relocate. store_simpl; congruence. }
    rewrite Hc. split.
    + intros E0. rewrite E0 in Hl. now destruct l1.
    + intros _. exists l1, l2. rewrite <- Hk. auto.
Qed.

(** ** The agents stay on the grid *)

Lemma find_best_choice_some (adj : list loc) (coords bc : loc) :
  find_best_choice adj coords = Some bc -> bc = coords /\ In coords adj.
Proof.
  unfold find_best_choice. rewrite find_best_choice_from.
  destruct (existsb (fun c => loc_eqb c coords) adj) eqn:E; [| discriminate].
  intros H; inversion H; subst. split; [reflexivity |].
  apply existsb_exists in E. destruct E as (x & Hx & Ex).
  apply loc_eqb_eq in Ex. now subst.
Qed.

Lemma best_choice_of_adjacent (st : Grid) (r : ref) (bc : loc) :
  best_choice_of st r = Some bc ->
  In bc (adjacent (cells st (cell (agents st r)))).
Proof.
  unfold best_choice_of.
  destruct (shortest_path_between st r) as [coords |]; [| discriminate].
  intros H. apply find_best_choice_some in H. destruct H as [-> H]. exact H.
Qed.

Lemma evolves_frame (st st' : Grid) : evolves st st' -> same_frame st st'.
Proof. intros (_ & _ & _ & _ & _ & F). exact F. Qed.

Lemma Placed_quiet (st st' : Grid) :
  same_board st st' -> same_frame st st' -> Placed st -> Placed st'.
Proof.
  intros (B & _ & C) (W & H & _) P r Hr.
  rewrite W, H, C. apply P, B, Hr.
Qed.

Lemma Placed_relocate (st : Grid) (r : ref) (c : loc) :
  Placed st -> on_grid (width st) (height st) c = true ->
  Placed (relocate st r c).
Proof.
  intros P Hc r' Hr'. change (on_board st r') in Hr'.
  specialize (P r' Hr'). unfold relocate. store_simpl; assumption.
Qed.

Lemma Placed_swap (st : Grid) (r p : ref) (best_choice : loc) :
  Placed st -> on_board st r ->
  on_grid (width st) (height st) best_choice = true ->
  Placed (swap st r best_choice p).
Proof.
  intros P Hr Hc r' Hr'. change (on_board st r') in Hr'.
  assert (Pr := P r Hr). specialize (P r' Hr').
  unfold swap. store_simpl; assumption.
Qed.

Lemma Placed_take_best (st : Grid) (r : ref) (des : loc) (l : list loc) :
  Placed st ->
  (forall c, In c l -> on_grid (width st) (height st) c = true) ->
  Placed (take_best st r (sorted (choice_pairs des l))).
Proof.
  intros P Hl. unfold take_best.
  destruct (sorted (choice_pairs des l)) as [| [c k] rest] eqn:E;
    [assumption |].
  apply Placed_relocate; [assumption |].
  apply Hl. eapply sorted_head_in; eauto.
Qed.

Lemma Placed_moveA (st : Grid) (r : ref) :
  Topology st -> Placed st -> on_board st r -> Placed (moveA st r).
Proof.
  intros T P Hr. unfold moveA.
  destruct (moved (agents st r)); [assumption |].
  eapply Placed_quiet;
    [apply same_board_finish | apply evolves_frame, evolves_finish |].
  apply Placed_take_best; [assumption |].
  intros c Hc. unfold choicesA in Hc. apply filter_In in Hc.
  eapply topology_adjacent_on_grid; [exact T | apply (P r Hr) | tauto].
Qed.

Lemma Placed_move2 (st : Grid) (r : ref) :
  Topology st -> Placed st -> on_board st r -> Placed (move2 st r).
Proof.
  intros T P Hr. unfold move2.
  destruct (moved (agents st r)); [assumption |].
  eapply Placed_quiet;
    [apply same_board_finish | apply evolves_frame, evolves_finish |].
  apply Placed_take_best; [assumption |].
  intros c Hc. unfold choicesC2 in Hc. apply filter_In in Hc.
  eapply topology_adjacent_on_grid; [exact T | apply (P r Hr) | tauto].
Qed.

Lemma Placed_move3 (st : Grid) (r : ref) : Placed st -> Placed (move3 st r).
Proof.
  apply Placed_quiet.
  - unfold move3. eapply same_board_trans; [apply same_board_logged |].
    apply same_board_counted.
  - apply evolves_frame, evolves_move3.
Qed.

Lemma Placed_move1 (rnd : nat -> nat) (st : Grid) (r : ref) :
  Topology st -> Placed st -> on_board st r -> Placed (move1 rnd st r).
Proof.
  intros T P Hr. unfold move1.
  assert (Q : forall s a, Placed s ->
                Placed (set_agent s a (incr_move_count (agents s a)))).
  { intros s a. apply Placed_quiet; [apply same_board_counted |].
    apply evolves_frame. evolves_by_computation. }
  apply Q.
  destruct (filter _ _) as [| c0 cs] eqn:E; [assumption |].
  eapply Placed_quiet;
    [apply same_board_logged | apply evolves_frame; evolves_by_computation |].
  set (c := nth _ _ _).
  assert (Hc : In c (c0 :: cs)).
  { apply nth_In. apply Nat.mod_upper_bound. simpl. discriminate. }
  rewrite <- E in Hc. apply filter_In in Hc. destruct Hc as [Hc _].
  apply Placed_relocate.
  - eapply Placed_quiet; [apply same_board_with_draws | | exact P].
    apply evolves_frame, evolves_with_draws.
  - eapply topology_adjacent_on_grid; [exact T | apply (P r Hr) | exact Hc].
Qed.

Lemma Placed_moveB (rnd : nat -> nat) (st st' : Grid) (r : ref) :
  Topology st -> Placed st -> on_board st r ->
  moveB rnd st r = Some st' -> Placed st'.
Proof.
  intros T P Hr. unfold moveB.
  destruct (moved (agents st r)).
  { intros H; inversion H; subst; assumption. }
  destruct (best_choice_of st r) as [bc |] eqn:Eb; [| discriminate].
  intros H; inversion H; subst; clear H.
  assert (Hbc : on_grid (width st) (height st) bc = true).
  { eapply topology_adjacent_on_grid; [exact T | apply (P r Hr) |].
    now apply best_choice_of_adjacent. }
  eapply Placed_quiet;
    [apply same_board_finish | apply evolves_frame, evolves_finish |].
  destruct (occupant (cells st bc)) as [p |] eqn:Ep.
  - assert (B := same_board_check_swap rnd st p (cell (agents st r))).
    assert (F := evolves_frame _ _
                   (evolves_check_swap rnd st p (cell (agents st r)))).
    destruct (check_swap rnd st p (cell (agents st r))) as [ok st1].
    simpl in B, F.
    assert (P1 : Placed st1) by (eapply Placed_quiet; eauto).
    destruct (ok && negb (String.eqb (symbol (agents st1 p)) "D"));
      [| assumption].
    destruct B as (B & _ & _). destruct F as (W & H & _).
    apply Placed_swap; [assumption | now apply B | now rewrite W, H].
  - now apply Placed_relocate.
Qed.

Lemma Placed_clean_body (k : Pool) (st : Grid) (a : ref) :
  Placed st -> Placed (clean_body k st a).
Proof.
  intros P. unfold clean_body.
  destruct (arrived k (agents st a)); [| assumption].
  intros r Hr.
  assert (Hb : on_board st r).
  { unfold on_board, active in *.
    destruct k; simpl in *; intuition eauto using in_remove_first. }
  specialize (P r Hb). destruct k; exact P.
Qed.

Section Totality.

Variable rnd : nat -> nat.
Variable shuffle : nat -> list ref -> list ref.
Hypothesis shuffle_permutes : forall n l, Permutation (shuffle n l) l.

Lemma operation_Placed (st st' : Grid) :
  Topology st -> Placed st -> operation rnd shuffle st st' -> Placed st'.
Proof.
  intros T P Hop.
  destruct Hop as [k st | st a Ha | st st' b Hb Hm | st c Hc | st c Hc
                  | st c Hc | st | st r Hr | st].
  - eapply Placed_quiet; [now apply same_board_shuffle_players | | exact P].
    now apply evolves_frame, evolves_shuffle_players.
  - apply Placed_moveA; auto. apply (on_board_players st PoolA a Ha).
  - eapply Placed_moveB; eauto. apply (on_board_players st PoolB b Hb).
  - apply Placed_move1; auto. apply (on_board_players st PoolC c Hc).
  - apply Placed_move2; auto. apply (on_board_players st PoolC c Hc).
  - now apply Placed_move3.
  - apply clean_up_keeps; [| exact P]. intros k s a _. apply Placed_clean_body.
  - eapply Placed_quiet; [apply same_board_set_moved | | exact P].
    apply evolves_frame, evolves_reset.
  - eapply Placed_quiet; [apply same_board_with_turn | | exact P].
    apply evolves_frame, evolves_with_turn.
Qed.

Lemma reaches_Sound (st st' : Grid) :
  Sound st -> reaches rnd shuffle st st' -> Sound st'.
Proof.
  apply reaches_keeps. intros s s' (W & T & P) Hop.
  assert (E := operation_evolves rnd shuffle shuffle_permutes s s' W Hop).
  split; [eapply WF_evolves; eauto | split].
  - eapply Topology_frame; [apply evolves_frame, E | exact T].
  - eapply operation_Placed; eauto.
Qed.





End Totality.

(** ** Runs *)



Section Runs.

Variable rnd : nat -> nat.
Variable shuffle : nat -> list ref -> list ref.
Hypothesis shuffle_permutes : forall n l, Permutation (shuffle n l) l.



End Runs.



(** * Further properties of the code *)

(** ** [shortest_path] *)

Lemma shortest_path_fixed (a b : loc) : shortest_path a b = a <-> a = b.
Proof.
  unfold shortest_path. destruct (loc_eqb_spec a b) as [-> | Hne].
  - tauto.
  - split; [| contradiction]. intros E. destruct a as [x y], b as [ex ey].
    simpl in E. inversion E.
    assert (ex <> x \/ ey <> y)
      by (destruct (Z.eq_dec ex x), (Z.eq_dec ey y); subst; tauto).
    destruct (Z.sgn_spec (ex - x)) as [[? Ex] | [[? Ex] | [? Ex]]];
    destruct (Z.sgn_spec (ey - y)) as [[? Ey] | [[? Ey] | [? Ey]]]; lia.
Qed.

Lemma shortest_path_chebyshev (a b : loc) :
  a <> b ->
  chebyshev a (shortest_path a b) = 1 /\
  chebyshev (shortest_path a b) b = chebyshev a b - 1.
Proof.
  intros Hne. unfold shortest_path, chebyshev.
  destruct (loc_eqb_spec a b) as [| _]; [contradiction |].
  destruct a as [x y], b as [ex ey]; simpl.
  assert (ex <> x \/ ey <> y)
    by (destruct (Z.eq_dec ex x), (Z.eq_dec ey y); subst; tauto).
  destruct (Z.sgn_spec (ex - x)) as [[? ->] | [[? ->] | [? ->]]];
  destruct (Z.sgn_spec (ey - y)) as [[? ->] | [[? ->] | [? ->]]]; lia.
Qed.

Lemma shortest_path_nearer (a b : loc) :
  a <> b -> norm2 (shortest_path a b) b < norm2 a b.
Proof.
  intros Hne. apply snapped_strictly_nearest; [| | exact Hne].
  - apply in_around. rewrite !Z.sub_diag. simpl. lia.
  - intros E. symmetry in E.
    apply (proj1 (shortest_path_fixed a b)) in E. contradiction.
Qed.

(** X1.  One call of [shortest_path] from a cell other than the destination
    gives a cell next to it, one less in Chebyshev distance and strictly less
    in Euclidean distance from the destination. *)
Theorem shortest_path_one_step (a b : loc) :
  a <> b ->
  chebyshev a (shortest_path a b) = 1 /\
  chebyshev (shortest_path a b) b = chebyshev a b - 1 /\
  norm2 (shortest_path a b) b < norm2 a b.
Proof.
  intros Hne. destruct (shortest_path_chebyshev a b Hne).
  auto using shortest_path_nearer.
Qed.

Lemma shortest_path_one_step_witness :
  (0, 0) <> (5, 2) /\ chebyshev (shortest_path (0, 0) (5, 2)) (5, 2) = 4.
Proof.
  assert (H : (0, 0) <> (5, 2)) by discriminate.
  split; [exact H |].
  exact (proj1 (proj2 (shortest_path_one_step (0, 0) (5, 2) H))).
Defined.

Lemma chebyshev_zero (a b : loc) : chebyshev a b = 0 <-> a = b.
Proof.
  unfold chebyshev. destruct a as [x y], b as [ex ey]; simpl. split.
  - intros H. f_equal; lia.
  - intros E. inversion E. lia.
Qed.

Lemma follow_distance (n : nat) (a b : loc) :
  (Z.of_nat n <= chebyshev a b) ->
  chebyshev (follow n a b) b = chebyshev a b - Z.of_nat n.
Proof.
  revert a. induction n as [| n IH]; intros a H; simpl follow.
  - simpl. lia.
  - assert (Hne : a <> b).
    { intros E. apply chebyshev_zero in E. lia. }
    destruct (shortest_path_chebyshev a b Hne) as [_ E].
    rewrite IH; lia.
Qed.

(** X2.  Followed from any cell, [shortest_path] arrives at the destination
    after exactly as many calls as the Chebyshev distance, not before, and
    stays there. *)
Theorem follow_arrives (a b : loc) :
  follow (Z.to_nat (chebyshev a b)) a b = b /\
  (forall n, (n < Z.to_nat (chebyshev a b))%nat -> follow n a b <> b) /\
  (forall n, follow n b b = b).
Proof.
  assert (Hpos : 0 <= chebyshev a b) by (unfold chebyshev; lia).
  split; [| split].
  - apply chebyshev_zero. rewrite follow_distance; lia.
  - intros n Hn E. apply chebyshev_zero in E.
    rewrite follow_distance in E; lia.
  - induction n as [| n IH]; simpl; [reflexivity |].
    unfold shortest_path. now rewrite loc_eqb_refl.
Qed.

(** ** What an accepted swap means to the one who accepts *)

(** X3.  A TypeA, TypeB or TypeD agent that declines leaves the state as it
    is; one that accepts a request made from another cell had not moved, is
    left on its cell by the answer itself, and is offered a cell strictly
    nearer to its destination than its own. *)
Theorem accepted_swap_brings_nearer
        (rnd : nat -> nat) (st : Grid) (p : ref) (c : loc) :
  kind (agents st p) <> TypeC ->
  (fst (check_swap rnd st p c) = false -> snd (check_swap rnd st p c) = st) /\
  (fst (check_swap rnd st p c) = true ->
   c <> cell (agents st p) ->
   moved (agents st p) = false /\
   same_board st (snd (check_swap rnd st p c)) /\
   norm2 c (end_ (agents st p))
   < norm2 (cell (agents st p)) (end_ (agents st p))).
Proof.
  intros Hk. split.
  - unfold check_swap, check_swapA, check_swapB, check_swapD.
    destruct (kind (agents st p)); try contradiction;
      match goal with
      | |- context [if ?b then _ else _] => destruct b
      end; simpl; intros H; try discriminate; reflexivity.
  - intros Ha Hc. split; [| split; [apply same_board_check_swap |]];
      revert Ha; unfold check_swap, check_swapA, check_swapB, check_swapD;
      destruct (kind (agents st p)); try contradiction;
      match goal with
      | |- context [if ?b then _ else _] => destruct b eqn:E
      end; simpl; intros Ha; try discriminate;
      apply andb_true_iff in E; destruct E as [E1 E2];
      try (now apply negb_true_iff in E2);
      try (now apply Z.ltb_lt in E1);
      apply loc_eqb_eq in E1; subst c;
      apply shortest_path_nearer; intros E;
      apply Hc; apply shortest_path_fixed; exact E.
Qed.

Lemma accepted_swap_brings_nearer_witness :
  kind (agents mover_and_tourist 0%nat) <> TypeC /\
  norm2 (1, 0) (end_ (agents mover_and_tourist 0%nat))
  < norm2 (cell (agents mover_and_tourist 0%nat))
          (end_ (agents mover_and_tourist 0%nat)).
Proof.
  assert (Hk : kind (agents mover_and_tourist 0%nat) <> TypeC)
    by (vm_compute; discriminate).
  split; [exact Hk |].
  refine (proj2 (proj2 (proj2 (accepted_swap_brings_nearer
            draw_one mover_and_tourist 0%nat (1, 0) Hk) _ _))).
  - reflexivity.
  - vm_compute. discriminate.
Defined.

(** ** Indexing the rows of cells *)

Lemma py_index_range {A} (f : nat -> A) (n : nat) (i : Z) :
  py_index (map f (seq 0 n)) i =
  if (- Z.of_nat n <=? i) && (i <? Z.of_nat n)
  then Some (f (Z.to_nat (i mod Z.of_nat n)))
  else None.
Proof.
  unfold py_index. rewrite length_map, length_seq.
  destruct (Z.ltb_spec i 0) as [Hneg | Hpos].
  - destruct (Z.ltb_spec i (Z.of_nat n)); [| lia]. rewrite andb_true_r.
    destruct (Z.leb_spec 0 (Z.of_nat n + i)) as [H1 | H1];
      destruct (Z.leb_spec (- Z.of_nat n) i); try lia; [| reflexivity].
    rewrite nth_error_map, nth_error_seq.
    destruct (Nat.ltb_spec (Z.to_nat (Z.of_nat n + i)) n); [| lia].
    simpl. do 2 f_equal.
    rewrite <- (Z.mod_small (Z.of_nat n + i) (Z.of_nat n)) by lia.
    rewrite Z.add_comm, <- Z.add_mod_idemp_r, Z.mod_same, Z.add_0_r by lia.
    reflexivity.
  - destruct (Z.leb_spec (- Z.of_nat n) i); [| lia]. simpl.
    rewrite nth_error_map, nth_error_seq.
    destruct (Z.ltb_spec i (Z.of_nat n)) as [H1 | H1];
      destruct (Nat.ltb_spec (Z.to_nat i) n); try lia; [| reflexivity].
    simpl. now rewrite Z.mod_small by lia.
Qed.

Lemma grid_at_rows (st : Grid) (x y : Z) :
  Built st ->
  grid_at st y x =
  if indexable (width st) (height st) x y
  then Some (x mod Z.of_nat (width st), y mod Z.of_nat (height st))
  else None.
Proof.
  intros B. unfold grid_at, indexable. rewrite B. unfold make_rows.
  rewrite py_index_range.
  destruct (Z.leb_spec (- Z.of_nat (height st)) y) as [Hy1 | Hy1];
    [| now rewrite !andb_false_r].
  destruct (Z.ltb_spec y (Z.of_nat (height st))) as [Hy2 | Hy2];
    [| now rewrite !andb_false_r].
  simpl. rewrite py_index_range, !andb_true_r.
  destruct (Z.leb_spec (- Z.of_nat (width st)) x) as [Hx1 | Hx1];
    [| reflexivity].
  destruct (Z.ltb_spec x (Z.of_nat (width st))) as [Hx2 | Hx2];
    [| reflexivity].
  simpl. rewrite !Z2Nat.id; [reflexivity | |]; apply Z.mod_pos_bound; lia.
Qed.

Lemma Built_initialize (w h : nat) : Built (initialize w h).
Proof. reflexivity. Qed.

Lemma Built_populate_row (st st' : Grid) (row : Row) :
  Built st -> populate_row st row = Some st' -> Built st'.
Proof.
  unfold Built, populate_row. intros B.
  destruct (grid_at st (y1 row) (x1 row)) as [s |]; [| discriminate].
  destruct (grid_at st (y2 row) (x2 row)) as [e |]; [| discriminate].
  destruct (name row) as [| c rest]; [discriminate |].
  repeat match goal with
         | |- context [Ascii.eqb ?a ?b] => destruct (Ascii.eqb a b)
         end;
    intros H; inversion H; subst; clear H; exact B.
Qed.

Lemma Built_populate (rows : list Row) (st st' : Grid) :
  Built st -> populate st rows = Some st' -> Built st'.
Proof.
  revert st. induction rows as [| row rows IH]; intros st B; simpl.
  - intros H; inversion H; subst; assumption.
  - destruct (populate_row st row) as [st1 |] eqn:E; [| discriminate].
    apply IH. eapply Built_populate_row; eauto.
Qed.

Lemma Built_scenario (w h : nat) (rows : list Row) :
  Built (scenario w h rows) /\
  width (scenario w h rows) = w /\ height (scenario w h rows) = h.
Proof.
  unfold scenario.
  destruct (populate (initialize w h) rows) as [st |] eqn:E.
  - split; [eapply Built_populate; [apply Built_initialize | exact E] |].
    destruct (same_frame_populate _ _ _ E) as (W & H & _). auto.
  - split; [apply Built_initialize | auto].
Qed.

(** X4.  On a populated grid [Grid.cell] finds the cell of the coordinates it
    is given when they lie on the grid; it raises when a coordinate is beyond
    the far edge or more than a whole width or height below zero; in between,
    a negative coordinate counts from the far edge. *)
Theorem Grid_cell_lookup (w h : nat) (rows : list Row) (l : loc) :
  (on_grid w h l = true -> Grid_cell (scenario w h rows) l = Some l) /\
  (indexable w h (fst l) (snd l) = false ->
   Grid_cell (scenario w h rows) l = None) /\
  (indexable w h (fst l) (snd l) = true ->
   Grid_cell (scenario w h rows) l
   = Some (fst l mod Z.of_nat w, snd l mod Z.of_nat h)).
Proof.
  destruct (Built_scenario w h rows) as (B & W & H).
  unfold Grid_cell. rewrite (grid_at_rows _ _ _ B), W, H.
  split; [| split].
  - intros Hg. apply on_grid_bounds in Hg.
    assert (E : indexable w h (fst l) (snd l) = true).
    { unfold indexable. rewrite !andb_true_iff, !Z.leb_le, !Z.ltb_lt. lia. }
    rewrite E, !Z.mod_small by lia. now destruct l.
  - intros ->. reflexivity.
  - intros ->. reflexivity.
Qed.

Lemma Grid_cell_lookup_witness :
  on_grid 50 20 (49, 9) = true /\
  Grid_cell two_tourists (49, 9) = Some (49, 9) /\
  Grid_cell two_tourists (-1, 9) = Some (49, 9) /\
  Grid_cell two_tourists (50, 9) = None.
Proof.
  split; [reflexivity | split; [| split]].
  - apply (Grid_cell_lookup 50 20 _ (49, 9)). reflexivity.
  - apply (proj2 (proj2 (Grid_cell_lookup 50 20 _ (-1, 9)))). reflexivity.
  - apply (proj1 (proj2 (Grid_cell_lookup 50 20 _ (50, 9)))). reflexivity.
Defined.

(** ** What [populate] does with a row *)

Lemma populate_row_effect (st st' : Grid) (row : Row) :
  Built st -> populate_row st row = Some st' ->
  indexable (width st) (height st) (x1 row) (y1 row) = true /\
  indexable (width st) (height st) (x2 row) (y2 row) = true /\
  allocated st' = S (allocated st) /\
  cell (agents st' (allocated st))
    = start_cell (width st) (height st) row /\
  moved (agents st' (allocated st)) = false /\
  moves (agents st' (allocated st)) = [] /\
  (forall r, r <> allocated st -> agents st' r = agents st r) /\
  (forall l, occupant (cells st' l)
             = if loc_eqb l (start_cell (width st) (height st) row)
               then Some (allocated st) else occupant (cells st l)) /\
  (forall r, on_board st' r <-> on_board st r \/ r = allocated st).
Proof.
  intros B. unfold populate_row, start_cell.
  rewrite !(grid_at_rows _ _ _ B).
  destruct (indexable (width st) (height st) (x1 row) (y1 row));
    [| discriminate].
  destruct (indexable (width st) (height st) (x2 row) (y2 row));
    [| discriminate].
  destruct (name row) as [| c rest]; [discriminate |].
  repeat match goal with
         | |- context [Ascii.eqb ?a ?b] => destruct (Ascii.eqb a b)
         end;
    intros H; inversion H; subst; clear H;
    (repeat match goal with |- _ /\ _ => split end;
     try reflexivity;
     [ simpl; unfold upd_agent; now rewrite Nat.eqb_refl
     | simpl; unfold upd_agent; now rewrite Nat.eqb_refl
     | simpl; unfold upd_agent; now rewrite Nat.eqb_refl
     | intros r Hr; simpl; unfold upd_agent;
       destruct (Nat.eqb_spec r (allocated st)); [contradiction | reflexivity]
     | intros l; simpl; unfold upd_agent, upd_cell;
       rewrite Nat.eqb_refl; simpl;
       destruct (loc_eqb l _); reflexivity
     | intros r; unfold on_board, active; simpl;
       rewrite ?in_app_iff; simpl; intuition ]).
Qed.

(** ** The keys of the sort are exact on a grid of moderate size *)

Lemma square_below (d b : Z) : - b < d < b -> d * d < b * b.
Proof.
  intros H. rewrite <- Z.abs_square.
  apply Z.mul_lt_mono_nonneg; lia.
Qed.

Lemma norm2_range (st : Grid) (a b : loc) :
  sqrt_exact st ->
  on_grid (width st) (height st) a = true ->
  on_grid (width st) (height st) b = true ->
  0 <= norm2 a b < 2 ^ 52.
Proof.
  intros [Hw Hh] Ha Hb. apply on_grid_bounds in Ha, Hb.
  unfold norm2. cbv zeta.
  assert (H0 : - 2 ^ 25 < fst b - fst a < 2 ^ 25) by lia.
  assert (H1 : - 2 ^ 25 < snd b - snd a < 2 ^ 25) by lia.
  apply square_below in H0, H1.
  assert (E : 2 ^ 25 * 2 ^ 25 + 2 ^ 25 * 2 ^ 25 < 2 ^ 52) by reflexivity.
  assert (0 <= (fst b - fst a) * (fst b - fst a)) by apply Z.square_nonneg.
  assert (0 <= (snd b - snd a) * (snd b - snd a)) by apply Z.square_nonneg.
  lia.
Qed.

Section DoublesAgree.

Variable double : Type.
Variable double_leb : double -> double -> bool.
Variable math_sqrt : Z -> double.

(** What a correctly rounded square root gives below 2^52: the order of the
    roots is the order of the integers. *)
Hypothesis sqrt_order :
  forall m n, 0 <= m < 2 ^ 52 -> 0 <= n < 2 ^ 52 ->
    double_leb (math_sqrt m) (math_sqrt n) = (m <=? n).

Local Abbreviation rooted :=
  (map (fun q : loc * Z => (fst q, math_sqrt (snd q)))).

Lemma insert_double_agrees (p : loc * Z) (l : list (loc * Z)) :
  0 <= snd p < 2 ^ 52 ->
  (forall q, In q l -> 0 <= snd q < 2 ^ 52) ->
  insert_double double double_leb (fst p, math_sqrt (snd p)) (rooted l)
  = rooted (insert_by p l).
Proof.
  intros Hp. induction l as [| q l IH]; intros Hl; simpl; [reflexivity |].
  rewrite sqrt_order by (try assumption; apply Hl; now left).
  destruct (snd p <=? snd q); simpl; [reflexivity |].
  f_equal. apply IH. intros q' Hq'. apply Hl. now right.
Qed.

Lemma sorted_double_agrees (l : list (loc * Z)) :
  (forall q, In q l -> 0 <= snd q < 2 ^ 52) ->
  sorted_double double double_leb (rooted l) = rooted (sorted l).
Proof.
  induction l as [| p l IH]; intros Hl; simpl; [reflexivity |].
  unfold sorted_double in *. simpl.
  rewrite IH by (intros q Hq; apply Hl; now right).
  apply insert_double_agrees; [apply Hl; now left |].
  intros q Hq. apply (proj1 (in_sorted q l)) in Hq. apply Hl. now right.
Qed.

(** On a grid of moderate size the sort of the source puts the candidate
    cells of an agent in the order the sort by [norm2] puts them in. *)
Lemma candidates_order (st : Grid) (r : ref) (choices : list loc) :
  Topology st -> sqrt_exact st ->
  on_grid (width st) (height st) (cell (agents st r)) = true ->
  on_grid (width st) (height st) (end_ (agents st r)) = true ->
  incl choices (adjacent (cells st (cell (agents st r)))) ->
  map fst (sorted_double double double_leb
             (choice_pairs_double double math_sqrt (end_ (agents st r))
                                  choices))
  = map fst (sorted (choice_pairs (end_ (agents st r)) choices)).
Proof.
  intros T B Hc He Hin.
  assert (E : choice_pairs_double double math_sqrt (end_ (agents st r))
                                  choices
              = rooted (choice_pairs (end_ (agents st r)) choices)).
  { unfold choice_pairs_double, choice_pairs. now rewrite map_map. }
  rewrite E, sorted_double_agrees.
  - rewrite map_map. reflexivity.
  - intros q Hq. unfold choice_pairs in Hq. apply in_map_iff in Hq.
    destruct Hq as (k & <- & Hk). simpl.
    apply (norm2_range st); [assumption | | assumption].
    apply (topology_adjacent_on_grid st _ k T Hc). now apply Hin.
Qed.

(** Likewise the comparison of [check_swap] of a TypeA agent. *)
Lemma nearer_exact (st : Grid) (c cell' des : loc) :
  sqrt_exact st ->
  on_grid (width st) (height st) c = true ->
  on_grid (width st) (height st) cell' = true ->
  on_grid (width st) (height st) des = true ->
  nearer_double double double_leb math_sqrt c cell' des
  = (norm2 c des <? norm2 cell' des).
Proof.
  intros B Hc Hc' Hd. unfold nearer_double.
  rewrite sqrt_order by (apply (norm2_range st); assumption).
  now rewrite Z.ltb_antisym.
Qed.

End DoublesAgree.

Lemma sqrt_exact_scenario (w h : nat) (rows : list Row) :
  Z.of_nat w <= 2 ^ 25 -> Z.of_nat h <= 2 ^ 25 ->
  sqrt_exact (scenario w h rows).
Proof.
  intros Hw Hh. destruct (Built_scenario w h rows) as (_ & Ew & Eh).
  unfold sqrt_exact. rewrite Ew, Eh. now split.
Qed.

(** ** What [populate] does with a row of strings *)

Section Read.

Variable int : string -> option Z.

Lemma cell_of_fields_Built (st : Grid) (row : list string) (iy ix : nat)
      (fy fx : string) :
  Built st ->
  nth_error row iy = Some fy -> nth_error row ix = Some fx ->
  cell_of_fields int st row iy ix
  = match int fy with
    | None => Raised ValueError
    | Some y =>
        if (- Z.of_nat (height st) <=? y) && (y <? Z.of_nat (height st))
        then match int fx with
             | None => Raised ValueError
             | Some x =>
                 if (- Z.of_nat (width st) <=? x) && (x <? Z.of_nat (width st))
                 then Returned (x mod Z.of_nat (width st),
                                y mod Z.of_nat (height st))
                 else Raised IndexError
             end
        else Raised IndexError
    end.
Proof.
  intros B Hy Hx. unfold cell_of_fields, get_field, to_int, get_item.
  rewrite Hy. simpl. destruct (int fy) as [y |]; [| reflexivity]. simpl.
  rewrite B. unfold make_rows. rewrite py_index_range.
  destruct ((- Z.of_nat (height st) <=? y) && (y <? Z.of_nat (height st)))
    eqn:Ry; [| reflexivity].
  simpl. rewrite Hx. simpl. destruct (int fx) as [x |]; [| reflexivity].
  simpl. rewrite py_index_range.
  destruct ((- Z.of_nat (width st) <=? x) && (x <? Z.of_nat (width st)))
    eqn:Rx; [| reflexivity].
  simpl. apply andb_true_iff in Rx, Ry.
  rewrite !Z.leb_le, !Z.ltb_lt in Rx, Ry.
  rewrite !Z2Nat.id; [reflexivity | |]; apply Z.mod_pos_bound; lia.
Qed.

Lemma indexable_split (w h : nat) (x y : Z) :
  indexable w h x y
  = ((- Z.of_nat h <=? y) && (y <? Z.of_nat h))
    && ((- Z.of_nat w <=? x) && (x <? Z.of_nat w)).
Proof.
  unfold indexable.
  destruct (- Z.of_nat w <=? x), (x <? Z.of_nat w),
           (- Z.of_nat h <=? y), (y <? Z.of_nat h); reflexivity.
Qed.

(** A row of five strings whose coordinates [int] reads is treated as the row
    of integers it reads as. *)
Lemma populate_fields_row (st : Grid) (f0 f1 f2 f3 f4 : string)
      (more : list string) (a1 b1 a2 b2 : Z) :
  Built st ->
  int f1 = Some a1 -> int f2 = Some b1 ->
  int f3 = Some a2 -> int f4 = Some b2 ->
  populate_fields int st (f0 :: f1 :: f2 :: f3 :: f4 :: more)
  = match populate_row st (mkRow f0 a1 b1 a2 b2) with
    | Some st' => Returned st'
    | None => Raised IndexError
    end.
Proof.
  intros B E1 E2 E3 E4. unfold populate_fields, populate_row.
  rewrite (cell_of_fields_Built st (f0 :: f1 :: f2 :: f3 :: f4 :: more)
             2 1 f2 f1 B eq_refl eq_refl).
  rewrite (cell_of_fields_Built st (f0 :: f1 :: f2 :: f3 :: f4 :: more)
             4 3 f4 f3 B eq_refl eq_refl).
  rewrite E1, E2, E3, E4. cbn [x1 y1 x2 y2 name].
  rewrite !(grid_at_rows _ _ _ B), !indexable_split.
  destruct ((- Z.of_nat (height st) <=? b1) && (b1 <? Z.of_nat (height st)));
    [| reflexivity].
  destruct ((- Z.of_nat (width st) <=? a1) && (a1 <? Z.of_nat (width st)));
    [| reflexivity].
  destruct ((- Z.of_nat (height st) <=? b2) && (b2 <? Z.of_nat (height st)));
    [| reflexivity].
  destruct ((- Z.of_nat (width st) <=? a2) && (a2 <? Z.of_nat (width st)));
    [| reflexivity].
  simpl. destruct f0 as [| c rest]; [reflexivity |].
  unfold place_agent.
  repeat match goal with
         | |- context [Ascii.eqb ?a ?b] => destruct (Ascii.eqb a b)
         end; reflexivity.
Qed.

(** A file all of whose rows read is treated as the rows of integers they
    read as. *)
Lemma populate_rows_read (file : list (list string)) (rows : list Row) :
  Forall2 (fun fields row => read_row int fields = Some row) file rows ->
  forall st, Built st ->
    populate_rows int st file
    = match populate st rows with
      | Some st' => Returned st'
      | None => Raised IndexError
      end.
Proof.
  induction 1 as [| fields row file rows Hr _ IH]; intros st B; simpl;
    [reflexivity |].
  unfold read_row in Hr.
  destruct fields as [| f0 [| f1 [| f2 [| f3 [| f4 more]]]]];
    try discriminate.
  destruct (int f1) as [a1 |] eqn:E1; [| discriminate].
  destruct (int f2) as [b1 |] eqn:E2; [| discriminate].
  destruct (int f3) as [a2 |] eqn:E3; [| discriminate].
  destruct (int f4) as [b2 |] eqn:E4; [| discriminate].
  inversion Hr; subst; clear Hr.
  rewrite (populate_fields_row st f0 f1 f2 f3 f4 more a1 b1 a2 b2
             B E1 E2 E3 E4).
  destruct (populate_row st (mkRow f0 a1 b1 a2 b2)) as [st1 |] eqn:P;
    simpl; [| reflexivity].
  apply IH. eapply Built_populate_row; eauto.
Qed.

End Read.

Section Raises.

Variable int : string -> option Z.


End Raises.


(** X6.  A row that [populate] accepts creates one agent, on the cell of its
    start coordinates: of TypeA or TypeB when its first field begins with A or
    B, an obstacle whose destination is its own cell, whatever the row says,
    when it begins with D, and a TypeC agent for any other first letter.  The
    agent joins the end of the list of its class and the other lists are as
    they were. *)
Theorem populate_row_creates (st st' : Grid) (row : Row) (c : ascii)
        (rest : string) :
  Built st -> name row = String c rest ->
  populate_row st row = Some st' ->
  cell (agents st' (allocated st)) = start_cell (width st) (height st) row /\
  (c = "A"%char ->
   kind (agents st' (allocated st)) = TypeA /\
   playerAs st' = playerAs st ++ [allocated st] /\
   playerBs st' = playerBs st /\ playerCs st' = playerCs st /\
   playerDs st' = playerDs st) /\
  (c = "B"%char ->
   kind (agents st' (allocated st)) = TypeB /\
   playerBs st' = playerBs st ++ [allocated st] /\
   playerAs st' = playerAs st /\ playerCs st' = playerCs st /\
   playerDs st' = playerDs st) /\
  (c = "D"%char ->
   kind (agents st' (allocated st)) = TypeD /\
   end_ (agents st' (allocated st)) = cell (agents st' (allocated st)) /\
   playerDs st' = playerDs st ++ [allocated st] /\
   playerAs st' = playerAs st /\ playerBs st' = playerBs st /\
   playerCs st' = playerCs st) /\
  (c <> "A"%char -> c <> "B"%char -> c <> "D"%char ->
   kind (agents st' (allocated st)) = TypeC /\
   move_count (agents st' (allocated st)) = 0%nat /\
   playerCs st' = playerCs st ++ [allocated st] /\
   playerAs st' = playerAs st /\ playerBs st' = playerBs st /\
   playerDs st' = playerDs st) /\
  (c <> "D"%char ->
   end_ (agents st' (allocated st))
   = (x2 row mod Z.of_nat (width st), y2 row mod Z.of_nat (height st))).
Proof.
  intros B Hn Hp.
  destruct (populate_row_effect st st' row B Hp) as (_ & _ & _ & Hc & _).
  split; [exact Hc |].
  revert Hp. unfold populate_row. rewrite !(grid_at_rows _ _ _ B), Hn.
  destruct (indexable (width st) (height st) (x1 row) (y1 row));
    [| discriminate].
  destruct (indexable (width st) (height st) (x2 row) (y2 row));
    [| discriminate].
  destruct (Ascii.eqb_spec c "A") as [-> | HA].
  { intros H; inversion H; subst; clear H. simpl. unfold upd_agent.
    rewrite Nat.eqb_refl. simpl.
    repeat split; intros; try reflexivity; try discriminate;
      try contradiction. }
  destruct (Ascii.eqb_spec c "B") as [-> | HB].
  { intros H; inversion H; subst; clear H. simpl. unfold upd_agent.
    rewrite Nat.eqb_refl. simpl.
    repeat split; intros; try reflexivity; try discriminate;
      try contradiction. }
  destruct (Ascii.eqb_spec c "D") as [-> | HD].
  { intros H; inversion H; subst; clear H. simpl. unfold upd_agent.
    rewrite Nat.eqb_refl. simpl.
    repeat split; intros; try reflexivity; try discriminate;
      try contradiction. }
  intros H; inversion H; subst; clear H. simpl. unfold upd_agent.
  rewrite Nat.eqb_refl. simpl.
  repeat split; intros; try reflexivity; try discriminate;
    try contradiction.
Qed.

Lemma populate_row_creates_witness :
  exists st',
    populate_row (initialize 50 20) (mkRow "Z9" 3 (-1) 49 9) = Some st' /\
    kind (agents st' 0%nat) = TypeC /\
    cell (agents st' 0%nat) = (3, 19).
Proof.
  destruct (populate_row (initialize 50 20) (mkRow "Z9" 3 (-1) 49 9))
    as [st' |] eqn:E; [| vm_compute in E; discriminate].
  exists st'. split; [reflexivity |].
  destruct (populate_row_creates (initialize 50 20) st'
              (mkRow "Z9" 3 (-1) 49 9) "Z"%char "9"
              (Built_initialize 50 20) eq_refl E)
    as (Hc & _ & _ & _ & HC & _).
  split; [| exact Hc].
  apply HC; discriminate.
Defined.

(** ** Populated grids *)

Lemma start_cell_on_grid (w h : nat) (row : Row) :
  indexable w h (x1 row) (y1 row) = true ->
  on_grid w h (start_cell w h row) = true.
Proof.
  unfold indexable, start_cell. rewrite !andb_true_iff, !Z.leb_le, !Z.ltb_lt.
  intros H. apply on_grid_bounds. simpl.
  split; apply Z.mod_pos_bound; lia.
Qed.

Lemma Placed_populate_row (st st' : Grid) (row : Row) :
  Built st -> Placed st -> populate_row st row = Some st' -> Placed st'.
Proof.
  intros B P Hp.
  destruct (populate_row_effect st st' row B Hp)
    as (Hi & _ & _ & Hc & _ & _ & Hag & _ & Hon).
  destruct (same_frame_populate_row st st' row Hp) as (W & H & _).
  intros r Hr. rewrite W, H.
  destruct (Nat.eq_dec r (allocated st)) as [-> | Hne].
  - rewrite Hc. now apply start_cell_on_grid.
  - rewrite (Hag r Hne). apply P. apply Hon in Hr. tauto.
Qed.

Lemma Placed_populate (rows : list Row) (st st' : Grid) :
  Built st -> Placed st -> populate st rows = Some st' -> Placed st'.
Proof.
  revert st. induction rows as [| row rows IH]; intros st B P; simpl.
  - intros H; inversion H; subst; assumption.
  - destruct (populate_row st row) as [st1 |] eqn:E; [| discriminate].
    apply IH; [eapply Built_populate_row | eapply Placed_populate_row]; eauto.
Qed.

Lemma Placed_initialize (w h : nat) : Placed (initialize w h).
Proof.
  intros r [[H | [H | H]] | H]; contradiction.
Qed.

Lemma Sound_scenario (w h : nat) (rows : list Row) :
  Sound (scenario w h rows).
Proof.
  split; [apply WF_scenario | split; [apply Topology_scenario |]].
  unfold scenario.
  destruct (populate (initialize w h) rows) as [st |] eqn:E;
    [| apply Placed_initialize].
  eapply Placed_populate;
    [apply Built_initialize | apply Placed_initialize | exact E].
Qed.



Lemma populate_row_Tight (st st' : Grid) (row : Row) :
  Built st -> Allocated st -> Inv st -> Exact st ->
  occupant (cells st (start_cell (width st) (height st) row)) = None ->
  populate_row st row = Some st' ->
  Inv st' /\ Exact st'.
Proof.
  intros B [Ak Ad] [_ HI] HE Hfree Hp.
  destruct (populate_row_effect st st' row B Hp)
    as (_ & _ & _ & Hc & _ & _ & Hag & Hocc & Hon).
  assert (Hold : forall r, on_board st r -> r <> allocated st).
  { intros r [[H | [H | H]] | H] ->.
    - specialize (Ak PoolA _ H). lia.
    - specialize (Ak PoolB _ H). lia.
    - specialize (Ak PoolC _ H). lia.
    - specialize (Ad _ H). lia. }
  split.
  - apply occupancy_Inv. intros r Hr. rewrite Hocc.
    apply Hon in Hr. destruct Hr as [Hr | ->].
    + rewrite (Hag r (Hold r Hr)).
      destruct (loc_eqb_spec (cell (agents st r))
                             (start_cell (width st) (height st) row))
        as [E | _]; [| now apply HI].
      rewrite <- E, (HI r Hr) in Hfree. discriminate.
    + now rewrite Hc, loc_eqb_refl.
  - intros l p. rewrite Hocc, Hon.
    destruct (loc_eqb_spec l (start_cell (width st) (height st) row))
      as [-> | _].
    + intros H; inversion H; subst. split; [now right | exact Hc].
    + intros H. destruct (HE l p H) as [Hb Hcell].
      split; [now left |]. now rewrite (Hag p (Hold p Hb)).
Qed.

Lemma populate_Tight (rows : list Row) (st st' : Grid) :
  Built st -> Allocated st -> WF st -> Inv st -> Exact st ->
  NoDup (map (start_cell (width st) (height st)) rows) ->
  (forall row, In row rows ->
     occupant (cells st (start_cell (width st) (height st) row)) = None) ->
  populate st rows = Some st' ->
  Inv st' /\ Exact st'.
Proof.
  revert st. induction rows as [| row rows IH];
    intros st B A W HI HE Hnd Hfree; simpl.
  - intros H; inversion H; subst. auto.
  - destruct (populate_row st row) as [st1 |] eqn:E; [| discriminate].
    destruct (populate_row_Tight st st1 row B A HI HE) as [HI1 HE1];
      [apply Hfree; now left | exact E |].
    destruct (populate_row_WF st st1 row A W E) as [A1 W1].
    destruct (populate_row_effect st st1 row B E)
      as (_ & _ & _ & _ & _ & _ & _ & Hocc & _).
    destruct (same_frame_populate_row st st1 row E) as (Wd & Hd & _).
    simpl in Hnd. apply NoDup_cons_iff in Hnd. destruct Hnd as [Hnew Hnd].
    apply IH; try assumption.
    + eapply Built_populate_row; eauto.
    + now rewrite Wd, Hd.
    + intros row' Hin. rewrite Wd, Hd, Hocc.
      destruct (loc_eqb_spec (start_cell (width st) (height st) row')
                             (start_cell (width st) (height st) row))
        as [Eq | _].
      * exfalso. apply Hnew. rewrite <- Eq. now apply in_map.
      * apply Hfree. now right.
Qed.

Lemma Tight_initialize (w h : nat) :
  Inv (initialize w h) /\ Exact (initialize w h).
Proof.
  split.
  - apply occupancy_Inv. intros r [[H | [H | H]] | H]; contradiction.
  - intros l p H. simpl in H. destruct (on_grid w h l); discriminate.
Qed.

Lemma Tight_scenario (w h : nat) (rows : list Row) :
  NoDup (map (start_cell w h) rows) ->
  Inv (scenario w h rows) /\ Exact (scenario w h rows).
Proof.
  intros Hnd. unfold scenario.
  destruct (populate (initialize w h) rows) as [st |] eqn:E;
    [| apply Tight_initialize].
  destruct (Tight_initialize w h) as [HI HE].
  destruct (WF_initialize w h) as [A W].
  eapply (populate_Tight rows (initialize w h)); eauto.
  - apply Built_initialize.
  - intros row _. simpl. now destruct (on_grid w h _).
Qed.

(** X8.  When the rows of the scenario start on pairwise different cells, the
    populated grid has every agent as the occupant of its cell, no cell
    carrying two agents, and no cell recording an occupant that does not stand
    on it. *)
Theorem populate_distinct_starts (w h : nat) (rows : list Row) :
  NoDup (map (start_cell w h) rows) ->
  Good (scenario w h rows) /\ Exact (scenario w h rows).
Proof.
  intros Hnd. destruct (Tight_scenario w h rows Hnd) as [HI HE].
  split; [split; [apply WF_scenario | exact HI] | exact HE].
Qed.

Lemma populate_distinct_starts_witness :
  Good two_tourists /\ Exact two_tourists.
Proof.
  apply (populate_distinct_starts 50 20).
  vm_compute. repeat constructor; simpl; intuition discriminate.
Defined.

(** ** No occupant off its cell *)

Lemma Exact_same_board (st st' : Grid) :
  same_board st st' -> Exact st -> Exact st'.
Proof.
  intros (B & O & C) HE l p. rewrite O, B, C. apply HE.
Qed.

Lemma relocate_Exact (st : Grid) (r : ref) (c : loc) :
  Inv st -> Exact st -> on_board st r -> occupant (cells st c) = None ->
  Exact (relocate st r c).
Proof.
  intros [_ HI] HE Hr Hc l p.
  assert (Or := HI r Hr).
  change (on_board (relocate st r c) p) with (on_board st p).
  unfold relocate. store_simpl; intros H; simpl in *;
    try discriminate;
    try (inversion H; subst; tauto);
    try (destruct (HE _ _ H); split; [assumption | congruence]).
Qed.

Lemma swap_Exact (st : Grid) (r p : ref) (best_choice : loc) :
  Inv st -> Exact st -> on_board st r ->
  occupant (cells st best_choice) = Some p ->
  Exact (swap st r best_choice p).
Proof.
  intros [_ HI] HE Hr Hp l q.
  assert (Or := HI r Hr). destruct (HE _ _ Hp) as [Bp Cp].
  change (on_board (swap st r best_choice p) q) with (on_board st q).
  unfold swap. store_simpl; intros H; simpl in *;
    try discriminate;
    try (inversion H; subst; tauto);
    try (destruct (HE _ _ H); split; [assumption | congruence]);
    try congruence.
Qed.

Lemma in_remove_first_other (a q : ref) (l : list ref) :
  In q l -> q <> a -> In q (remove_first a l).
Proof.
  induction l as [| y l IH]; simpl; [tauto |].
  intros [-> | H] Hne.
  - destruct (Nat.eqb_spec q a); [contradiction | now left].
  - destruct (Nat.eqb_spec y a); [assumption | right; auto].
Qed.

Lemma on_board_kept (k : Pool) (st : Grid) (a q : ref) (l : loc) :
  on_board st q -> q <> a ->
  on_board (retire_from k (set_occupant st l None) a) q.
Proof.
  unfold on_board, active. intros H Hne.
  destruct k; simpl; intuition auto using in_remove_first_other.
Qed.

Lemma clean_body_Exact (k : Pool) (st : Grid) (a : ref) :
  In a (players k st) -> Inv st -> Exact st -> Exact (clean_body k st a).
Proof.
  intros Ha [_ HI] HE. unfold clean_body.
  destruct (arrived k (agents st a)); [| assumption].
  intros l q H.
  assert (Hq : occupant (cells st l) = Some q /\ l <> cell (agents st a)).
  { revert H. destruct k; store_simpl; intros H;
      try discriminate; auto. }
  destruct Hq as [Hq Hl]. destruct (HE l q Hq) as [Bq Cq].
  split.
  - apply on_board_kept; [assumption |]. intros ->. now apply Hl.
  - destruct k; exact Cq.
Qed.

Lemma take_best_Exact (st : Grid) (r : ref) (des : loc) (l : list loc) :
  Inv st -> Exact st -> on_board st r ->
  (forall c, In c l -> occupant (cells st c) = None) ->
  Exact (take_best st r (sorted (choice_pairs des l))).
Proof.
  intros HI HE Hr Hl. unfold take_best.
  destruct (sorted (choice_pairs des l)) as [| [c k] rest] eqn:E;
    [assumption |].
  apply relocate_Exact; try assumption.
  apply Hl. eapply sorted_head_in; eauto.
Qed.

Lemma moveA_Exact (st : Grid) (r : ref) :
  Inv st -> Exact st -> on_board st r -> Exact (moveA st r).
Proof.
  intros HI HE Hr. unfold moveA.
  destruct (moved (agents st r)); [assumption |].
  eapply Exact_same_board; [apply same_board_finish |].
  apply take_best_Exact; try assumption.
  intros c Hc. unfold choicesA in Hc. apply filter_In in Hc.
  destruct Hc as [_ Hc]. rewrite !andb_true_iff in Hc.
  apply unoccupied. tauto.
Qed.

Lemma move2_Exact (st : Grid) (r : ref) :
  Inv st -> Exact st -> on_board st r -> Exact (move2 st r).
Proof.
  intros HI HE Hr. unfold move2.
  destruct (moved (agents st r)); [assumption |].
  eapply Exact_same_board; [apply same_board_finish |].
  apply take_best_Exact; try assumption.
  intros c Hc. unfold choicesC2 in Hc. apply filter_In in Hc.
  destruct Hc as [_ Hc]. rewrite !andb_true_iff in Hc.
  apply unoccupied. tauto.
Qed.

Lemma move3_Exact (st : Grid) (r : ref) : Exact st -> Exact (move3 st r).
Proof.
  apply Exact_same_board. unfold move3.
  eapply same_board_trans; [apply same_board_logged |].
  apply same_board_counted.
Qed.

Lemma move1_Exact (rnd : nat -> nat) (st : Grid) (r : ref) :
  Inv st -> Exact st -> on_board st r -> Exact (move1 rnd st r).
Proof.
  intros HI HE Hr. unfold move1.
  eapply Exact_same_board; [apply same_board_counted |].
  destruct (filter _ _) as [| c0 cs] eqn:E; [assumption |].
  eapply Exact_same_board; [apply same_board_logged |].
  set (c := nth _ _ _).
  assert (Hc : In c (c0 :: cs)).
  { apply nth_In. apply Nat.mod_upper_bound. simpl. discriminate. }
  rewrite <- E in Hc. apply filter_In in Hc. destruct Hc as [_ Hc].
  apply unoccupied in Hc.
  apply relocate_Exact.
  - eapply Inv_same_board; [apply same_board_with_draws | assumption].
  - eapply Exact_same_board; [apply same_board_with_draws | assumption].
  - exact Hr.
  - exact Hc.
Qed.

Lemma moveB_Exact (rnd : nat -> nat) (st st' : Grid) (r : ref) :
  Inv st -> Exact st -> on_board st r -> moveB rnd st r = Some st' ->
  Exact st'.
Proof.
  intros HI HE Hr. unfold moveB.
  destruct (moved (agents st r)).
  { intros H; inversion H; subst; assumption. }
  destruct (best_choice_of st r) as [bc |]; [| discriminate].
  intros H; inversion H; subst; clear H.
  eapply Exact_same_board; [apply same_board_finish |].
  destruct (occupant (cells st bc)) as [p |] eqn:Ep.
  - assert (B := same_board_check_swap rnd st p (cell (agents st r))).
    destruct (check_swap rnd st p (cell (agents st r))) as [ok st1].
    simpl in B.
    assert (HI1 : Inv st1) by (eapply Inv_same_board; eauto).
    assert (HE1 : Exact st1) by (eapply Exact_same_board; eauto).
    destruct (ok && negb (String.eqb (symbol (agents st1 p)) "D"));
      [| assumption].
    destruct B as (B & O & _).
    apply swap_Exact; [assumption | assumption | now apply B | now rewrite O].
  - now apply relocate_Exact.
Qed.

Section Tightness.

Variable rnd : nat -> nat.
Variable shuffle : nat -> list ref -> list ref.
Hypothesis shuffle_permutes : forall n l, Permutation (shuffle n l) l.

Lemma operation_Tight (st st' : Grid) :
  Good st /\ Exact st -> operation rnd shuffle st st' ->
  Good st' /\ Exact st'.
Proof.
  intros [G HE] Hop.
  split; [eapply (operation_Good rnd shuffle); eauto |].
  destruct G as [W HI].
  destruct Hop as [k st | st a Ha | st st' b Hb Hm | st c Hc | st c Hc
                  | st c Hc | st | st r Hr | st].
  - eapply Exact_same_board; [| exact HE].
    now apply same_board_shuffle_players.
  - apply moveA_Exact; auto. apply (on_board_players st PoolA a Ha).
  - eapply moveB_Exact; eauto. apply (on_board_players st PoolB b Hb).
  - apply move1_Exact; auto. apply (on_board_players st PoolC c Hc).
  - apply move2_Exact; auto. apply (on_board_players st PoolC c Hc).
  - now apply move3_Exact.
  - assert (T : Good (clean_up st) /\ Exact (clean_up st)); [| tauto].
    apply (clean_up_keeps (fun s => Good s /\ Exact s));
      [| split; [split |]; assumption].
    intros k s a Ha [Gs Es]. split; [now apply clean_body_Good |].
    apply clean_body_Exact; [assumption | apply Gs | assumption].
  - eapply Exact_same_board; [apply same_board_set_moved | exact HE].
  - eapply Exact_same_board; [apply same_board_with_turn | exact HE].
Qed.

Lemma reaches_Tight (st st' : Grid) :
  Good st /\ Exact st -> reaches rnd shuffle st st' -> Good st' /\ Exact st'.
Proof.
  apply (reaches_keeps rnd shuffle (fun s => Good s /\ Exact s)).
  intros s s'. apply operation_Tight.
Qed.

(** X9.  From a state in which, besides every agent of the board being the
    occupant of its cell, every occupant a cell records is an agent of the
    board standing on that cell, every operation of a turn, every turn and
    every run lead to such a state: no move, swap or [clean_up] leaves a cell
    pointing at an agent that has left it. *)
Theorem no_stale_occupant (st : Grid) :
  Good st -> Exact st ->
  (forall st', operation rnd shuffle st st' -> Exact st') /\
  (forall st', reaches rnd shuffle st st' -> Exact st') /\
  (forall Nturn st', run rnd shuffle st Nturn = Some st' -> Exact st').
Proof.
  intros G HE. split; [| split].
  - intros st' Hop. now apply (operation_Tight st st').
  - intros st' R. now apply (reaches_Tight st st').
  - intros Nturn st' H. apply (reaches_Tight st st'); [now split |].
    eapply reaches_play_turns, H.
Qed.


End Tightness.

Lemma no_stale_occupant_witness :
  Good two_tourists /\ Exact two_tourists /\
  Exact (clean_up two_tourists).
Proof.
  destruct (Tight_scenario 50 20
              [mkRow "C1" 0 7 49 9; mkRow "C2" 0 8 49 10]) as [HI HE].
  { vm_compute. repeat constructor; simpl; intuition discriminate. }
  assert (G : Good two_tourists) by (split; [apply WF_scenario | exact HI]).
  split; [exact G | split; [exact HE |]].
  apply (proj1 (no_stale_occupant draw_zero keep_order keep_order_permutes
                  two_tourists G HE)).
  apply op_clean_up.
Defined.


(** ** The lists and the turn counter during the moves *)

Ltac same_books_by_computation :=
  unfold same_books;
  repeat match goal with |- _ /\ _ => split end;
  try (intros []); reflexivity.

Lemma same_books_refl (st : Grid) : same_books st st.
Proof. same_books_by_computation. Qed.

Lemma same_books_trans (st1 st2 st3 : Grid) :
  same_books st1 st2 -> same_books st2 st3 -> same_books st1 st3.
Proof.
  intros (P1 & F1 & D1 & T1 & G1) (P2 & F2 & D2 & T2 & G2).
  unfold same_books.
  split; [intros k; now rewrite P2, P1 |].
  split; [intros k; now rewrite F2, F1 |].
  repeat split; congruence.
Qed.

Lemma same_books_moveA (st : Grid) (r : ref) : same_books st (moveA st r).
Proof.
  unfold moveA, take_best. destruct (moved (agents st r));
    [apply same_books_refl |].
  destruct (sorted _) as [| [c ?] ?]; same_books_by_computation.
Qed.

Lemma same_books_move2 (st : Grid) (r : ref) : same_books st (move2 st r).
Proof.
  unfold move2, take_best. destruct (moved (agents st r));
    [apply same_books_refl |].
  destruct (sorted _) as [| [c ?] ?]; same_books_by_computation.
Qed.

Lemma same_books_move3 (st : Grid) (r : ref) : same_books st (move3 st r).
Proof. same_books_by_computation. Qed.

Lemma same_books_move1 (rnd : nat -> nat) (st : Grid) (r : ref) :
  same_books st (move1 rnd st r).
Proof.
  unfold move1. destruct (filter _ _); same_books_by_computation.
Qed.

Lemma same_books_moveC (rnd : nat -> nat) (t Nturn : nat) (st : Grid)
      (r : ref) :
  same_books st (moveC rnd t Nturn st r).
Proof.
  unfold moveC.
  repeat match goal with
         | |- context [if ?b then _ else _] => destruct b
         end;
    auto using same_books_move1, same_books_move2, same_books_move3,
               same_books_refl.
Qed.

Lemma same_books_check_swap (rnd : nat -> nat) (st : Grid) (p : ref)
      (c : loc) :
  same_books st (snd (check_swap rnd st p c)).
Proof.
  unfold check_swap, check_swapA, check_swapB, check_swapC, check_swapD.
  destruct (kind (agents st p));
    try match goal with
        | |- context [if ?b then _ else _] => destruct b
        end; same_books_by_computation.
Qed.

Lemma same_books_moveB (rnd : nat -> nat) (st st' : Grid) (r : ref) :
  moveB rnd st r = Some st' -> same_books st st'.
Proof.
  unfold moveB.
  destruct (moved (agents st r)).
  { intros H; inversion H. apply same_books_refl. }
  destruct (best_choice_of st r) as [bc |]; [| discriminate].
  intros H; inversion H; subst; clear H.
  destruct (occupant (cells st bc)) as [p |].
  - assert (E := same_books_check_swap rnd st p (cell (agents st r))).
    destruct (check_swap rnd st p (cell (agents st r))) as [ok st1].
    simpl in E. eapply same_books_trans; [exact E |].
    destruct (ok && negb (String.eqb (symbol (agents st1 p)) "D"));
      same_books_by_computation.
  - same_books_by_computation.
Qed.

Lemma same_books_reset (st : Grid) (r : ref) : same_books st (reset st r).
Proof. same_books_by_computation. Qed.

(** ** Nobody is lost between the active and the finished lists *)

Lemma Permutation_remove_first (a : ref) (l : list ref) :
  In a l -> Permutation (a :: remove_first a l) l.
Proof.
  induction l as [| y l IH]; simpl; [contradiction |].
  destruct (Nat.eqb_spec y a) as [-> | Hne]; [reflexivity |].
  intros [E | H]; [contradiction |].
  rewrite perm_swap. constructor. now apply IH.
Qed.

Lemma clean_body_lists (k k' : Pool) (st : Grid) (a : ref) :
  In a (players k st) ->
  Permutation (players k' (clean_body k st a) ++
               finished k' (clean_body k st a))
              (players k' st ++ finished k' st) /\
  (exists more, finished k' (clean_body k st a) = finished k' st ++ more) /\
  playerDs (clean_body k st a) = playerDs st /\
  turn (clean_body k st a) = turn st.
Proof.
  intros Ha. unfold clean_body.
  destruct (arrived k (agents st a)).
  - assert (P : forall l f,
               In a l ->
               Permutation (remove_first a l ++ f ++ [a]) (l ++ f)).
    { intros l f Hl. rewrite app_assoc, <- Permutation_cons_append.
      simpl. rewrite app_comm_cons. apply Permutation_app_tail.
      now apply Permutation_remove_first. }
    repeat split; try (destruct k; reflexivity).
    + destruct k, k'; simpl; try reflexivity; now apply P.
    + destruct k, k'; simpl;
        first [now exists [a] | exists []; now rewrite app_nil_r].
  - repeat split; try reflexivity. exists []. now rewrite app_nil_r.
Qed.

Section Lists.

Variable rnd : nat -> nat.
Variable shuffle : nat -> list ref -> list ref.
Hypothesis shuffle_permutes : forall n l, Permutation (shuffle n l) l.

Lemma operation_lists (st0 st st' : Grid) :
  (forall k,
     Permutation (players k st ++ finished k st)
                 (players k st0 ++ finished k st0) /\
     (exists more, finished k st = finished k st0 ++ more)) /\
  playerDs st = playerDs st0 ->
  operation rnd shuffle st st' ->
  (forall k,
     Permutation (players k st' ++ finished k st')
                 (players k st0 ++ finished k st0) /\
     (exists more, finished k st' = finished k st0 ++ more)) /\
  playerDs st' = playerDs st0.
Proof.
  intros H Hop.
  assert (Books : forall s', same_books st s' ->
    (forall k,
       Permutation (players k s' ++ finished k s')
                   (players k st0 ++ finished k st0) /\
       (exists more, finished k s' = finished k st0 ++ more)) /\
    playerDs s' = playerDs st0).
  { intros s' (P & F & D & _). destruct H as [H HD].
    split; [| congruence].
    intros k. rewrite P, F. apply H. }
  destruct Hop as [k st | st a Ha | st st' b Hb Hm | st c Hc | st c Hc
                  | st c Hc | st | st r Hr | st].
  - destruct H as [H HD]. split; [| destruct k; exact HD].
    intros k'. destruct (H k') as [HP HF].
    split; [| destruct k, k'; exact HF].
    etransitivity; [| exact HP].
    destruct k, k'; simpl; try reflexivity;
      apply Permutation_app_tail, shuffle_permutes.
  - apply Books, same_books_moveA.
  - eapply Books, same_books_moveB, Hm.
  - apply Books, same_books_move1.
  - apply Books, same_books_move2.
  - apply Books, same_books_move3.
  - apply (clean_up_keeps (fun s =>
      (forall k,
         Permutation (players k s ++ finished k s)
                     (players k st0 ++ finished k st0) /\
         (exists more, finished k s = finished k st0 ++ more)) /\
      playerDs s = playerDs st0)); [| exact H].
    intros k s a Ha [Hs HD].
    destruct (clean_body_lists k k s a Ha) as (_ & _ & D & _).
    split; [| congruence].
    intros k'. destruct (Hs k') as [HP [more HF]].
    destruct (clean_body_lists k k' s a Ha) as (P' & [more' F'] & _).
    split.
    + etransitivity; eauto.
    + exists (more ++ more'). now rewrite F', HF, app_assoc.
  - apply Books, same_books_reset.
  - destruct H as [H HD]. split; [| exact HD].
    intros []; [apply (H PoolA) | apply (H PoolB) | apply (H PoolC)].
Qed.

(** X11.  Along a run no agent is lost or doubled: for each class the active
    list followed by the finished list is, in every state reached, a
    rearrangement of what it was; the finished list only grows at its end; the
    list of obstacles is never touched. *)
Theorem lists_partition_agents (st st' : Grid) :
  reaches rnd shuffle st st' ->
  (forall k,
     Permutation (players k st' ++ finished k st')
                 (players k st ++ finished k st) /\
     (exists more, finished k st' = finished k st ++ more)) /\
  playerDs st' = playerDs st.
Proof.
  apply (reaches_keeps rnd shuffle (fun s =>
    (forall k,
       Permutation (players k s ++ finished k s)
                   (players k st ++ finished k st) /\
       (exists more, finished k s = finished k st ++ more)) /\
    playerDs s = playerDs st)).
  - intros s s'. apply operation_lists.
  - split; [| reflexivity]. intros k. split; [reflexivity |].
    exists []. now rewrite app_nil_r.
Qed.

End Lists.

Lemma lists_partition_agents_witness :
  Permutation (playerAs (clean_up two_arrived_movers)
               ++ finishedAs (clean_up two_arrived_movers))
              (playerAs two_arrived_movers ++ finishedAs two_arrived_movers).
Proof.
  exact (proj1 (proj1 (lists_partition_agents draw_zero keep_order
                         keep_order_permutes
                         two_arrived_movers (clean_up two_arrived_movers)
                         (reaches_one _ _ _ _ (op_clean_up _ _ _))) PoolA)).
Defined.

(** ** What [clean_up] leaves and takes *)

Lemma remove_first_middle (a : ref) (pre rest : list ref) :
  ~ In a pre -> remove_first a (pre ++ a :: rest) = pre ++ rest.
Proof.
  induction pre as [| y pre IH]; simpl; intros H.
  - now rewrite Nat.eqb_refl.
  - destruct (Nat.eqb_spec y a) as [-> | _]; [tauto |].
    f_equal. apply IH. tauto.
Qed.

Lemma players_retire_from (k : Pool) (st : Grid) (a : ref) :
  players k (retire_from k st a) = remove_first a (players k st) /\
  finished k (retire_from k st a) = finished k st ++ [a].
Proof. destruct k; split; reflexivity. Qed.

Lemma clean_loop_lists (k : Pool) (g : ref -> bool) (n : nat) :
  forall (rest pre : list ref) (st : Grid) (fuel : nat),
    (List.length rest <= n)%nat ->
    players k st = pre ++ rest ->
    NoDup (pre ++ rest) ->
    (forall a, arrived k (agents st a) = g a) ->
    (List.length rest <= fuel)%nat ->
    players k (clean_loop k fuel (List.length pre) st)
      = pre ++ survivors g rest /\
    finished k (clean_loop k fuel (List.length pre) st)
      = finished k st ++ retired g rest.
Proof.
  induction n as [| n IH]; intros rest pre st fuel Hn Hp Hnd Hg Hf.
  - destruct rest; [| simpl in Hn; lia]. simpl.
    rewrite !app_nil_r in *.
    assert (E : clean_loop k fuel (List.length pre) st = st).
    { destruct fuel; [reflexivity |]. simpl clean_loop.
      assert (N : nth_error (players k st) (List.length pre) = None)
        by (apply nth_error_None; rewrite Hp; lia).
      now rewrite N. }
    now rewrite E.
  - destruct rest as [| a rest'].
    { apply (IH [] pre st fuel); simpl; auto; lia. }
    destruct fuel as [| fuel]; [simpl in Hf; lia |].
    simpl clean_loop.
    assert (N : nth_error (players k st) (List.length pre) = Some a).
    { rewrite Hp, nth_error_app2, Nat.sub_diag by lia. reflexivity. }
    rewrite N. unfold clean_body. rewrite Hg.
    assert (Hpre : ~ In a pre).
    { intros Hin. apply NoDup_remove_2 in Hnd. apply Hnd.
      apply in_or_app. now left. }
    simpl survivors. simpl retired.
    destruct (g a) eqn:Ea.
    + set (st1 := retire_from k (set_occupant st (cell (agents st a)) None) a).
      assert (P1 : players k st1 = pre ++ rest').
      { unfold st1. rewrite (proj1 (players_retire_from k _ a)).
        replace (players k (set_occupant st (cell (agents st a)) None))
          with (players k st) by (destruct k; reflexivity).
        rewrite Hp. now apply remove_first_middle. }
      assert (F1 : finished k st1 = finished k st ++ [a]).
      { unfold st1. rewrite (proj2 (players_retire_from k _ a)).
        destruct k; reflexivity. }
      assert (G1 : forall x, arrived k (agents st1 x) = g x).
      { intros x. replace (agents st1) with (agents st); [apply Hg |].
        unfold st1. destruct k; reflexivity. }
      clearbody st1.
      destruct rest' as [| b rest''].
      * assert (E : clean_loop k fuel (S (List.length pre)) st1 = st1).
        { destruct fuel; [reflexivity |]. cbn [clean_loop].
          assert (N1 : nth_error (players k st1) (S (List.length pre)) = None)
            by (apply nth_error_None; rewrite P1, app_nil_r; lia).
          now rewrite N1. }
        rewrite E, P1, F1. auto.
      * replace (S (List.length pre)) with (List.length (pre ++ [b]))
          by (rewrite length_app; simpl; lia).
        destruct (IH rest'' (pre ++ [b]) st1 fuel) as [HP HF].
        { simpl in Hn. lia. }
        { rewrite P1, <- app_assoc. reflexivity. }
        { apply NoDup_remove_1 in Hnd. now rewrite <- app_assoc. }
        { exact G1. }
        { simpl in Hf. lia. }
        rewrite HP, HF, F1, <- !app_assoc. auto.
    + replace (S (List.length pre)) with (List.length (pre ++ [a]))
        by (rewrite length_app; simpl; lia).
      destruct (IH rest' (pre ++ [a]) st fuel) as [HP HF].
      { simpl in Hn. lia. }
      { rewrite Hp, <- app_assoc. reflexivity. }
      { now rewrite <- app_assoc. }
      { exact Hg. }
      { simpl in Hf. lia. }
      rewrite HP, HF, <- !app_assoc. auto.
Qed.

Lemma clean_pool_lists (k : Pool) (st : Grid) :
  NoDup (players k st) ->
  players k (clean_pool k st)
    = survivors (fun a => arrived k (agents st a)) (players k st) /\
  finished k (clean_pool k st)
    = finished k st
      ++ retired (fun a => arrived k (agents st a)) (players k st).
Proof.
  intros Hnd. unfold clean_pool.
  apply (clean_loop_lists k _ (List.length (players k st))
           (players k st) [] st); auto.
Qed.

Lemma clean_pool_other (k k' : Pool) (st : Grid) :
  k <> k' ->
  players k (clean_pool k' st) = players k st /\
  finished k (clean_pool k' st) = finished k st.
Proof.
  intros Hne. unfold clean_pool.
  apply (clean_loop_keeps
           (fun s => players k s = players k st /\
                     finished k s = finished k st)); [| auto].
  intros s a _ [P F]. unfold clean_body.
  destruct (arrived k' (agents s a)); [| auto].
  destruct k, k'; try contradiction; simpl in *; auto.
Qed.

Lemma agents_clean_pool (k : Pool) (st : Grid) :
  agents (clean_pool k st) = agents st.
Proof.
  unfold clean_pool.
  apply (clean_loop_keeps (fun s => agents s = agents st)); [| reflexivity].
  intros s a _ H. now rewrite agents_clean_body.
Qed.

Lemma retired_gone (g : ref -> bool) (n : nat) :
  forall l a, (List.length l <= n)%nat -> In a (retired g l) -> g a = true.
Proof.
  induction n as [| n IH]; intros l a Hn; destruct l as [| x l];
    simpl in *; try tauto; try lia.
  destruct (g x) eqn:E.
  - intros [<- | H]; [exact E |].
    destruct l as [| y l]; [contradiction |].
    apply (IH l); [simpl in Hn; lia | exact H].
  - apply IH. lia.
Qed.

Lemma survivors_keep (g : ref -> bool) (n : nat) :
  forall l a, (List.length l <= n)%nat ->
    In a l -> g a = false -> In a (survivors g l).
Proof.
  induction n as [| n IH]; intros l a Hn; destruct l as [| x l];
    simpl in *; try tauto; try lia.
  intros [-> | H] Ha.
  - rewrite Ha. now left.
  - destruct (g x).
    + destruct l as [| y l]; [contradiction |].
      destruct H as [-> | H]; [now left | right].
      apply (IH l); [simpl in Hn; lia | assumption | assumption].
    + right. apply IH; [lia | assumption | assumption].
Qed.

(** X12.  One [clean_up] on well-formed lists is this and nothing else: in
    each active list, going from the front, an agent that has not arrived
    stays, an agent that has arrived is moved to the end of the finished list
    and the agent right behind it stays without being looked at.  So every
    agent retired had arrived, and no agent that had not arrived is retired. *)
Theorem clean_up_steps_over (st : Grid) (k : Pool) :
  WF st ->
  players k (clean_up st)
    = survivors (fun a => arrived k (agents st a)) (players k st) /\
  finished k (clean_up st)
    = finished k st
      ++ retired (fun a => arrived k (agents st a)) (players k st) /\
  (forall a, In a (retired (fun a => arrived k (agents st a)) (players k st))
             -> arrived k (agents st a) = true) /\
  (forall a, In a (players k st) -> arrived k (agents st a) = false ->
             In a (players k (clean_up st))).
Proof.
  intros W.
  assert (L : players k (clean_up st)
              = survivors (fun a => arrived k (agents st a)) (players k st) /\
              finished k (clean_up st)
              = finished k st
                ++ retired (fun a => arrived k (agents st a)) (players k st)).
  { unfold clean_up.
    assert (AA : agents (clean_pool PoolA st) = agents st)
      by apply agents_clean_pool.
    assert (AB : agents (clean_pool PoolB (clean_pool PoolA st)) = agents st)
      by now rewrite agents_clean_pool.
    destruct k.
    - destruct (clean_pool_other PoolA PoolC
                  (clean_pool PoolB (clean_pool PoolA st))) as [E1 E2];
        [discriminate |].
      destruct (clean_pool_other PoolA PoolB (clean_pool PoolA st))
        as [E3 E4]; [discriminate |].
      rewrite E1, E2, E3, E4.
      apply clean_pool_lists, (WF_NoDup st PoolA W).
    - destruct (clean_pool_other PoolB PoolC
                  (clean_pool PoolB (clean_pool PoolA st))) as [E1 E2];
        [discriminate |].
      destruct (clean_pool_other PoolB PoolA st) as [PA FA];
        [discriminate |].
      destruct (clean_pool_lists PoolB (clean_pool PoolA st)) as [HP HF].
      { rewrite PA. apply (WF_NoDup st PoolB W). }
      rewrite E1, E2, HP, HF, PA, FA, AA. auto.
    - destruct (clean_pool_other PoolC PoolA st) as [PA FA];
        [discriminate |].
      destruct (clean_pool_other PoolC PoolB (clean_pool PoolA st))
        as [PB FB]; [discriminate |].
      destruct (clean_pool_lists PoolC
                  (clean_pool PoolB (clean_pool PoolA st))) as [HP HF].
      { rewrite PB, PA. apply (WF_NoDup st PoolC W). }
      rewrite HP, HF, PB, FB, PA, FA, AB. auto. }
  destruct L as [LP LF].
  split; [exact LP | split; [exact LF | split]].
  - intros a Ha.
    apply (retired_gone (fun a => arrived k (agents st a))
             (List.length (players k st)) (players k st) a); [lia | exact Ha].
  - intros a Ha Hg. rewrite LP.
    apply (survivors_keep (fun a => arrived k (agents st a))
             (List.length (players k st)) (players k st) a); auto.
Qed.

Lemma clean_up_steps_over_witness :
  WF two_arrived_movers /\
  playerAs (clean_up two_arrived_movers)
  = survivors (fun a => arrived PoolA (agents two_arrived_movers a))
              (playerAs two_arrived_movers).
Proof.
  assert (W : WF two_arrived_movers) by apply WF_scenario.
  split; [exact W |].
  exact (proj1 (clean_up_steps_over two_arrived_movers PoolA W)).
Defined.

(** ** One cell at a time *)

Lemma chebyshev_refl (a : loc) : chebyshev a a = 0.
Proof. now apply chebyshev_zero. Qed.

Lemma chebyshev_sym (a b : loc) : chebyshev a b = chebyshev b a.
Proof. unfold chebyshev. lia. Qed.

Lemma adjacent_near (st : Grid) (l c : loc) :
  Topology st -> on_grid (width st) (height st) l = true ->
  In c (adjacent (cells st l)) -> chebyshev l c <= 1.
Proof.
  intros T Hl Hc. rewrite (topology_adjacent st l T Hl) in Hc.
  apply filter_In in Hc. destruct Hc as [Hc _].
  apply in_around in Hc. unfold chebyshev. lia.
Qed.

Lemma one_step_apart_refl (st : Grid) : one_step_apart st st.
Proof. intros r. rewrite chebyshev_refl. lia. Qed.

Lemma one_step_apart_same_board (st st1 st2 : Grid) :
  one_step_apart st st1 -> same_board st1 st2 -> one_step_apart st st2.
Proof. intros H (_ & _ & C) r. rewrite C. apply H. Qed.

Lemma one_step_apart_relocate (st : Grid) (r : ref) (c : loc) :
  chebyshev (cell (agents st r)) c <= 1 ->
  one_step_apart st (relocate st r c).
Proof.
  intros Hc r'. unfold relocate. store_simpl;
    rewrite ?chebyshev_refl; simpl in *; try lia; assumption.
Qed.

Lemma one_step_apart_swap (st : Grid) (r p : ref) (best_choice : loc) :
  chebyshev (cell (agents st r)) best_choice <= 1 ->
  cell (agents st p) = best_choice ->
  one_step_apart st (swap st r best_choice p).
Proof.
  intros Hc Hp r'. unfold swap. store_simpl;
    rewrite ?chebyshev_refl; simpl in *; try lia; try assumption.
  rewrite chebyshev_sym. assumption.
Qed.

Lemma one_step_apart_take_best (st : Grid) (r : ref) (des : loc)
      (l : list loc) :
  (forall c, In c l -> chebyshev (cell (agents st r)) c <= 1) ->
  one_step_apart st (take_best st r (sorted (choice_pairs des l))).
Proof.
  intros Hl. unfold take_best.
  destruct (sorted (choice_pairs des l)) as [| [c k] rest] eqn:E;
    [apply one_step_apart_refl |].
  apply one_step_apart_relocate, Hl. eapply sorted_head_in; eauto.
Qed.

Lemma one_step_apart_moveA (st : Grid) (r : ref) :
  Topology st -> on_grid (width st) (height st) (cell (agents st r)) = true ->
  one_step_apart st (moveA st r).
Proof.
  intros T Hr. unfold moveA.
  destruct (moved (agents st r)); [apply one_step_apart_refl |].
  eapply one_step_apart_same_board; [| apply same_board_finish].
  apply one_step_apart_take_best.
  intros c Hc. unfold choicesA in Hc. apply filter_In in Hc.
  apply (adjacent_near st); tauto.
Qed.

Lemma one_step_apart_move2 (st : Grid) (r : ref) :
  Topology st -> on_grid (width st) (height st) (cell (agents st r)) = true ->
  one_step_apart st (move2 st r).
Proof.
  intros T Hr. unfold move2.
  destruct (moved (agents st r)); [apply one_step_apart_refl |].
  eapply one_step_apart_same_board; [| apply same_board_finish].
  apply one_step_apart_take_best.
  intros c Hc. unfold choicesC2 in Hc. apply filter_In in Hc.
  apply (adjacent_near st); tauto.
Qed.

Lemma one_step_apart_move1 (rnd : nat -> nat) (st : Grid) (r : ref) :
  Topology st -> on_grid (width st) (height st) (cell (agents st r)) = true ->
  one_step_apart st (move1 rnd st r).
Proof.
  intros T Hr. unfold move1.
  eapply one_step_apart_same_board; [| apply same_board_counted].
  destruct (filter _ _) as [| c0 cs] eqn:E; [apply one_step_apart_refl |].
  eapply one_step_apart_same_board; [| apply same_board_logged].
  set (c := nth _ _ _).
  assert (Hc : In c (c0 :: cs)).
  { apply nth_In. apply Nat.mod_upper_bound. simpl. discriminate. }
  rewrite <- E in Hc. apply filter_In in Hc. destruct Hc as [Hc _].
  assert (N := adjacent_near st _ c T Hr Hc).
  intros r'.
  assert (R := one_step_apart_relocate (with_draws st (S (draws st))) r c N r').
  exact R.
Qed.

Lemma one_step_apart_moveB (rnd : nat -> nat) (st st' : Grid) (r : ref) :
  Topology st -> Exact st ->
  on_grid (width st) (height st) (cell (agents st r)) = true ->
  moveB rnd st r = Some st' -> one_step_apart st st'.
Proof.
  intros T HE Hr. unfold moveB.
  destruct (moved (agents st r)).
  { intros H; inversion H; subst. apply one_step_apart_refl. }
  destruct (best_choice_of st r) as [bc |] eqn:Eb; [| discriminate].
  intros H; inversion H; subst; clear H.
  assert (N : chebyshev (cell (agents st r)) bc <= 1).
  { apply (adjacent_near st); auto. now apply best_choice_of_adjacent. }
  eapply one_step_apart_same_board; [| apply same_board_finish].
  destruct (occupant (cells st bc)) as [p |] eqn:Ep.
  - assert (B := same_board_check_swap rnd st p (cell (agents st r))).
    destruct (check_swap rnd st p (cell (agents st r))) as [ok st1].
    simpl in B.
    destruct (ok && negb (String.eqb (symbol (agents st1 p)) "D")).
    + destruct B as (_ & _ & C). intros r'.
      assert (S1 := one_step_apart_swap st1 r p bc).
      rewrite !C in S1. specialize (S1 N (proj2 (HE _ _ Ep)) r').
      rewrite C in S1. exact S1.
    + eapply one_step_apart_same_board; [apply one_step_apart_refl | exact B].
  - now apply one_step_apart_relocate.
Qed.

Section Steps_of_one.

Variable rnd : nat -> nat.
Variable shuffle : nat -> list ref -> list ref.
Hypothesis shuffle_permutes : forall n l, Permutation (shuffle n l) l.

(** X13.  On an initialized grid with its agents on it, in a state where
    occupants and agents correspond, no operation of a turn takes any agent
    further than one cell, diagonals included, from where it stood: a walk
    goes to an adjacent cell and a swap exchanges two adjacent agents. *)
Theorem operation_moves_one_cell (st st' : Grid) :
  Topology st -> Placed st -> Exact st ->
  operation rnd shuffle st st' ->
  one_step_apart st st'.
Proof.
  intros T P HE Hop.
  destruct Hop as [k st | st a Ha | st st' b Hb Hm | st c Hc | st c Hc
                  | st c Hc | st | st r Hr | st].
  - intros r. replace (agents (shuffle_players shuffle k st)) with (agents st)
      by (destruct k; reflexivity).
    rewrite chebyshev_refl. lia.
  - apply one_step_apart_moveA; auto.
    apply P, (on_board_players st PoolA a Ha).
  - eapply one_step_apart_moveB; eauto.
    apply P, (on_board_players st PoolB b Hb).
  - apply one_step_apart_move1; auto.
    apply P, (on_board_players st PoolC c Hc).
  - apply one_step_apart_move2; auto.
    apply P, (on_board_players st PoolC c Hc).
  - eapply one_step_apart_same_board; [apply one_step_apart_refl |].
    unfold move3. eapply same_board_trans; [apply same_board_logged |].
    apply same_board_counted.
  - intros r. rewrite agents_clean_up, chebyshev_refl. lia.
  - eapply one_step_apart_same_board;
      [apply one_step_apart_refl | apply same_board_set_moved].
  - eapply one_step_apart_same_board;
      [apply one_step_apart_refl | apply same_board_with_turn].
Qed.

End Steps_of_one.

Lemma operation_moves_one_cell_witness :
  Topology two_tourists /\ Placed two_tourists /\ Exact two_tourists /\
  one_step_apart two_tourists (move2 two_tourists 0%nat).
Proof.
  destruct (Sound_scenario 50 20
              [mkRow "C1" 0 7 49 9; mkRow "C2" 0 8 49 10]) as (_ & T & P).
  destruct (Tight_scenario 50 20
              [mkRow "C1" 0 7 49 9; mkRow "C2" 0 8 49 10]) as [_ HE].
  { vm_compute. repeat constructor; simpl; intuition discriminate. }
  split; [exact T | split; [exact P | split; [exact HE |]]].
  apply (operation_moves_one_cell draw_zero keep_order two_tourists _ T P HE).
  apply op_move2. vm_compute. auto.
Defined.

(** ** Where a TypeB agent can end its move *)

Lemma snapped_in_choicesB (st : Grid) (r : ref) :
  Topology st ->
  on_grid (width st) (height st) (cell (agents st r)) = true ->
  on_grid (width st) (height st) (end_ (agents st r)) = true ->
  cell (agents st r) <> end_ (agents st r) ->
  In (shortest_path (cell (agents st r)) (end_ (agents st r)))
     (choicesB st r).
Proof.
  intros T Hc He Hne.
  apply (in_choicesB st r _ T Hc).
  destruct (shortest_path_chebyshev _ _ Hne) as [H1 H2].
  assert (Hfix := shortest_path_fixed (cell (agents st r)) (end_ (agents st r))).
  split; [| split].
  - apply in_around. unfold chebyshev in H1. lia.
  - apply on_grid_bounds in Hc, He. apply on_grid_bounds.
    unfold shortest_path.
    destruct (loc_eqb_spec (cell (agents st r)) (end_ (agents st r)));
      [contradiction |].
    destruct (cell (agents st r)) as [x y], (end_ (agents st r)) as [ex ey].
    cbn [fst snd] in *.
    destruct (Z.sgn_spec (ex - x)) as [[? ->] | [[? ->] | [? ->]]];
    destruct (Z.sgn_spec (ey - y)) as [[? ->] | [[? ->] | [? ->]]]; lia.
  - intros E. apply Hne, Hfix, E.
Qed.

Lemma best_choice_snapped (st : Grid) (r : ref) :
  Topology st ->
  on_grid (width st) (height st) (cell (agents st r)) = true ->
  on_grid (width st) (height st) (end_ (agents st r)) = true ->
  moved (agents st r) = false ->
  cell (agents st r) <> end_ (agents st r) ->
  best_choice_of st r
  = Some (shortest_path (cell (agents st r)) (end_ (agents st r))).
Proof.
  intros T Hc He Hm Hne.
  assert (Hs := snapped_in_choicesB st r T Hc He Hne).
  destruct (sorted_head_strict (end_ (agents st r)) (choicesB st r)
              (shortest_path (cell (agents st r)) (end_ (agents st r))) Hs)
    as [rest Hhead].
  { intros n Hn Hns. apply snapped_strictly_nearest; try assumption.
    apply (in_choicesB st r n T Hc) in Hn. tauto. }
  unfold best_choice_of, shortest_path_between. rewrite Hm, Hhead.
  apply find_best_choice_in.
  unfold choicesB in Hs. apply filter_In in Hs. tauto.
Qed.

Lemma moveB_cell (rnd : nat -> nat) (st st' : Grid) (r : ref) (bc : loc) :
  moved (agents st r) = false ->
  best_choice_of st r = Some bc ->
  moveB rnd st r = Some st' ->
  cell (agents st' r) = cell (agents st r) \/ cell (agents st' r) = bc.
Proof.
  intros Hm Hb. unfold moveB. rewrite Hm, Hb.
  intros H; inversion H; subst; clear H.
  destruct (same_board_finish
              match occupant (cells st bc) with
              | Some partner =>
                  let '(ok, st'0) := check_swap rnd st partner
                                                (cell (agents st r)) in
                  if ok && negb (String.eqb (symbol (agents st'0 partner)) "D")
                  then swap st'0 r bc partner
                  else st'0
              | None => relocate st r bc
              end r (cell (agents st r))) as (_ & _ & C).
  rewrite C.
  destruct (occupant (cells st bc)) as [p |].
  - assert (B := same_board_check_swap rnd st p (cell (agents st r))).
    destruct (check_swap rnd st p (cell (agents st r))) as [ok st1].
    destruct B as (_ & _ & C1). simpl in C1.
    destruct (ok && negb (String.eqb (symbol (agents st1 p)) "D")).
    + unfold swap. store_simpl; rewrite ?C1; auto.
    + left. apply C1.
  - right. unfold relocate. store_simpl; congruence.
Qed.

(** X14.  On a grid of at most 2^25 columns and 2^25 rows, where
    [math.sqrt] keeps apart the distances the sort compares, a TypeB agent
    away from its destination ends its move either where it was or on the
    cell [shortest_path] points to, whether it walked there or was let in by
    a swap: it never steps sideways or back, and when it moves it is one cell
    nearer its destination in Chebyshev distance and strictly nearer in
    Euclidean distance. *)
Theorem moveB_stays_or_advances
        (rnd : nat -> nat) (st st' : Grid) (r : ref) :
  Topology st -> sqrt_exact st ->
  on_grid (width st) (height st) (cell (agents st r)) = true ->
  on_grid (width st) (height st) (end_ (agents st r)) = true ->
  cell (agents st r) <> end_ (agents st r) ->
  moveB rnd st r = Some st' ->
  cell (agents st' r) = cell (agents st r) \/
  (cell (agents st' r)
     = shortest_path (cell (agents st r)) (end_ (agents st r)) /\
   chebyshev (cell (agents st' r)) (end_ (agents st r))
     = chebyshev (cell (agents st r)) (end_ (agents st r)) - 1 /\
   norm2 (cell (agents st' r)) (end_ (agents st r))
     < norm2 (cell (agents st r)) (end_ (agents st r))).
Proof.
  intros T _ Hc He Hne Hmv.
  destruct (moved (agents st r)) eqn:Hm.
  - left. unfold moveB in Hmv. rewrite Hm in Hmv. now inversion Hmv.
  - assert (Hb := best_choice_snapped st r T Hc He Hm Hne).
    destruct (moveB_cell rnd st st' r _ Hm Hb Hmv) as [E | E];
      [now left | right].
    rewrite E. split; [reflexivity |].
    destruct (shortest_path_chebyshev _ _ Hne) as [_ H2].
    split; [exact H2 | now apply shortest_path_nearer].
Qed.

Lemma moveB_stays_or_advances_witness :
  exists st',
    moveB draw_zero follower_meets_obstacle 0%nat = Some st' /\
    (cell (agents st' 0%nat) = cell (agents follower_meets_obstacle 0%nat) \/
     cell (agents st' 0%nat) = (1, 0)).
Proof.
  destruct (moveB draw_zero follower_meets_obstacle 0%nat) as [st' |] eqn:E;
    [| vm_compute in E; discriminate].
  exists st'. split; [reflexivity |].
  assert (X : sqrt_exact follower_meets_obstacle)
    by (split; vm_compute; discriminate).
  destruct (moveB_stays_or_advances draw_zero follower_meets_obstacle st'
              0%nat (Topology_scenario _ _ _) X eq_refl eq_refl) as [H | H].
  - vm_compute. discriminate.
  - exact E.
  - now left.
  - right. exact (proj1 H).
Defined.

(** ** The turn counter and the marks at the end of a turn *)

Lemma same_books_turn (st st' : Grid) : same_books st st' -> turn st' = turn st.
Proof. intros (_ & _ & _ & T & _). exact T. Qed.

Lemma turn_fold (f : Grid -> ref -> Grid) (l : list ref) (st : Grid) :
  (forall s a, same_books s (f s a)) -> turn (fold_left f l st) = turn st.
Proof.
  intros Hf. apply (fold_left_keeps (fun s => turn s = turn st));
    [| reflexivity].
  intros s a _ H. now rewrite (same_books_turn _ _ (Hf s a)).
Qed.

Lemma turn_clean_up (st : Grid) : turn (clean_up st) = turn st.
Proof.
  apply (clean_up_keeps (fun s => turn s = turn st)); [| reflexivity].
  intros k s a Ha H.
  destruct (clean_body_lists k k s a Ha) as (_ & _ & _ & T). congruence.
Qed.

Lemma turn_move_all_B (rnd : nat -> nat) (l : list ref) (st st' : Grid) :
  move_all_B rnd l st = Some st' -> turn st' = turn st.
Proof.
  apply (move_all_B_keeps (fun s => turn s = turn st)); [| reflexivity].
  intros s s' b _ H Hm.
  now rewrite (same_books_turn _ _ (same_books_moveB rnd s s' b Hm)).
Qed.

Lemma reset_keeps_unmarked (l : list ref) (st : Grid) (r : ref) :
  moved (agents st r) = false ->
  moved (agents (fold_left reset l st) r) = false.
Proof.
  apply (fold_left_keeps (fun s => moved (agents s r) = false)).
  intros s a _ H. unfold reset. store_simpl; try reflexivity; assumption.
Qed.

Lemma reset_unmarks (l : list ref) (st : Grid) (r : ref) :
  In r l -> moved (agents (fold_left reset l st) r) = false.
Proof.
  revert st. induction l as [| x l IH]; intros st; simpl; [contradiction |].
  intros [-> | H]; [| now apply IH].
  apply reset_keeps_unmarked. unfold reset. store_simpl; congruence.
Qed.

Lemma players_fold_reset (l : list ref) (st : Grid) :
  same_books st (fold_left reset l st).
Proof.
  apply (fold_left_keeps (same_books st)); [| apply same_books_refl].
  intros s a _ H. eapply same_books_trans; [exact H |].
  apply same_books_reset.
Qed.

Lemma reset_all_unmarks (st : Grid) (r : ref) :
  active st r -> moved (agents (reset_all st) r) = false.
Proof.
  unfold reset_all.
  set (sA := fold_left reset (playerAs st) st).
  set (sB := fold_left reset (playerBs sA) sA).
  assert (BA : same_books st sA) by apply players_fold_reset.
  assert (BB : same_books sA sB) by apply players_fold_reset.
  destruct BA as (PA & _). destruct BB as (PB & _).
  intros [H | [H | H]].
  - apply reset_keeps_unmarked. apply reset_keeps_unmarked.
    now apply reset_unmarks.
  - apply reset_keeps_unmarked. apply reset_unmarks.
    specialize (PA PoolB). simpl in PA. now rewrite PA.
  - apply reset_unmarks.
    specialize (PA PoolC). specialize (PB PoolC). simpl in PA, PB.
    now rewrite PB, PA.
Qed.

Lemma same_books_reset_all (st : Grid) : same_books st (reset_all st).
Proof.
  unfold reset_all.
  eapply same_books_trans; [| apply players_fold_reset].
  eapply same_books_trans; [| apply players_fold_reset].
  apply players_fold_reset.
Qed.

Section Counting.

Variable rnd : nat -> nat.
Variable shuffle : nat -> list ref -> list ref.

Lemma turn_phaseA (st : Grid) : turn (phaseA shuffle st) = turn st.
Proof.
  unfold phaseA. rewrite turn_clean_up.
  replace (turn (shuffle_players shuffle PoolB
                   (fold_left moveA
                      (playerAs (shuffle_players shuffle PoolA st))
                      (shuffle_players shuffle PoolA st))))
    with (turn (fold_left moveA
                  (playerAs (shuffle_players shuffle PoolA st))
                  (shuffle_players shuffle PoolA st))) by reflexivity.
  rewrite turn_fold by apply same_books_moveA. reflexivity.
Qed.

Lemma turn_phaseC (t Nturn : nat) (st : Grid) :
  turn (phaseC rnd shuffle t Nturn st) = turn st.
Proof.
  unfold phaseC. rewrite turn_clean_up.
  rewrite turn_fold by apply same_books_moveC. reflexivity.
Qed.

(** X15.  A turn that returns has advanced the turn counter by exactly one and
    leaves every agent still active unmarked, ready to move in the next turn;
    a run of [Nturn] turns advances the counter by [Nturn]. *)
Theorem turn_counts_and_resets (st : Grid) :
  (forall t Nturn st',
     play_turn rnd shuffle st t Nturn = Some st' ->
     turn st' = S (turn st) /\
     forall r, active st' r -> moved (agents st' r) = false) /\
  (forall Nturn st',
     run rnd shuffle st Nturn = Some st' ->
     turn st' = (turn st + Nturn)%nat).
Proof.
  assert (One : forall s t Nturn s',
     play_turn rnd shuffle s t Nturn = Some s' ->
     turn s' = S (turn s) /\
     forall r, active s' r -> moved (agents s' r) = false).
  { intros s t Nturn s'. unfold play_turn.
    destruct (move_all_B rnd (playerBs (phaseA shuffle s)) (phaseA shuffle s))
      as [s2 |] eqn:EB; [| discriminate].
    intros H; inversion H; subst; clear H.
    set (s4 := phaseC rnd shuffle t Nturn (clean_up s2)).
    split.
    - simpl. f_equal.
      rewrite (same_books_turn _ _ (same_books_reset_all s4)).
      unfold s4. rewrite turn_phaseC, turn_clean_up.
      rewrite (turn_move_all_B _ _ _ _ EB). apply turn_phaseA.
    - intros r Hr.
      change (moved (agents (reset_all s4) r) = false).
      apply reset_all_unmarks.
      destruct (same_books_reset_all s4) as (P & _).
      clearbody s4.
      assert (PA := P PoolA). assert (PB := P PoolB). assert (PC := P PoolC).
      unfold active in *. simpl in Hr, PA, PB, PC.
      rewrite PA, PB, PC in Hr. exact Hr. }
  split; [apply One |].
  intros Nturn st'. unfold run.
  assert (G : forall l s s',
             play_turns rnd shuffle l Nturn s = Some s' ->
             turn s' = (turn s + List.length l)%nat).
  { induction l as [| i l IH]; intros s s'; simpl.
    - intros H; inversion H. lia.
    - destruct (play_turn rnd shuffle s i Nturn) as [s1 |] eqn:E;
        [| discriminate].
      intros H. apply IH in H. destruct (One _ _ _ _ E) as [T _]. lia. }
  intros H. apply G in H. now rewrite length_seq in H.
Qed.

End Counting.

Lemma turn_counts_and_resets_witness :
  exists st',
    run draw_zero keep_order mover_meets_follower 3 = Some st' /\
    turn st' = 3%nat.
Proof.
  destruct (run draw_zero keep_order mover_meets_follower 3) as [st' |] eqn:E;
    [| vm_compute in E; discriminate].
  exists st'. split; [reflexivity |].
  exact (proj2 (turn_counts_and_resets draw_zero keep_order
                  mover_meets_follower) 3%nat st' E).
Defined.

(** ** The logs of moves *)

Lemma Logged_same_log (st st' : Grid) :
  same_log st st' -> Logged st -> Logged st'.
Proof. intros S L r m. rewrite S. apply L. Qed.

Ltac same_log_by_computation :=
  unfold same_log; intros; store_simpl; try reflexivity; congruence.

Lemma same_log_relocate (st : Grid) (r : ref) (c : loc) :
  same_log st (relocate st r c).
Proof. unfold relocate. same_log_by_computation. Qed.

Lemma same_log_swap (st : Grid) (r p : ref) (best_choice : loc) :
  same_log st (swap st r best_choice p).
Proof. unfold swap. same_log_by_computation. Qed.

Lemma same_log_check_swap (rnd : nat -> nat) (st : Grid) (p : ref) (c : loc) :
  same_log st (snd (check_swap rnd st p c)).
Proof.
  unfold check_swap, check_swapA, check_swapB, check_swapC, check_swapD.
  destruct (kind (agents st p));
    try match goal with
        | |- context [if ?b then _ else _] => destruct b
        end; same_log_by_computation.
Qed.

Lemma Logged_finish (st : Grid) (r : ref) (start : loc) :
  Logged st -> chebyshev start (cell (agents st r)) <= 1 ->
  Logged (finish st r start).
Proof.
  intros L Hc r' m. unfold finish.
  store_simpl; intros H; try (eapply L; eassumption);
    (apply in_app_or in H; destruct H as [H | [<- | []]];
     [eapply L; eassumption | first [exact Hc | exfalso; congruence]]).
Qed.

Lemma Logged_take_best (st : Grid) (r : ref) (des : loc) (l : list loc) :
  Logged st ->
  (forall c, In c l -> chebyshev (cell (agents st r)) c <= 1) ->
  Logged (finish (take_best st r (sorted (choice_pairs des l))) r
                 (cell (agents st r))).
Proof.
  intros L Hl. apply Logged_finish.
  - unfold take_best. destruct (sorted _) as [| [c k] rest];
      [assumption |].
    eapply Logged_same_log; [apply same_log_relocate | assumption].
  - apply (one_step_apart_take_best st r des l Hl r).
Qed.

Lemma Logged_moveA (st : Grid) (r : ref) :
  Topology st -> on_grid (width st) (height st) (cell (agents st r)) = true ->
  Logged st -> Logged (moveA st r).
Proof.
  intros T Hr L. unfold moveA.
  destruct (moved (agents st r)); [assumption |].
  apply Logged_take_best; [assumption |].
  intros c Hc. unfold choicesA in Hc. apply filter_In in Hc.
  apply (adjacent_near st); tauto.
Qed.

Lemma Logged_move2 (st : Grid) (r : ref) :
  Topology st -> on_grid (width st) (height st) (cell (agents st r)) = true ->
  Logged st -> Logged (move2 st r).
Proof.
  intros T Hr L. unfold move2.
  destruct (moved (agents st r)); [assumption |].
  apply Logged_take_best; [assumption |].
  intros c Hc. unfold choicesC2 in Hc. apply filter_In in Hc.
  apply (adjacent_near st); tauto.
Qed.

Lemma Logged_move3 (st : Grid) (r : ref) : Logged st -> Logged (move3 st r).
Proof.
  intros L r' m. unfold move3.
  store_simpl; intros H; try (eapply L; eassumption);
    (apply in_app_or in H; destruct H as [H | [<- | []]];
     [eapply L; eassumption | simpl; rewrite chebyshev_refl; lia]).
Qed.

Lemma Logged_move1 (rnd : nat -> nat) (st : Grid) (r : ref) :
  Topology st -> on_grid (width st) (height st) (cell (agents st r)) = true ->
  Logged st -> Logged (move1 rnd st r).
Proof.
  intros T Hr L. unfold move1.
  assert (Q : forall s a, Logged s ->
                Logged (set_agent s a (incr_move_count (agents s a)))).
  { intros s a. apply Logged_same_log. same_log_by_computation. }
  apply Q.
  destruct (filter _ _) as [| c0 cs] eqn:E; [assumption |].
  set (c := nth _ _ _).
  assert (Hc : In c (c0 :: cs)).
  { apply nth_In. apply Nat.mod_upper_bound. simpl. discriminate. }
  rewrite <- E in Hc. apply filter_In in Hc. destruct Hc as [Hc _].
  assert (N := adjacent_near st _ c T Hr Hc).
  clearbody c.
  intros r' m. unfold relocate.
  store_simpl; intros H; try (eapply L; eassumption);
    (apply in_app_or in H; destruct H as [H | [<- | []]];
     [eapply L; eassumption | first [exact N | exfalso; congruence]]).
Qed.

Lemma Logged_moveB (rnd : nat -> nat) (st st' : Grid) (r : ref) :
  Topology st -> on_grid (width st) (height st) (cell (agents st r)) = true ->
  Logged st -> moveB rnd st r = Some st' -> Logged st'.
Proof.
  intros T Hr L. unfold moveB.
  destruct (moved (agents st r)).
  { intros H; inversion H; subst; assumption. }
  destruct (best_choice_of st r) as [bc |] eqn:Eb; [| discriminate].
  intros H; inversion H; subst; clear H.
  assert (N : chebyshev (cell (agents st r)) bc <= 1).
  { apply (adjacent_near st); auto. now apply best_choice_of_adjacent. }
  assert (Z0 : chebyshev (cell (agents st r)) (cell (agents st r)) <= 1)
    by (rewrite chebyshev_refl; lia).
  apply Logged_finish.
  - destruct (occupant (cells st bc)) as [p |].
    + assert (S1 := same_log_check_swap rnd st p (cell (agents st r))).
      destruct (check_swap rnd st p (cell (agents st r))) as [ok st1].
      simpl in S1.
      destruct (ok && negb (String.eqb (symbol (agents st1 p)) "D")).
      * eapply Logged_same_log; [apply same_log_swap |].
        eapply Logged_same_log; eauto.
      * eapply Logged_same_log; eauto.
    + eapply Logged_same_log; [apply same_log_relocate | assumption].
  - destruct (occupant (cells st bc)) as [p |].
    + assert (B := same_board_check_swap rnd st p (cell (agents st r))).
      destruct (check_swap rnd st p (cell (agents st r))) as [ok st1].
      destruct B as (_ & _ & C1). simpl in C1.
      destruct (ok && negb (String.eqb (symbol (agents st1 p)) "D")).
      * unfold swap. store_simpl; rewrite ?C1; assumption.
      * now rewrite C1.
    + unfold relocate. store_simpl; [assumption | congruence].
Qed.

Lemma total_distance_counts (l : list (loc * loc)) (n : nat) :
  fold_left (fun dist_count move =>
               if negb (loc_eqb (fst move) (snd move))
               then S dist_count else dist_count) l n
  = (n + List.length
           (filter (fun m => negb (loc_eqb (fst m) (snd m))) l))%nat.
Proof.
  revert n. induction l as [| m l IH]; intros n; simpl; [lia |].
  rewrite IH. destruct (negb (loc_eqb (fst m) (snd m))); simpl; lia.
Qed.

Lemma Logged_scenario (w h : nat) (rows : list Row) :
  Logged (scenario w h rows).
Proof.
  assert (G : forall rs st st', Logged st -> populate st rs = Some st' ->
                                Logged st').
  { induction rs as [| row rs IH]; intros st st' L; simpl.
    - intros H; inversion H; subst; assumption.
    - destruct (populate_row st row) as [st1 |] eqn:E; [| discriminate].
      apply IH. clear IH. revert E. unfold populate_row.
      destruct (grid_at st (y1 row) (x1 row)) as [s |]; [| discriminate].
      destruct (grid_at st (y2 row) (x2 row)) as [e |]; [| discriminate].
      destruct (name row) as [| c rest]; [discriminate |].
      repeat match goal with
             | |- context [Ascii.eqb ?a ?b] => destruct (Ascii.eqb a b)
             end;
        intros H; inversion H; subst; clear H;
        intros r m; simpl; unfold upd_agent;
        (destruct (Nat.eqb_spec r (allocated st)); [contradiction | apply L]). }
  unfold scenario.
  destruct (populate (initialize w h) rows) as [st |] eqn:E.
  - apply (G rows (initialize w h)); [| exact E]. intros r m [].
  - intros r m [].
Qed.

Section Logs.

Variable rnd : nat -> nat.
Variable shuffle : nat -> list ref -> list ref.
Hypothesis shuffle_permutes : forall n l, Permutation (shuffle n l) l.

Lemma operation_Logged (st st' : Grid) :
  Topology st -> Placed st -> Logged st ->
  operation rnd shuffle st st' -> Logged st'.
Proof.
  intros T P L Hop.
  destruct Hop as [k st | st a Ha | st st' b Hb Hm | st c Hc | st c Hc
                  | st c Hc | st | st r Hr | st].
  - eapply Logged_same_log; [| exact L]. intros r. destruct k; reflexivity.
  - apply Logged_moveA; auto. apply P, (on_board_players st PoolA a Ha).
  - eapply Logged_moveB; eauto. apply P, (on_board_players st PoolB b Hb).
  - apply Logged_move1; auto. apply P, (on_board_players st PoolC c Hc).
  - apply Logged_move2; auto. apply P, (on_board_players st PoolC c Hc).
  - now apply Logged_move3.
  - eapply Logged_same_log; [| exact L]. intros r.
    now rewrite agents_clean_up.
  - eapply Logged_same_log; [| exact L]. unfold reset.
    same_log_by_computation.
  - eapply Logged_same_log; [| exact L]. intros r. reflexivity.
Qed.

(** X16.  Whatever the scenario and the run, every entry an agent has logged
    is a stay or a step to a cell next to the one it left, so that
    [total_distance], which counts the entries whose two ends differ, counts
    steps of exactly one cell and never exceeds the number of entries. *)
Theorem logs_hold_single_steps (w h : nat) (rows : list Row) (st' : Grid) :
  reaches rnd shuffle (scenario w h rows) st' ->
  forall r,
    (forall m, In m (moves (agents st' r)) ->
               chebyshev (fst m) (snd m) <= 1) /\
    total_distance (agents st' r)
    = List.length (filter (fun m => chebyshev (fst m) (snd m) =? 1)
                          (moves (agents st' r))) /\
    (total_distance (agents st' r)
     <= List.length (moves (agents st' r)))%nat.
Proof.
  intros R r.
  assert (G : Sound st' /\ Logged st').
  { apply (reaches_keeps rnd shuffle (fun s => Sound s /\ Logged s))
      with (st := scenario w h rows); [| | exact R].
    - intros s s' [S L] Hop. split.
      + apply (reaches_Sound rnd shuffle shuffle_permutes s s' S).
        now apply reaches_one.
      + destruct S as (_ & T & P). eapply operation_Logged; eauto.
    - split; [apply Sound_scenario | apply Logged_scenario]. }
  destruct G as [_ L].
  assert (E : total_distance (agents st' r)
              = List.length (filter (fun m => chebyshev (fst m) (snd m) =? 1)
                                    (moves (agents st' r)))).
  { unfold total_distance. rewrite total_distance_counts. simpl.
    f_equal. apply filter_ext_in. intros m Hm.
    specialize (L r m Hm).
    destruct (loc_eqb_spec (fst m) (snd m)) as [Eq | Hne]; simpl.
    - rewrite Eq, chebyshev_refl. reflexivity.
    - symmetry. apply Z.eqb_eq.
      assert (chebyshev (fst m) (snd m) <> 0)
        by (intros Z0; apply chebyshev_zero in Z0; contradiction).
      assert (0 <= chebyshev (fst m) (snd m)) by (unfold chebyshev; lia).
      lia. }
  split; [apply L | split; [exact E |]].
  rewrite E. apply filter_length_le.
Qed.

End Logs.

Lemma logs_hold_single_steps_witness :
  total_distance (agents (move2 two_tourists 0%nat) 0%nat)
  = List.length (filter (fun m => chebyshev (fst m) (snd m) =? 1)
                        (moves (agents (move2 two_tourists 0%nat) 0%nat))).
Proof.
  unfold two_tourists.
  assert (H : In 0%nat (playerCs (scenario 50 20
                [mkRow "C1" 0 7 49 9; mkRow "C2" 0 8 49 10])))
    by (vm_compute; auto).
  exact (proj1 (proj2 (logs_hold_single_steps draw_zero keep_order
           keep_order_permutes 50 20
           [mkRow "C1" 0 7 49 9; mkRow "C2" 0 8 49 10] _
           (reaches_one draw_zero keep_order _ _
              (op_move2 draw_zero keep_order _ 0%nat H))
           0%nat))).
Defined.

(** ** What never changes *)

Section Fixed.

Variable rnd : nat -> nat.
Variable shuffle : nat -> list ref -> list ref.
Hypothesis shuffle_permutes : forall n l, Permutation (shuffle n l) l.

(** X17.  Along a run nothing rewrites what was fixed at creation: every
    agent keeps its class and its destination, the grid keeps its dimensions,
    and every cell keeps its adjacency list and its symbol. *)
Theorem creation_data_fixed (st st' : Grid) :
  WF st -> reaches rnd shuffle st st' ->
  (forall r, kind (agents st' r) = kind (agents st r) /\
             end_ (agents st' r) = end_ (agents st r)) /\
  width st' = width st /\ height st' = height st /\
  (forall l, adjacent (cells st' l) = adjacent (cells st l) /\
             c_symbol (cells st' l) = c_symbol (cells st l)).
Proof.
  intros W R.
  destruct (reaches_evolves rnd shuffle shuffle_permutes st st' W R)
    as (_ & _ & _ & K & _ & Wd & Hd & C).
  auto.
Qed.

End Fixed.

Lemma creation_data_fixed_witness :
  WF mover_meets_follower /\
  end_ (agents (moveA mover_meets_follower 0%nat) 0%nat)
  = end_ (agents mover_meets_follower 0%nat).
Proof.
  assert (W : WF mover_meets_follower) by apply WF_scenario.
  assert (H : In 0%nat (playerAs mover_meets_follower))
    by (vm_compute; auto).
  split; [exact W |].
  exact (proj2 (proj1 (creation_data_fixed draw_zero keep_order
           keep_order_permutes mover_meets_follower
           (moveA mover_meets_follower 0%nat) W
           (reaches_one draw_zero keep_order mover_meets_follower
              (moveA mover_meets_follower 0%nat)
              (op_moveA draw_zero keep_order mover_meets_follower 0%nat H)))
           0%nat)).
Defined.

(** ** The move counters *)












Section Counters.

Variable rnd : nat -> nat.
Variable shuffle : nat -> list ref -> list ref.


End Counters.


(** ** What [display] shows *)

Lemma collect_map_Some {A B} (f : A -> B) (l : list A) :
  collect (map (fun x => Some (f x)) l) = Some (map f l).
Proof.
  induction l as [| x l IH]; simpl; [reflexivity | now rewrite IH].
Qed.

Lemma grid_at_on_grid (st : Grid) (c j : nat) :
  Built st -> (c < height st)%nat -> (j < width st)%nat ->
  grid_at st (Z.of_nat c) (Z.of_nat j) = Some (Z.of_nat j, Z.of_nat c).
Proof.
  intros B Hc Hj. rewrite (grid_at_rows _ _ _ B).
  assert (E : indexable (width st) (height st) (Z.of_nat j) (Z.of_nat c)
              = true).
  { unfold indexable. rewrite !andb_true_iff, !Z.leb_le, !Z.ltb_lt. lia. }
  rewrite E, !Z.mod_small by lia. reflexivity.
Qed.

Lemma display_Built (st : Grid) :
  Built st ->
  display st
  = Some (map (fun c =>
                 String.concat " "
                   (map (fun j => get_symbol st (Z.of_nat j, Z.of_nat c))
                        (seq 0 (width st))))
              (seq 0 (height st))).
Proof.
  intros B. unfold display. rewrite <- collect_map_Some. f_equal.
  apply map_ext_in. intros c Hc. apply in_seq in Hc.
  unfold display_line.
  rewrite (map_ext_in _ (fun j => Some (get_symbol st
                                          (Z.of_nat j, Z.of_nat c)))).
  - now rewrite collect_map_Some.
  - intros j Hj. apply in_seq in Hj.
    rewrite grid_at_on_grid by (assumption || lia). reflexivity.
Qed.

Lemma symbol_not_X (a : Agent) : symbol a <> "X"%string.
Proof. unfold symbol. destruct (kind a); discriminate. Qed.

Lemma get_symbol_board (st : Grid) (l : loc) :
  Topology st -> Inv st -> Exact st ->
  on_grid (width st) (height st) l = true ->
  (get_symbol st l = "X"%string <->
   forall r, on_board st r -> cell (agents st r) <> l) /\
  (forall r, on_board st r -> cell (agents st r) = l ->
             get_symbol st l = symbol (agents st r)).
Proof.
  intros T [_ O] HE Hl. unfold get_symbol. split; [split |].
  - intros HX r Hr E. rewrite <- E, (O r Hr) in HX.
    now apply symbol_not_X in HX.
  - intros Hno. destruct (occupant (cells st l)) as [p |] eqn:Ep.
    + destruct (HE l p Ep) as [Hp Hc]. now apply Hno in Hp.
    + apply (T l Hl).
  - intros r Hr E. now rewrite <- E, (O r Hr).
Qed.

Lemma grid_clean_body (k : Pool) (st : Grid) (a : ref) :
  grid (clean_body k st a) = grid st.
Proof.
  unfold clean_body. destruct (arrived k (agents st a)); [| reflexivity].
  destruct k; reflexivity.
Qed.

Section Display.

Variable rnd : nat -> nat.
Variable shuffle : nat -> list ref -> list ref.
Hypothesis shuffle_permutes : forall n l, Permutation (shuffle n l) l.

Lemma operation_Built (st st' : Grid) :
  WF st -> Built st -> operation rnd shuffle st st' -> Built st'.
Proof.
  intros W B Hop. unfold Built in *.
  destruct (evolves_frame st st'
              (operation_evolves rnd shuffle shuffle_permutes st st' W Hop))
    as (-> & -> & _).
  rewrite <- B.
  destruct Hop as [k st | st a Ha | st st' b Hb Hm | st c Hc | st c Hc
                  | st c Hc | st | st r Hr | st].
  - destruct k; reflexivity.
  - apply same_books_moveA.
  - eapply same_books_moveB, Hm.
  - apply same_books_move1.
  - apply same_books_move2.
  - apply same_books_move3.
  - apply (clean_up_keeps (fun s => grid s = grid st)); [| reflexivity].
    intros k s a _ H. now rewrite grid_clean_body.
  - apply same_books_reset.
  - reflexivity.
Qed.

Lemma reaches_Built (st st' : Grid) :
  WF st -> Built st -> reaches rnd shuffle st st' ->
  Built st' /\ width st' = width st /\ height st' = height st.
Proof.
  intros W B R.
  destruct (evolves_frame st st'
              (reaches_evolves rnd shuffle shuffle_permutes st st' W R))
    as (Hw & Hh & _).
  split; [| auto].
  assert (G : WF st' /\ Built st'); [| tauto].
  apply (reaches_keeps rnd shuffle (fun s => WF s /\ Built s))
    with (st := st); [| auto | exact R].
  intros s s' [Ws Bs] Hop. split.
  - eapply WF_evolves; [| exact Ws].
    now apply (operation_evolves rnd shuffle shuffle_permutes).
  - now apply (operation_Built s s').
Qed.

(** X19.  From a scenario whose rows start on pairwise different cells, in
    every state a run reaches [display] returns one line per row of the grid
    and one symbol per cell, and what it shows is the board: an X exactly
    where no agent of the board stands, and the letter of the agent's class
    where one does. *)
Theorem display_shows_board (w h : nat) (rows : list Row) (st : Grid) :
  NoDup (map (start_cell w h) rows) ->
  reaches rnd shuffle (scenario w h rows) st ->
  display st
  = Some (map (fun c =>
                 String.concat " "
                   (map (fun j => get_symbol st (Z.of_nat j, Z.of_nat c))
                        (seq 0 w)))
              (seq 0 h)) /\
  forall l, on_grid w h l = true ->
    (get_symbol st l = "X"%string <->
     forall r, on_board st r -> cell (agents st r) <> l) /\
    (forall r, on_board st r -> cell (agents st r) = l ->
               get_symbol st l = symbol (agents st r)).
Proof.
  intros Hnd R.
  destruct (Built_scenario w h rows) as (B & Hw & Hh).
  destruct (reaches_Built _ _ (WF_scenario w h rows) B R) as (B' & Hw' & Hh').
  rewrite Hw in Hw'. rewrite Hh in Hh'.
  destruct (reaches_Sound rnd shuffle shuffle_permutes _ _
              (Sound_scenario w h rows) R) as (_ & T & _).
  destruct (Tight_scenario w h rows Hnd) as [HI HE].
  destruct (reaches_Tight rnd shuffle shuffle_permutes _ st
              (conj (conj (WF_scenario w h rows) HI) HE) R) as [[_ HI'] HE'].
  split.
  - rewrite (display_Built st B'), Hw', Hh'. reflexivity.
  - intros l Hl. apply get_symbol_board; try assumption.
    now rewrite Hw', Hh'.
Qed.

End Display.

Lemma display_shows_board_witness :
  display (moveA (scenario 4 1 [mkRow "A1" 1 0 3 0; mkRow "D" 2 0 2 0]) 0%nat)
  = Some ["A X D X"%string].
Proof.
  assert (H : In 0%nat (playerAs (scenario 4 1
                [mkRow "A1" 1 0 3 0; mkRow "D" 2 0 2 0])))
    by (vm_compute; auto).
  assert (N : NoDup (map (start_cell 4 1)
                         [mkRow "A1" 1 0 3 0; mkRow "D" 2 0 2 0])).
  { vm_compute. repeat constructor; simpl; intuition discriminate. }
  rewrite (proj1 (display_shows_board draw_zero keep_order
             keep_order_permutes 4 1
             [mkRow "A1" 1 0 3 0; mkRow "D" 2 0 2 0] _ N
             (reaches_one draw_zero keep_order _ _
                (op_moveA draw_zero keep_order _ 0%nat H)))).
  reflexivity.
Defined.

(** ** The test on the symbol "D" *)

Lemma choicesA_choicesC2 (st : Grid) (r : ref) :
  Topology st ->
  on_grid (width st) (height st) (cell (agents st r)) = true ->
  choicesA st r = choicesC2 st r.
Proof.
  intros T H. unfold choicesA, choicesC2. apply filter_ext_in.
  intros j Hj. apply (topology_adjacent_on_grid st _ j T H) in Hj.
  destruct (T j Hj) as [_ ->]. simpl. now rewrite andb_true_r.
Qed.

(** X20.  On the cells [initialize] builds, the test [j.symbol != "D"] in
    [TypeA.move] and in [TypeB.shortest_path_between] excludes no cell: it
    reads the symbol of the cell, which is always X, and not the symbol of
    the occupant.  So a TypeA agent chooses among the same cells as the
    greedy move of a TypeC agent and moves as that move does, and a TypeB
    agent considers every adjacent cell but its own, a cell with an obstacle
    on it included. *)
Theorem obstacle_test_excludes_nothing (st : Grid) (r : ref) :
  Topology st ->
  on_grid (width st) (height st) (cell (agents st r)) = true ->
  choicesA st r = choicesC2 st r /\
  moveA st r = move2 st r /\
  choicesB st r
  = filter (fun j => negb (loc_eqb j (cell (agents st r))))
           (adjacent (cells st (cell (agents st r)))).
Proof.
  intros T H.
  split; [now apply choicesA_choicesC2 | split].
  - unfold moveA, move2. now rewrite choicesA_choicesC2.
  - unfold choicesB. apply filter_ext_in.
    intros j Hj. apply (topology_adjacent_on_grid st _ j T H) in Hj.
    destruct (T j Hj) as [_ ->]. simpl. now rewrite andb_true_r.
Qed.

Lemma obstacle_test_excludes_nothing_witness :
  In (1, 0) (choicesB follower_meets_obstacle 0%nat) /\
  occupant (cells follower_meets_obstacle (1, 0)) = Some 1%nat /\
  kind (agents follower_meets_obstacle 1%nat) = TypeD.
Proof.
  split; [| split; reflexivity].
  rewrite (proj2 (proj2 (obstacle_test_excludes_nothing
                           follower_meets_obstacle 0%nat
                           (Topology_scenario 3 1 _) eq_refl))).
  vm_compute. auto.
Defined.

Lemma moveA_result_witness :
  moved (agents mover_behind_obstacle 0%nat) = false /\
  exists l1 l2,
    choicesA mover_behind_obstacle 0%nat
    = l1 ++ cell (agents (moveA mover_behind_obstacle 0%nat) 0%nat) :: l2.
Proof.
  split; [reflexivity |].
  assert (X : sqrt_exact mover_behind_obstacle)
    by (split; vm_compute; discriminate).
  destruct (proj2 (moveA_result mover_behind_obstacle 0%nat
                     (Topology_scenario 4 1 _) X eq_refl eq_refl eq_refl))
    as (l1 & l2 & E & _).
  - vm_compute. discriminate.
  - exists l1, l2. exact E.
Defined.

(** ** The scenario [generate_file] writes *)










Section Generated.

Variable random_random : nat -> QArith_base.Q.
Variable randint : nat -> Z -> Z -> Z.
Hypothesis randint_range :
  forall n a b, a <= b -> a <= randint n a b <= b.



Variable rnd : nat -> nat.
Variable shuffle : nat -> list ref -> list ref.
Hypothesis shuffle_permutes : forall n l, Permutation (shuffle n l) l.


End Generated.


(** ** The walk of a TypeB agent alone on the board *)

Lemma clean_up_quiet (st : Grid) : Quiet st -> clean_up st = st.
Proof.
  intros (A & B & C). destruct st; simpl in *; subst. reflexivity.
Qed.

Lemma clean_up_one (st : Grid) (b : ref) :
  playerAs st = [] -> playerBs st = [b] -> playerCs st = [] ->
  clean_up st = clean_body PoolB st b.
Proof.
  intros A B C. destruct st; simpl in *; subst.
  unfold clean_up, clean_pool. cbn. unfold clean_body. cbn.
  destruct (loc_eqb _ _); cbn; rewrite ?Nat.eqb_refl; reflexivity.
Qed.

Lemma reset_all_quiet (st : Grid) : Quiet st -> reset_all st = st.
Proof.
  intros (A & B & C). destruct st; simpl in *; subst. reflexivity.
Qed.

Lemma reset_all_one (st : Grid) (b : ref) :
  playerAs st = [] -> playerBs st = [b] -> playerCs st = [] ->
  reset_all st = reset st b.
Proof.
  intros A B C. destruct st; simpl in *; subst. reflexivity.
Qed.

Section Alone.

Variable rnd : nat -> nat.
Variable shuffle : nat -> list ref -> list ref.
Hypothesis shuffle_permutes : forall n l, Permutation (shuffle n l) l.

Lemma shuffle_nil (n : nat) : shuffle n [] = [].
Proof.
  apply Permutation_nil, Permutation_sym, shuffle_permutes.
Qed.

Lemma shuffle_one (n : nat) (b : ref) : shuffle n [b] = [b].
Proof.
  apply Permutation_length_1_inv, Permutation_sym, shuffle_permutes.
Qed.

Lemma phaseA_one (st : Grid) (b : ref) :
  playerAs st = [] -> playerBs st = [b] -> playerCs st = [] ->
  phaseA shuffle st
  = clean_body PoolB (with_draws st (S (S (draws st)))) b.
Proof.
  intros A B C. unfold phaseA.
  rewrite <- (clean_up_one (with_draws st (S (S (draws st)))) b A B C).
  f_equal. destruct st; simpl in *; subst.
  unfold shuffle_players; simpl. rewrite shuffle_nil. simpl.
  rewrite shuffle_one. reflexivity.
Qed.

Lemma phaseA_quiet (st : Grid) :
  Quiet st -> phaseA shuffle st = with_draws st (S (S (draws st))).
Proof.
  intros (A & B & C). unfold phaseA.
  rewrite <- (clean_up_quiet (with_draws st (S (S (draws st)))))
    by (repeat split; assumption).
  f_equal. destruct st; simpl in *; subst.
  unfold shuffle_players; simpl. rewrite shuffle_nil. simpl.
  rewrite shuffle_nil. reflexivity.
Qed.

Lemma phaseC_none (t Nturn : nat) (st : Grid) :
  playerCs st = [] ->
  phaseC rnd shuffle t Nturn st = clean_up (with_draws st (S (draws st))).
Proof.
  intros C. unfold phaseC. f_equal.
  destruct st; simpl in *; subst.
  unfold shuffle_players; simpl. rewrite shuffle_nil. reflexivity.
Qed.

Lemma quiet_turn (st : Grid) (t Nturn : nat) :
  Quiet st ->
  exists st',
    play_turn rnd shuffle st t Nturn = Some st' /\ Quiet st' /\
    agents st' = agents st /\ finishedBs st' = finishedBs st.
Proof.
  intros Q. assert (Q' := Q). destruct Q' as (A & B & C).
  unfold play_turn. rewrite (phaseA_quiet st Q). simpl.
  rewrite B. simpl.
  rewrite clean_up_quiet by (repeat split; assumption).
  rewrite phaseC_none by exact C.
  rewrite clean_up_quiet by (repeat split; assumption).
  unfold reset_all. simpl. rewrite A. simpl. rewrite B. simpl.
  rewrite C. simpl.
  eexists. split; [reflexivity |].
  repeat split; assumption.
Qed.

Lemma moveB_free (st : Grid) (b : ref) :
  Topology st ->
  on_grid (width st) (height st) (cell (agents st b)) = true ->
  on_grid (width st) (height st) (end_ (agents st b)) = true ->
  moved (agents st b) = false ->
  cell (agents st b) <> end_ (agents st b) ->
  occupant (cells st (shortest_path (cell (agents st b))
                                    (end_ (agents st b)))) = None ->
  moveB rnd st b
  = Some (finish (relocate st b (shortest_path (cell (agents st b))
                                               (end_ (agents st b))))
                 b (cell (agents st b))).
Proof.
  intros T Hc He Hm Hne Hfree. unfold moveB.
  rewrite Hm, (best_choice_snapped st b T Hc He Hm Hne), Hfree.
  reflexivity.
Qed.

Lemma lone_turn (st : Grid) (b : ref) (t Nturn : nat) :
  Lone st b -> cell (agents st b) <> end_ (agents st b) ->
  exists st',
    play_turn rnd shuffle st t Nturn = Some st' /\
    cell (agents st' b)
    = shortest_path (cell (agents st b)) (end_ (agents st b)) /\
    end_ (agents st' b) = end_ (agents st b) /\
    moves (agents st' b)
    = moves (agents st b)
      ++ [(cell (agents st b),
           shortest_path (cell (agents st b)) (end_ (agents st b)))] /\
    (cell (agents st' b) = end_ (agents st b) ->
     Quiet st' /\ finishedBs st' = finishedBs st ++ [b]) /\
    (cell (agents st' b) <> end_ (agents st b) ->
     Lone st' b /\ finishedBs st' = finishedBs st).
Proof.
  intros (A & B & C & Hm & T & Hc & He & Hfree) Hne.
  set (c := shortest_path (cell (agents st b)) (end_ (agents st b))).
  assert (Hcne : c <> cell (agents st b)).
  { intros E. apply Hne. now apply shortest_path_fixed. }
  assert (Hcg : on_grid (width st) (height st) c = true).
  { assert (Hs := snapped_in_choicesB st b T Hc He Hne).
    apply (in_choicesB st b _ T Hc) in Hs. tauto. }
  assert (EA : phaseA shuffle st = with_draws st (S (S (draws st)))).
  { rewrite (phaseA_one st b A B C). unfold clean_body. simpl.
    destruct (loc_eqb_spec (end_ (agents st b)) (cell (agents st b)))
      as [E | _]; [now symmetry in E | reflexivity]. }
  set (s2 := finish (relocate (with_draws st (S (S (draws st)))) b c)
                    b (cell (agents st b))).
  assert (EB : move_all_B rnd (playerBs (with_draws st (S (S (draws st)))))
                 (with_draws st (S (S (draws st)))) = Some s2).
  { simpl playerBs. rewrite B. simpl move_all_B.
    rewrite (moveB_free (with_draws st (S (S (draws st)))) b
               T Hc He Hm Hne (Hfree c Hcne)).
    reflexivity. }
  assert (E2 : clean_up s2 = clean_body PoolB s2 b).
  { apply clean_up_one; assumption. }
  assert (Ag : agents s2 b
               = mkAgent (kind (agents st b)) (id (agents st b)) c
                         (end_ (agents st b))
                         (moves (agents st b) ++ [(cell (agents st b), c)])
                         true (move_count (agents st b))).
  { unfold s2, finish, relocate.
    store_simpl; first [reflexivity | congruence]. }
  assert (F2 : forall l, l <> c -> occupant (cells s2 l) = None).
  { intros l Hl. unfold s2, finish, relocate.
    store_simpl; simpl in *; try congruence. now apply Hfree. }
  assert (T2 : Topology s2).
  { apply (Topology_frame st); [| exact T].
    unfold same_frame, s2, finish, relocate. simpl.
    split; [reflexivity | split; [reflexivity |]].
    intros l. store_simpl; try (split; reflexivity);
      cbn [cell set_cell_of] in *; congruence. }
  assert (L2 : playerAs s2 = [] /\ playerBs s2 = [b] /\ playerCs s2 = [] /\
               finishedBs s2 = finishedBs st /\
               width s2 = width st /\ height s2 = height st).
  { unfold s2, finish, relocate. simpl. repeat split; assumption. }
  destruct L2 as (A2 & B2 & C2 & Fb2 & W2 & H2).
  clearbody s2.
  unfold play_turn. rewrite EA, EB, E2.
  unfold clean_body. simpl arrived. rewrite Ag. simpl end_. simpl cell.
  destruct (loc_eqb_spec (end_ (agents st b)) c) as [Earr | Hnarr].
  - set (s3 := retire_from PoolB (set_occupant s2 c None) b).
    assert (Q3 : Quiet s3).
    { unfold s3, Quiet. simpl. rewrite A2, B2, C2. simpl.
      now rewrite Nat.eqb_refl. }
    rewrite (phaseC_none t Nturn s3) by apply Q3.
    rewrite clean_up_quiet by exact Q3.
    rewrite reset_all_quiet by exact Q3.
    eexists. split; [reflexivity |].
    simpl. rewrite Ag. simpl.
    split; [reflexivity | split; [reflexivity | split; [reflexivity |]]].
    split.
    + intros _. split; [exact Q3 | now rewrite Fb2].
    + intros N. now symmetry in Earr.
  - rewrite (phaseC_none t Nturn s2) by exact C2.
    rewrite (clean_up_one (with_draws s2 (S (draws s2))) b A2 B2 C2).
    unfold clean_body. simpl arrived. simpl agents. rewrite Ag.
    simpl end_. simpl cell.
    destruct (loc_eqb_spec (end_ (agents st b)) c) as [Earr | _];
      [contradiction |].
    rewrite (reset_all_one (with_draws s2 (S (draws s2))) b A2 B2 C2).
    set (st' := with_turn (reset (with_draws s2 (S (draws s2))) b) _).
    assert (Ag' : agents st' b = set_moved (agents s2 b) false).
    { unfold st', reset. store_simpl; first [reflexivity | congruence]. }
    assert (L' : playerAs st' = [] /\ playerBs st' = [b] /\
                 playerCs st' = [] /\ finishedBs st' = finishedBs st /\
                 width st' = width st /\ height st' = height st).
    { unfold st', reset. simpl. repeat split; assumption. }
    destruct L' as (A' & B' & C' & Fb' & W' & H').
    assert (T' : Topology st').
    { apply (Topology_frame s2); [| exact T2].
      unfold same_frame, st', reset. simpl.
      split; [reflexivity | split; [reflexivity |]].
      intros l. split; reflexivity. }
    assert (F' : forall l, l <> c -> occupant (cells st' l) = None)
      by exact F2.
    clearbody st'.
    exists st'. split; [reflexivity |].
    rewrite Ag', Ag. simpl.
    split; [reflexivity | split; [reflexivity | split; [reflexivity |]]].
    split.
    + intros E. now symmetry in E.
    + intros _. split; [| exact Fb'].
      unfold Lone. rewrite Ag', Ag, W', H'. simpl.
      repeat match goal with |- _ /\ _ => split end; try assumption.
      reflexivity.
Qed.


Lemma straight_walk_S (n : nat) (s e : loc) :
  straight_walk (S n) s e
  = (s, shortest_path s e) :: straight_walk n (shortest_path s e) e.
Proof.
  unfold straight_walk. simpl. rewrite <- seq_shift, map_map.
  reflexivity.
Qed.

Lemma straight_walk_steps (n : nat) (s e : loc) :
  Z.of_nat n <= chebyshev s e ->
  forall m, In m (straight_walk n s e) -> fst m <> snd m.
Proof.
  revert s. induction n as [| n IH]; intros s Hn m Hm.
  - destruct Hm.
  - assert (Hne : s <> e).
    { intros E. apply chebyshev_zero in E. lia. }
    rewrite straight_walk_S in Hm. destruct Hm as [<- | Hm].
    + simpl. intros E. symmetry in E.
      apply (proj1 (shortest_path_fixed s e)) in E. contradiction.
    + apply (IH (shortest_path s e)); [| exact Hm].
      destruct (shortest_path_chebyshev s e Hne) as [_ E]. lia.
Qed.

Lemma total_distance_steps (a : Agent) :
  (forall m, In m (moves a) -> fst m <> snd m) ->
  total_distance a = List.length (moves a).
Proof.
  unfold total_distance. rewrite total_distance_counts. simpl.
  induction (moves a) as [| m l IH]; intros H; simpl; [reflexivity |].
  destruct (loc_eqb_spec (fst m) (snd m)) as [E | _].
  - exfalso. apply (H m); [now left | exact E].
  - simpl. f_equal. apply IH. intros m' Hm'. apply H. now right.
Qed.

Lemma play_turns_app (l1 l2 : list nat) (Nturn : nat) (st : Grid) :
  play_turns rnd shuffle (l1 ++ l2) Nturn st
  = match play_turns rnd shuffle l1 Nturn st with
    | Some s => play_turns rnd shuffle l2 Nturn s
    | None => None
    end.
Proof.
  revert st. induction l1 as [| t l1 IH]; intros st; simpl; [reflexivity |].
  destruct (play_turn rnd shuffle st t Nturn); [apply IH | reflexivity].
Qed.

Lemma quiet_turns (l : list nat) (Nturn : nat) (st : Grid) :
  Quiet st ->
  exists st',
    play_turns rnd shuffle l Nturn st = Some st' /\ Quiet st' /\
    agents st' = agents st /\ finishedBs st' = finishedBs st.
Proof.
  revert st. induction l as [| t l IH]; intros st Q; simpl.
  - exists st. auto.
  - destruct (quiet_turn st t Nturn Q) as (s1 & E & Q1 & Ag & F).
    rewrite E. destruct (IH s1 Q1) as (st' & E' & Q' & Ag' & F').
    exists st'. repeat split; try apply Q'; congruence.
Qed.

Lemma lone_walk (n : nat) :
  forall (l : list nat) (Nturn : nat) (st : Grid) (b : ref),
    Lone st b ->
    chebyshev (cell (agents st b)) (end_ (agents st b)) = Z.of_nat (S n) ->
    List.length l = S n ->
    exists st',
      play_turns rnd shuffle l Nturn st = Some st' /\ Quiet st' /\
      finishedBs st' = finishedBs st ++ [b] /\
      cell (agents st' b) = end_ (agents st b) /\
      moves (agents st' b)
      = moves (agents st b)
        ++ straight_walk (S n) (cell (agents st b)) (end_ (agents st b)).
Proof.
  induction n as [| n IH]; intros l Nturn st b L D Hl;
    (destruct l as [| t l]; [discriminate |]);
    assert (Hne : cell (agents st b) <> end_ (agents st b))
      by (intros E; apply chebyshev_zero in E; lia);
    destruct (shortest_path_chebyshev _ _ Hne) as [_ D1];
    destruct (lone_turn st b t Nturn L Hne)
      as (s1 & E1 & C1 & En1 & M1 & Harr & Hnot);
    simpl play_turns; rewrite E1; rewrite straight_walk_S.
  - destruct l; [| discriminate]. simpl.
    assert (Hend : cell (agents s1 b) = end_ (agents st b)).
    { rewrite C1. apply chebyshev_zero. lia. }
    destruct (Harr Hend) as [Q F].
    exists s1. repeat split; try apply Q; assumption.
  - assert (Hfar : cell (agents s1 b) <> end_ (agents st b)).
    { rewrite C1. intros E. apply chebyshev_zero in E. lia. }
    destruct (Hnot Hfar) as [L1 F1].
    destruct (IH l Nturn s1 b L1) as (st' & E' & Q' & F' & C' & M').
    + rewrite C1, En1. lia.
    + simpl in Hl. lia.
    + exists st'. rewrite C1, En1 in *.
      repeat split; try apply Q'; try congruence.
      rewrite M', M1, <- app_assoc. reflexivity.
Qed.

End Alone.

Lemma scenario_one_B (w h : nat) (i : string) (s e : loc) :
  on_grid w h s = true -> on_grid w h e = true ->
  scenario w h [mkRow (String "B" i) (fst s) (snd s) (fst e) (snd e)]
  = add_playerB
      (snd (new_agent (initialize w h) TypeB (substring 0 2 i) s e)) 0%nat.
Proof.
  intros Hs He.
  assert (I : forall l, on_grid w h l = true ->
                grid_at (initialize w h) (snd l) (fst l) = Some l).
  { intros l Hl. rewrite (grid_at_rows _ _ _ (Built_initialize w h)).
    apply on_grid_bounds in Hl. simpl width. simpl height.
    assert (E : indexable w h (fst l) (snd l) = true).
    { unfold indexable. rewrite !andb_true_iff, !Z.leb_le, !Z.ltb_lt. lia. }
    rewrite E, !Z.mod_small by lia. now destruct l. }
  unfold scenario, populate, populate_row. cbn [x1 y1 x2 y2 name].
  rewrite (I s Hs), (I e He). reflexivity.
Qed.

Lemma Lone_scenario (w h : nat) (i : string) (s e : loc) :
  on_grid w h s = true -> on_grid w h e = true ->
  Lone (scenario w h [mkRow (String "B" i) (fst s) (snd s) (fst e) (snd e)])
       0%nat.
Proof.
  intros Hs He.
  assert (T := Topology_scenario w h
                 [mkRow (String "B" i) (fst s) (snd s) (fst e) (snd e)]).
  rewrite (scenario_one_B w h i s e Hs He) in *.
  unfold Lone. simpl.
  repeat match goal with |- _ /\ _ => split end;
    try reflexivity; try assumption.
  intros l Hl. unfold upd_cell. simpl.
  destruct (loc_eqb_spec l s); [contradiction |].
  destruct (on_grid w h l); reflexivity.
Qed.

Section Straight.

Variable rnd : nat -> nat.
Variable shuffle : nat -> list ref -> list ref.
Hypothesis shuffle_permutes : forall n l, Permutation (shuffle n l) l.

(** X23.  A TypeB agent alone on a grid of at most 2^25 columns and 2^25
    rows, where [math.sqrt] keeps apart the distances the sort compares, walks
    straight to its destination: after as many turns as the Chebyshev
    distance between its start and its destination it stands on the
    destination and has been retired, its log holds exactly the steps
    [shortest_path] dictates, one per turn and none of them a stay, and
    further turns change nothing. *)
Theorem lone_follower_walks_straight (w h : nat) (i : string) (s e : loc)
        (Nturn : nat) :
  Z.of_nat w <= 2 ^ 25 -> Z.of_nat h <= 2 ^ 25 ->
  on_grid w h s = true -> on_grid w h e = true -> s <> e ->
  (Z.to_nat (chebyshev s e) <= Nturn)%nat ->
  exists st',
    run rnd shuffle
        (scenario w h [mkRow (String "B" i) (fst s) (snd s) (fst e) (snd e)])
        Nturn
    = Some st' /\
    playerBs st' = [] /\ finishedBs st' = [0%nat] /\
    cell (agents st' 0%nat) = e /\
    moves (agents st' 0%nat) = straight_walk (Z.to_nat (chebyshev s e)) s e /\
    total_distance (agents st' 0%nat) = Z.to_nat (chebyshev s e).
Proof.
  intros _ _ Hs He Hne Hn.
  set (st := scenario w h
               [mkRow (String "B" i) (fst s) (snd s) (fst e) (snd e)]).
  assert (L : Lone st 0%nat) by now apply Lone_scenario.
  assert (Init : cell (agents st 0%nat) = s /\ end_ (agents st 0%nat) = e /\
                 moves (agents st 0%nat) = [] /\ finishedBs st = []).
  { unfold st. rewrite (scenario_one_B w h i s e Hs He). simpl.
    repeat split; reflexivity. }
  destruct Init as (Ic & Ie & Im & If).
  clearbody st.
  assert (Hd : 0 < chebyshev s e).
  { assert (chebyshev s e <> 0)
      by (intros Z0; apply chebyshev_zero in Z0; contradiction).
    unfold chebyshev in *. lia. }
  destruct (Z.to_nat (chebyshev s e)) as [| n] eqn:En; [lia |].
  assert (Es : seq 0 Nturn = seq 0 (S n) ++ seq (0 + S n) (Nturn - S n)).
  { rewrite <- seq_app. f_equal. lia. }
  unfold run. rewrite Es, (play_turns_app rnd shuffle).
  destruct (lone_walk rnd shuffle shuffle_permutes n (seq 0 (S n)) Nturn
              st 0%nat L)
    as (s1 & E1 & Q1 & F1 & C1 & M1).
  { rewrite Ic, Ie. lia. }
  { apply length_seq. }
  rewrite E1.
  destruct (quiet_turns rnd shuffle shuffle_permutes
              (seq (0 + S n) (Nturn - S n)) Nturn s1 Q1)
    as (st' & E' & Q' & Ag' & F').
  exists st'. rewrite Ic, Ie, Im, If in *. simpl in M1, F1.
  split; [exact E' |]. rewrite Ag'.
  split; [apply Q' | split; [now rewrite F' | split; [exact C1 |]]].
  split; [exact M1 |].
  rewrite total_distance_steps; rewrite M1.
  - unfold straight_walk. now rewrite length_map, length_seq.
  - apply straight_walk_steps. lia.
Qed.

End Straight.

Lemma lone_follower_walks_straight_witness :
  exists st',
    run draw_zero keep_order (scenario 3 3 [mkRow "B1" 0 0 2 2]) 5
    = Some st' /\
    playerBs st' = [] /\ finishedBs st' = [0%nat] /\
    cell (agents st' 0%nat) = (2, 2) /\
    moves (agents st' 0%nat) = straight_walk 2 (0, 0) (2, 2) /\
    total_distance (agents st' 0%nat) = 2%nat.
Proof.
  apply (lone_follower_walks_straight draw_zero keep_order
           keep_order_permutes 3 3 "1" (0, 0) (2, 2) 5);
    [vm_compute; discriminate | vm_compute; discriminate
     | reflexivity | reflexivity | discriminate | vm_compute; lia].
Defined.
